(** * comprehensible-wsdl: import resolution, normalisation, reference
      resolution and rendering, embedded from src/load.js, src/parse.js
      (parse.js and model.js), src/render.js, util.js and resolve.js.

    The raw tree produced by fast-xml-parser is modelled as an inductive
    [node]; JS objects are finite maps ([gmap]), JS arrays are lists, and
    `undefined` is [None] at the place where a property is read. *)

From stdpp Require Import gmap strings list fin_maps fin_sets.
From Stdlib Require Import Lia.

Set Warnings "-register-all,-clear-no-such-hyp".

(* ===================================================================== *)
(** ** The raw, attribute-tagged tree                                      *)
(* ===================================================================== *)

(** A value of the parser's output.
    - [Str s]: a text leaf (also the parser's value for an empty tag, [""]).
    - [Lit truthy shown]: a number or boolean leaf, which the parser produces
      when tag text looks like one; only its JS truthiness and its [String()]
      image are ever observed by this program.
    - [Arr items props]: a JS array; [props] are named properties assigned to
      the array object itself (only [ensureSchema] can create one).
    - [Elem attrs children]: a JS object.  Keys with the attribute prefix
      (['@_name']) live in [attrs], every other key (element names, ['#text'])
      in [children]; attribute values are strings because both parsers are
      configured with [parseAttributeValue: false].  (An attribute written
      without a value, which is not well-formed XML and which
      [allowBooleanAttributes] would turn into [true], has no counterpart
      here.) *)
Inductive node :=
| Str (s : string)
| Lit (truthy : bool) (shown : string)
| Arr (items : list node) (props : gmap string node)
| Elem (attrs : gmap string string) (children : gmap string node).

(** [n[k]] for a non-attribute key [k]; [None] is JS [undefined].  Reading a
    property of a string, number or boolean yields [undefined] for every key
    this program uses. *)
Definition child (k : string) (n : node) : option node :=
  match n with
  | Elem _ c => c !! k
  | Arr _ p => p !! k
  | Str _ | Lit _ _ => None
  end.

(** [n['@_k']]. *)
Definition attr (k : string) (n : node) : option string :=
  match n with
  | Elem a _ => a !! k
  | _ => None
  end.

(** JS truthiness of a defined value. *)
Definition truthy (n : node) : bool :=
  match n with
  | Str s => negb (String.eqb s "")
  | Lit b _ => b
  | Arr _ _ | Elem _ _ => true
  end.

(** Truthiness of a possibly-undefined value: [!!v]. *)
Definition truthy_opt (v : option node) : bool :=
  match v with
  | None => false
  | Some n => truthy n
  end.

(** [typeof n === 'object'] (arrays included). *)
Definition is_object (n : node) : bool :=
  match n with
  | Arr _ _ | Elem _ _ => true
  | Str _ | Lit _ _ => false
  end.

(** The empty object literal [{}]. *)
Definition empty_obj : node := Elem ∅ ∅.

(** Errors a JS call can throw.  [Thrown msg] is an [Error] with that message;
    [TypeError] is the engine's error for assigning a property on a primitive
    in strict mode (every file of the program is an ES module). *)
Inductive error :=
| Thrown (message : string)
| TypeError.

Inductive result (A : Type) :=
| Ok (a : A)
| Err (e : error).
Arguments Ok {A} a.
Arguments Err {A} e.

(** The value a call returned, if it returned. *)
Definition result_to_option {A} (r : result A) : option A :=
  match r with
  | Ok a => Some a
  | Err _ => None
  end.

(** [n[k] = v]; assigning on a primitive throws. *)
Definition set_child (k : string) (v : node) (n : node) : result node :=
  match n with
  | Elem a c => Ok (Elem a (<[k := v]> c))
  | Arr l p => Ok (Arr l (<[k := v]> p))
  | Str _ | Lit _ _ => Err TypeError
  end.

(* ===================================================================== *)
(** ** util.js                                                             *)
(* ===================================================================== *)

Module Util.

(** [arr(value)]: [[]] for null/undefined, the array itself when it is one,
    else a singleton. *)
Definition arr (value : option node) : list node :=
  match value with
  | None => []
  | Some (Arr items _) => items
  | Some n => [n]
  end.

(** [value.indexOf(':')], [None] for -1. *)
Definition indexOf_colon (value : string) : option nat :=
  String.index 0 ":" value.

(** [value.slice(start)] for [0 <= start]. *)
Definition slice_from (start : nat) (value : string) : string :=
  String.substring start (String.length value - start) value.

(** [stripNs(value)] on a string argument; the empty string is falsy and is
    returned unchanged. *)
Definition stripNs (value : string) : string :=
  if String.eqb value "" then value
  else match indexOf_colon value with
       | None => value
       | Some colon => slice_from (colon + 1) value
       end.

(** [String(n)] for a defined value. *)
Fixpoint jsString (n : node) : string :=
  match n with
  | Str s => s
  | Lit _ shown => shown
  | Arr items _ => String.concat "," (map jsString items)
  | Elem _ _ => "[object Object]"
  end.

Section Text.
(** [String.prototype.trim], a built-in of the runtime. *)
Variable trim : string → string.

Fixpoint text_node (n : node) : string :=
  if negb (truthy n) then ""
  else match n with
       | Str s => trim s
       | Arr [] _ => ""
       | Arr (x :: _) _ => text_node x
       | Elem _ c =>
           trim (match c !! "#text" with
                 | Some v => jsString v
                 | None => ""
                 end)
       | Lit _ _ => trim (jsString n)
       end.

(** [text(node)], where [node] may be undefined. *)
Definition text (n : option node) : string :=
  match n with
  | None => ""
  | Some n => text_node n
  end.
End Text.

End Util.

(* ===================================================================== *)
(** ** model.js: the normalised model                                      *)
(* ===================================================================== *)

Module Model.
Import Util.

Inductive kind := KElement | KComplexType | KSimpleType.

Record Field := mkField {
  field_name : string;
  field_type : string;
  field_minOccurs : string;
  field_maxOccurs : string;
  field_documentation : string }.

Record TypeDef := mkTypeDef {
  type_name : string;
  type_kind : kind;
  type_documentation : string;
  type_fields : list Field;
  type_enumerations : list string }.

Record Part := mkPart {
  part_name : string;
  part_element : string;
  part_type : string }.

Record Message := mkMessage {
  message_name : string;
  message_parts : list Part }.

Record Fault := mkFault {
  fault_name : string;
  fault_message : string }.

Record Operation := mkOperation {
  op_name : string;
  op_documentation : string;
  op_input : string;
  op_output : string;
  op_faults : list Fault }.

Record BoundOperation := mkBoundOperation {
  bop_name : string;
  bop_soapAction : string }.

Record Binding := mkBinding {
  binding_name : string;
  binding_type : string;
  binding_style : string;
  binding_transport : string;
  binding_protocol : string;
  binding_operations : list BoundOperation }.

Record Endpoint := mkEndpoint {
  endpoint_service : string;
  endpoint_port : string;
  endpoint_binding : string;
  endpoint_url : string }.

Record Service := mkService {
  name : string;
  targetNamespace : string;
  documentation : string;
  types : list TypeDef;
  messages : list Message;
  operations : list Operation;
  bindings : list Binding;
  endpoints : list Endpoint }.

(** [a ?? b] on strings read from attributes. *)
Definition orElse (a : option string) (b : string) : string := default b a.

(** [transport.includes(needle)]. *)
Fixpoint includes (needle s : string) : bool :=
  String.prefix needle s ||
  match s with
  | EmptyString => false
  | String _ rest => includes needle rest
  end.

Definition detectProtocol (transport : string) : string :=
  if includes "soap12" transport then "SOAP 1.2" else "SOAP 1.1".

Section Normalizer.
Variable trim : string → string.

(** [getDoc(node)] for a defined node. *)
Definition getDoc (n : node) : string :=
  if negb (truthy n) then ""
  else
    let direct := text trim (head (arr (child "documentation" n))) in
    if negb (String.eqb direct "") then direct
    else
      let annotation := head (arr (child "annotation" n)) in
      text trim (head (arr (annotation ≫= child "documentation"))).

Definition extractFields (complexTypeNode : node) : list Field :=
  let compositor :=
    match head (arr (child "sequence" complexTypeNode)) with
    | Some c => c
    | None =>
        match head (arr (child "all" complexTypeNode)) with
        | Some c => c
        | None =>
            match head (arr (child "choice" complexTypeNode)) with
            | Some c => c
            | None => empty_obj
            end
        end
    end in
  map (λ el,
         {| field_name := orElse (attr "name" el) "";
            field_type :=
              stripNs (match attr "type" el with
                       | Some t => t
                       | None => orElse (attr "element" el) ""
                       end);
            field_minOccurs := orElse (attr "minOccurs" el) "1";
            field_maxOccurs := orElse (attr "maxOccurs" el) "1";
            field_documentation := getDoc el |})
      (arr (child "element" compositor)).

Definition extractEnumerations (simpleTypeNode : node) : list string :=
  match child "restriction" simpleTypeNode with
  | None => []
  | Some restriction =>
      if negb (truthy restriction) then []
      else map (λ e, orElse (attr "value" e) "")
               (arr (child "enumeration" restriction))
  end.

(** The first loop of [extractTypes]: top-level elements that wrap an
    inline complex type; an element whose first [complexType] is missing or
    falsy is skipped. *)
Definition elementTypes (els : list node) : list TypeDef :=
  omap (λ el,
          match head (arr (child "complexType" el)) with
          | None => None
          | Some ct =>
              if negb (truthy ct) then None
              else Some {| type_name := orElse (attr "name" el) "";
                           type_kind := KElement;
                           type_documentation := getDoc el;
                           type_fields := extractFields ct;
                           type_enumerations := [] |}
          end) els.

Definition complexTypes (cts : list node) : list TypeDef :=
  map (λ ct, {| type_name := orElse (attr "name" ct) "";
                type_kind := KComplexType;
                type_documentation := getDoc ct;
                type_fields := extractFields ct;
                type_enumerations := [] |}) cts.

Definition simpleTypes (sts : list node) : list TypeDef :=
  map (λ st, {| type_name := orElse (attr "name" st) "";
                type_kind := KSimpleType;
                type_documentation := getDoc st;
                type_fields := [];
                type_enumerations := extractEnumerations st |}) sts.

Definition extractTypes (schema : node) : list TypeDef :=
  elementTypes (arr (child "element" schema))
  ++ complexTypes (arr (child "complexType" schema))
  ++ simpleTypes (arr (child "simpleType" schema)).

Definition extractMessages (msgs : list node) : list Message :=
  map (λ msg,
         {| message_name := orElse (attr "name" msg) "";
            message_parts :=
              map (λ p, {| part_name := orElse (attr "name" p) "";
                           part_element := stripNs (orElse (attr "element" p) "");
                           part_type := stripNs (orElse (attr "type" p) "") |})
                  (arr (child "part" msg)) |}) msgs.

Definition extractOperations (portTypes : list node) : list Operation :=
  flat_map (λ pt,
    map (λ op,
           {| op_name := orElse (attr "name" op) "";
              op_documentation := getDoc op;
              op_input :=
                stripNs (orElse (head (arr (child "input" op)) ≫= attr "message") "");
              op_output :=
                stripNs (orElse (head (arr (child "output" op)) ≫= attr "message") "");
              op_faults :=
                map (λ f, {| fault_name := orElse (attr "name" f) "";
                             fault_message := stripNs (orElse (attr "message" f) "") |})
                    (arr (child "fault" op)) |})
        (arr (child "operation" pt))) portTypes.

(** The arrow function of [extractBindings].  After prefix stripping the
    protocol sub-descriptor [<soap:binding>] has the same key as its parent:
    it is read as [b['binding'][0]]; likewise [<soap:operation>] inside a
    bound operation is [op['operation'][0]]. *)
Definition soapBindingOf (b : node) : node :=
  default empty_obj (head (arr (child "binding" b))).

Definition extractBinding (b : node) : Binding :=
  let soapBinding := soapBindingOf b in
  {| binding_name := orElse (attr "name" b) "";
     binding_type := stripNs (orElse (attr "type" b) "");
     binding_style := orElse (attr "style" soapBinding) "document";
     binding_transport := orElse (attr "transport" soapBinding) "";
     binding_protocol := detectProtocol (orElse (attr "transport" soapBinding) "");
     binding_operations :=
       map (λ op,
              let soapOp := default empty_obj (head (arr (child "operation" op))) in
              {| bop_name := orElse (attr "name" op) "";
                 bop_soapAction := orElse (attr "soapAction" soapOp) "" |})
           (arr (child "operation" b)) |}.

Definition extractBindings (bs : list node) : list Binding :=
  map extractBinding bs.

Definition extractEndpoints (services : list node) : list Endpoint :=
  flat_map (λ svc,
    map (λ port,
           let address := child "address" port in
           let target :=
             match address with
             | Some (Arr items _) => head items
             | other => other
             end in
           {| endpoint_service := orElse (attr "name" svc) "";
              endpoint_port := orElse (attr "name" port) "";
              endpoint_binding := stripNs (orElse (attr "binding" port) "");
              endpoint_url := orElse (target ≫= attr "location") "" |})
        (arr (child "port" svc))) services.

(** [buildModel(raw)].  Reading an attribute of an undefined [definitions]
    throws. *)
Definition buildModel (raw : node) : result Service :=
  match child "definitions" raw with
  | None => Err TypeError
  | Some defs =>
      let schema :=
        default empty_obj (child "types" defs ≫= child "schema") in
      Ok {| name := orElse (attr "name" defs) "";
            targetNamespace := orElse (attr "targetNamespace" defs) "";
            documentation := getDoc defs;
            types := extractTypes schema;
            messages := extractMessages (arr (child "message" defs));
            operations := extractOperations (arr (child "portType" defs));
            bindings := extractBindings (arr (child "binding" defs));
            endpoints := extractEndpoints (arr (child "service" defs)) |}
  end.
End Normalizer.

End Model.

(* ===================================================================== *)
(** ** resolve.js: reference index and resolver                            *)
(* ===================================================================== *)

Module Resolve.
Import Model.

(** [new Map(entries)]: entries are inserted in iteration order, so a later
    entry with an equal key replaces the value of an earlier one. *)
Definition newMap {V : Type} (entries : list (string * V)) : gmap string V :=
  foldl (λ m kv, <[kv.1 := kv.2]> m) ∅ entries.

Record Index := mkIndex {
  typeByName : gmap string TypeDef;
  messageByName : gmap string Message }.

Definition buildIndex (model : Service) : Index :=
  {| typeByName := newMap (map (λ t, (type_name t, t)) (types model));
     messageByName := newMap (map (λ m, (message_name m, m)) (messages model)) |}.

Record PartFields := mkPartFields {
  partName : string;
  typeName : string;
  fields : list Field;
  enumerations : list string }.

(** [part.element || part.type]: the empty string is falsy. *)
Definition refNameOf (part : Part) : string :=
  if String.eqb (part_element part) "" then part_type part else part_element part.

Definition resolvePart (index : Index) (part : Part) : PartFields :=
  let refName := refNameOf part in
  let type := typeByName index !! refName in
  {| partName := part_name part;
     typeName := refName;
     fields := match type with Some t => type_fields t | None => [] end;
     enumerations := match type with Some t => type_enumerations t | None => [] end |}.

Definition resolveMessageFields (messageName : string) (index : Index)
  : list PartFields :=
  match messageByName index !! messageName with
  | None => []
  | Some message => map (resolvePart index) (message_parts message)
  end.

End Resolve.

(* ===================================================================== *)
(** ** The runtime the loader runs on                                      *)
(* ===================================================================== *)

(** What [fetch(url)] can do: answer with a body, answer with a non-ok
    status, or reject. *)
Inductive http_response :=
| HttpOk (body : string)
| HttpStatus (status : string)
| HttpRejected (e : error).

(** The external collaborators of load.js and parse.js: the two configured
    fast-xml-parser instances, [resolve] and [dirname] of node:path, the URL
    class, [fetch] and [readFile].  A parser that throws returns [Err];
    [url_directory] is the URL with its path cut after the last slash.  Each
    is a function: asked twice for the same location during one resolution,
    the runtime answers the same. *)
Record Runtime := mkRuntime {
  xml_parse_wsdl : string → result node;
  xml_parse_xsd : string → result node;
  path_resolve : string → string → string;
  path_dirname : string → string;
  url_directory : string → string;
  http_fetch : string → http_response;
  read_file : string → result string }.

(* ===================================================================== *)
(** ** parse.js                                                            *)
(* ===================================================================== *)

Module Parse.

Definition msg_unexpected : string :=
  "Failed to parse WSDL: unexpected parser output.".
Definition msg_missing_definitions : string :=
  "Not a valid WSDL document: missing <definitions> root element.".

Definition parseWsdl (R : Runtime) (xml : string) : result node :=
  match xml_parse_wsdl R xml with
  | Err e => Err e
  | Ok parsed =>
      if negb (truthy parsed) || negb (is_object parsed)
      then Err (Thrown msg_unexpected)
      else if negb (truthy_opt (child "definitions" parsed))
      then Err (Thrown msg_missing_definitions)
      else Ok parsed
  end.

End Parse.

(* ===================================================================== *)
(** ** load.js                                                             *)
(* ===================================================================== *)

Module Load.
Import Util Parse.

Definition XSD_TYPE_KEYS : list string :=
  ["element"; "complexType"; "simpleType"; "group"; "attributeGroup"].
Definition WSDL_DEF_KEYS : list string :=
  ["message"; "portType"; "binding"; "service"].

(** Which of the two loops asked for a document: [resolveXsdImports] (the
    document is then parsed by [parseXsd]) or [resolveWsdlImports] (parsed by
    [parseWsdl]). *)
Inductive importKind := XsdImport | WsdlImport.

(** Observable steps of one resolution, recorded for reasoning only: a call
    of [fetchSource] and a merge of the document fetched from a location. *)
Inductive event :=
| Fetched (kind : importKind) (absLoc : string)
| Merged (absLoc : string).

(** The mutable state shared by every recursive call of one top-level
    resolution: the [visited] set, and the record of steps taken. *)
Record state := mkState {
  visited : gset string;
  trace : list event }.

(** An async function of the loader: it reads and updates the shared state
    and either returns, throws, or (in this model) runs out of recursion
    budget, which is [None]. *)
Definition M (A : Type) : Type := state → option (result A * state).

Definition ret {A} (a : A) : M A := λ s, Some (Ok a, s).
Definition throw {A} (e : error) : M A := λ s, Some (Err e, s).
Definition out_of_fuel {A} : M A := λ _, None.
Definition bind {A B} (c : M A) (k : A → M B) : M B :=
  λ s, match c s with
       | None => None
       | Some (Err e, s') => Some (Err e, s')
       | Some (Ok a, s') => k a s'
       end.
Definition lift {A} (r : result A) : M A :=
  match r with
  | Ok a => ret a
  | Err e => throw e
  end.

Notation "x <~ c ;; k" := (bind c (λ x, k))
  (at level 100, c at next level, right associativity).
Notation "c ;;; k" := (bind c (λ _, k))
  (at level 100, right associativity).

Definition hasVisited (absLoc : string) : M bool :=
  λ s, Some (Ok (bool_decide (absLoc ∈ visited s)), s).
Definition addVisited (absLoc : string) : M unit :=
  λ s, Some (Ok tt, {| visited := {[absLoc]} ∪ visited s; trace := trace s |}).
Definition emit (e : event) : M unit :=
  λ s, Some (Ok tt, {| visited := visited s; trace := trace s ++ [e] |}).

(** A [for ... of] loop whose body updates one tree. *)
Fixpoint forEach {A B} (body : B → A → M B) (items : list A) (acc : B) : M B :=
  match items with
  | [] => ret acc
  | item :: rest => acc' <~ body acc item ;; forEach body rest acc'
  end.

(** Sequencing of calls that can throw but touch no shared state. *)
Definition andThen {A B} (r : result A) (k : A → result B) : result B :=
  match r with
  | Ok a => k a
  | Err e => Err e
  end.

Definition isUrl (loc : string) : bool :=
  String.prefix "http://" loc || String.prefix "https://" loc.

(** The update of [mergeSchema] for one key. *)
Definition mergeSchemaKey (src : node) (dest : node) (key : string) : result node :=
  let srcItems := arr (child key src) in
  match srcItems with
  | [] => Ok dest
  | _ => set_child key (Arr (arr (child key dest) ++ srcItems) ∅) dest
  end.

Definition mergeSchema (dest src : node) : result node :=
  foldl (λ acc key, andThen acc (λ d, mergeSchemaKey src d key)) (Ok dest) XSD_TYPE_KEYS.

(** The items [mergeWsdlDefs] keeps from [srcItems]: those whose [@_name]
    (possibly undefined) is not the [@_name] of an item of [destItems]. *)
Definition newItems (destItems srcItems : list node) : list node :=
  let existingNames : gset (option string) := list_to_set (map (attr "name") destItems) in
  filter (λ n, attr "name" n ∉ existingNames) srcItems.

Definition mergeWsdlDefsKey (src : node) (dest : node) (key : string) : result node :=
  let srcItems := arr (child key src) in
  match srcItems with
  | [] => Ok dest
  | _ =>
      let destItems := arr (child key dest) in
      set_child key (Arr (destItems ++ newItems destItems srcItems) ∅) dest
  end.

Definition mergeWsdlDefs (dest src : node) : result node :=
  foldl (λ acc key, andThen acc (λ d, mergeWsdlDefsKey src d key)) (Ok dest) WSDL_DEF_KEYS.

(** [n[k] = v] on an object; used where the tree model has to write back a
    child that JS updated in place through a shared reference. *)
Definition put_child (k : string) (v : node) (n : node) : node :=
  match set_child k v n with
  | Ok n' => n'
  | Err _ => n
  end.

(** [ensureSchema(defs)]: the (possibly extended) definitions node together
    with the schema node the JS function returns.  [defs['types']] is one
    object shared between [defs] and the assignment
    [defs['types']['schema'] = {}], so the extended [types] is written back
    into [defs]. *)
Definition ensureSchema (defs : node) : result (node * node) :=
  andThen (if truthy_opt (child "types" defs) then Ok defs
           else set_child "types" empty_obj defs) (λ defs1,
  match child "types" defs1 with
  | None => Err TypeError
  | Some types =>
      match child "schema" types with
      | Some schema =>
          if truthy schema then Ok (defs1, schema)
          else andThen (set_child "schema" empty_obj types) (λ types1,
               Ok (put_child "types" types1 defs1, empty_obj))
      | None =>
          andThen (set_child "schema" empty_obj types) (λ types1,
          Ok (put_child "types" types1 defs1, empty_obj))
      end
  end).

(** The schema node is the object at [defs.types.schema]; after
    [resolveXsdImports] has updated it in place, [defs] sees the update. *)
Definition withSchema (defs schema : node) : node :=
  match child "types" defs with
  | Some types => put_child "types" (put_child "schema" schema types) defs
  | None => defs
  end.

Section Loader.
Context (R : Runtime).

Definition parseXsd (xml : string) : result node :=
  andThen (xml_parse_xsd R xml) (λ parsed,
    Ok (match child "schema" parsed with
        | Some s => s
        | None =>
            default empty_obj
              ((child "definitions" parsed ≫= child "types") ≫= child "schema")
        end)).

Definition absoluteLocation (loc baseDir : string) : string :=
  if isUrl loc then loc else path_resolve R baseDir loc.

Definition baseDirOf (absLoc : string) : string :=
  if isUrl absLoc then url_directory R absLoc else path_dirname R absLoc.

(** What [fetchSource(absLoc)] resolves or rejects with. *)
Definition fetchBody (absLoc : string) : result string :=
  if isUrl absLoc then
    match http_fetch R absLoc with
    | HttpOk body => Ok body
    | HttpStatus status =>
        Err (Thrown ("Failed to fetch " +:+ absLoc +:+ ": HTTP " +:+ status))
    | HttpRejected e => Err e
    end
  else read_file R absLoc.

(** [fetchSource(absLoc)]; [kind] only labels the recorded step. *)
Definition fetchSource (kind : importKind) (absLoc : string) : M string :=
  emit (Fetched kind absLoc) ;;;
  lift (fetchBody absLoc).

(** The loop body of [resolveXsdImports] from the visited check on, for a
    directive whose absolute location is [absLoc]; [recur] is the recursive
    call. *)
Definition visitXsd (recur : node → string → M node) (absLoc : string)
    (schema : node) : M node :=
  seen <~ hasVisited absLoc ;;
  if (seen : bool) then ret schema
  else
    addVisited absLoc ;;;
    xsdXml <~ fetchSource XsdImport absLoc ;;
    importedSchema <~ lift (parseXsd xsdXml) ;;
    let importedBaseDir := baseDirOf absLoc in
    importedSchema' <~ recur importedSchema importedBaseDir ;;
    emit (Merged absLoc) ;;;
    lift (mergeSchema schema importedSchema').

(** One iteration of the loop of [resolveXsdImports]. *)
Definition xsdImportStep (recur : node → string → M node) (baseDir : string)
    (schema imp : node) : M node :=
  match attr "schemaLocation" imp with
  | None => ret schema
  | Some loc =>
      if String.eqb loc "" then ret schema
      else visitXsd recur (absoluteLocation loc baseDir) schema
  end.

(** [resolveXsdImports(schema, baseDir, visited)]; returns the schema as
    the JS function leaves it.  The list iterated over is built once, from
    the schema as it is on entry. *)
Fixpoint resolveXsdImports (fuel : nat) (schema : node) (baseDir : string) : M node :=
  match fuel with
  | 0 => out_of_fuel
  | S fuel' =>
      forEach (xsdImportStep (resolveXsdImports fuel') baseDir)
              (arr (child "import" schema) ++ arr (child "include" schema))
              schema
  end.

(** The loop body of [resolveWsdlImports] from the visited check on. *)
Definition visitWsdl (recur : string → string → M node) (absLoc : string)
    (defs : node) : M node :=
  seen <~ hasVisited absLoc ;;
  if (seen : bool) then ret defs
  else
    addVisited absLoc ;;;
    importedXml <~ fetchSource WsdlImport absLoc ;;
    importedRaw <~ recur importedXml (baseDirOf absLoc) ;;
    emit (Merged absLoc) ;;;
    match child "definitions" importedRaw with
    | Some importedDefs => lift (mergeWsdlDefs defs importedDefs)
    | None => throw TypeError
    end.

(** One iteration of the loop of [resolveWsdlImports]. *)
Definition wsdlImportStep (recur : string → string → M node) (baseDir : string)
    (defs imp : node) : M node :=
  match attr "location" imp with
  | None => ret defs
  | Some loc =>
      if String.eqb loc "" then ret defs
      else visitWsdl recur (absoluteLocation loc baseDir) defs
  end.

Definition resolveWsdlImportsWith (recur : string → string → M node)
    (defs : node) (baseDir : string) : M node :=
  forEach (wsdlImportStep recur baseDir) (arr (child "import" defs)) defs.

(** [resolveWsdl(xml, baseDir, visited)]. *)
Fixpoint resolveWsdl (fuel : nat) (xml : string) (baseDir : string) : M node :=
  match fuel with
  | 0 => out_of_fuel
  | S fuel' =>
      raw <~ lift (parseWsdl R xml) ;;
      match child "definitions" raw with
      | None => throw TypeError
      | Some defs =>
          ds <~ lift (ensureSchema defs) ;;
          schema' <~ resolveXsdImports fuel ds.2 baseDir ;;
          defs' <~ resolveWsdlImportsWith (resolveWsdl fuel')
                     (withSchema ds.1 schema') baseDir ;;
          ret (put_child "definitions" defs' raw)
      end
  end.

Definition resolveWsdlImports (fuel : nat) (defs : node) (baseDir : string) : M node :=
  resolveWsdlImportsWith (resolveWsdl fuel) defs baseDir.

(** [loadWsdl(xml, { baseDir })]: one fresh visited set per call. *)
Definition loadWsdl (fuel : nat) (xml : string) (baseDir : string)
  : option (result node * state) :=
  resolveWsdl fuel xml baseDir {| visited := ∅; trace := [] |}.
End Loader.

End Load.

(* ===================================================================== *)
(** ** Vocabulary for statements about the loader                          *)
(* ===================================================================== *)

Module LoadSpec.
Import Util Load.

Definition eventLoc (e : event) : string :=
  match e with
  | Fetched _ absLoc => absLoc
  | Merged absLoc => absLoc
  end.

(** The locations [fetchSource] was called with, in call order. *)
Definition fetchedLocs (t : list event) : list string :=
  omap (λ e, match e with Fetched _ absLoc => Some absLoc | Merged _ => None end) t.

(** The locations whose document was merged, in merge order. *)
Definition mergedLocs (t : list event) : list string :=
  omap (λ e, match e with Merged absLoc => Some absLoc | Fetched _ _ => None end) t.

(** [wp total c s Q]: run from [s], the call [c] ends with a result and a
    state that satisfy [Q].  With [total = true] the call must end within its
    budget; with [total = false] running out of budget is accepted. *)
Definition wp {A} (total : bool) (c : M A) (s : state)
    (Q : result A → state → Prop) : Prop :=
  match c s with
  | Some (r, s') => Q r s'
  | None => total = false
  end.

(** The absolute location a schema-level directive points at, when it
    carries a non-empty [schemaLocation]. *)
Definition xsdLocated (R : Runtime) (baseDir : string) (imp : node) : option string :=
  match attr "schemaLocation" imp with
  | Some loc => if String.eqb loc "" then None
                else Some (absoluteLocation R loc baseDir)
  | None => None
  end.

(** The same for a document-level import and its [location]. *)
Definition wsdlLocated (R : Runtime) (baseDir : string) (imp : node) : option string :=
  match attr "location" imp with
  | Some loc => if String.eqb loc "" then None
                else Some (absoluteLocation R loc baseDir)
  | None => None
  end.

(** The absolute locations of the located schema-level directives of
    [schema], in the order the loop of [resolveXsdImports] visits them. *)
Definition locatedXsdImports (R : Runtime) (schema : node) (baseDir : string)
  : list string :=
  omap (xsdLocated R baseDir)
       (arr (child "import" schema) ++ arr (child "include" schema)).

(** The same for the document-level imports of [defs]. *)
Definition locatedWsdlImports (R : Runtime) (defs : node) (baseDir : string)
  : list string :=
  omap (wsdlLocated R baseDir) (arr (child "import" defs)).

(** The state right after a location has been marked visited and its fetch
    recorded, and the state after the merge of its document is recorded. *)
Definition opened (s : state) (kind : importKind) (absLoc : string) : state :=
  {| visited := {[absLoc]} ∪ visited s;
     trace := trace s ++ [Fetched kind absLoc] |}.

Definition closed (s : state) (absLoc : string) : state :=
  {| visited := visited s; trace := trace s ++ [Merged absLoc] |}.

(** What the run must have ended with if the document at [absLoc] could not
    be fetched or was rejected by the parser of its import kind. *)
Definition fatalAt (R : Runtime) {A} (kind : importKind) (absLoc : string)
    (r : result A) : Prop :=
  match fetchBody R absLoc with
  | Err e => r = Err e
  | Ok body =>
      match kind with
      | XsdImport => ∀ e, parseXsd R body = Err e → r = Err e
      | WsdlImport => ∀ e, Parse.parseWsdl R body = Err e → r = Err e
      end
  end.

(** What a run from [s] to [s'] with result [r] always satisfies: the
    visited set grows; every recorded step is for a location that entered the
    visited set during the run, and every location that entered it was
    fetched; no location is fetched twice or merged twice;
    and a fetch that failed, or a fetched document its parser rejected, is
    the error the run ended with. *)
Definition extends (R : Runtime) {A} (s : state) (r : result A) (s' : state) : Prop :=
  visited s ⊆ visited s' ∧
  ∃ new, trace s' = trace s ++ new ∧
    (∀ e, e ∈ new → eventLoc e ∈ visited s' ∧ eventLoc e ∉ visited s) ∧
    (∀ absLoc, absLoc ∈ visited s' → absLoc ∈ visited s ∨ absLoc ∈ fetchedLocs new) ∧
    NoDup (fetchedLocs new) ∧
    NoDup (mergedLocs new) ∧
    (∀ kind absLoc, Fetched kind absLoc ∈ new → fatalAt R kind absLoc r).

(** The number of known documents not yet visited. *)
Definition unvisited (docs : gset string) (s : state) : nat :=
  size (docs ∖ visited s).

(** [n'] differs from [n] at most in the children under [keys]. *)
Definition keeps (keys : list string) (n n' : node) : Prop :=
  (∀ k, k ∉ keys → child k n' = child k n) ∧ (∀ a, attr a n' = attr a n).

(** The number of type definitions named [n]. *)
Definition countNamed (n : string) (ts : list Model.TypeDef) : nat :=
  length (filter (λ t, Model.type_name t = n) ts).

(** What [loadWsdl] resolves or rejects with, without the final state. *)
Definition loadResult (R : Runtime) (fuel : nat) (xml baseDir : string)
  : option (result node) :=
  fst <$> loadWsdl R fuel xml baseDir.

(** The schema node of a raw tree, as [buildModel] reads it. *)
Definition schemaOf (raw : node) : option node :=
  (child "definitions" raw ≫= child "types") ≫= child "schema".

(** The budget a call needs when it must end: more than the number of known
    documents not yet visited. *)
Definition enough (total : bool) (docs : gset string) (fuel : nat) (s : state) : Prop :=
  total = true → unvisited docs s < fuel.

(** [c'] ends like [c] wherever [c] ends within its budget. *)
Definition refines {A} (c c' : M A) : Prop :=
  ∀ s x, c s = Some x → c' s = Some x.

End LoadSpec.

(* ===================================================================== *)
(** ** node:path and the URL class, for the runtimes of the examples        *)
(* ===================================================================== *)

Module NodeApi.
Import Stdlib.Strings.Ascii.

Definition isSlash (c : ascii) : bool := Ascii.eqb c "/".

Fixpoint dropWhile (p : ascii → bool) (l : list ascii) : list ascii :=
  match l with
  | [] => []
  | c :: rest => if p c then dropWhile p rest else l
  end.

(** The parts of a path between slashes. *)
Fixpoint segments (s : string) : list string :=
  match s with
  | EmptyString => [EmptyString]
  | String c rest =>
      if isSlash c then EmptyString :: segments rest
      else match segments rest with
           | seg :: more => String c seg :: more
           | [] => [String c EmptyString]
           end
  end.

(** [normalizeString] of node:path for an absolute path: empty parts and
    [.] are dropped, [..] removes the part before it, if there is one.  The
    parts kept so far are held last first. *)
Definition normalizeStep (kept : list string) (seg : string) : list string :=
  if String.eqb seg "" || String.eqb seg "." then kept
  else if String.eqb seg ".." then tail kept
  else seg :: kept.

Definition normalize (segs : list string) : list string :=
  rev (foldl normalizeStep [] segs).

Definition joinSlash (segs : list string) : string := String.concat "/" segs.

(** The loop of [path.resolve]: the arguments are taken last first, empty
    ones are skipped, and the loop ends with the first that is absolute. *)
Fixpoint resolveFrom (args : list string) (resolved : string) : string * bool :=
  match args with
  | [] => (resolved, false)
  | path :: more =>
      if String.eqb path "" then resolveFrom more resolved
      else if String.prefix "/" path then (path +:+ "/" +:+ resolved, true)
      else resolveFrom more (path +:+ "/" +:+ resolved)
  end.

(** [path.resolve(base, rel)] on POSIX, in a process whose working
    directory is the absolute path [cwd]. *)
Definition posixResolve (cwd base rel : string) : string :=
  let joined := resolveFrom [rel; base; cwd] "" in
  let normal := joinSlash (normalize (segments joined.1)) in
  if joined.2 then "/" +:+ normal
  else if String.eqb normal "" then "." else normal.

(** [path.dirname(path)] on POSIX: slashes at the end are skipped, then the
    last part, and the path ends before the slash in front of that part. *)
Definition posixDirname (path : string) : string :=
  match String.list_ascii_of_string path with
  | [] => "."
  | first :: rest =>
      match dropWhile (λ c, negb (isSlash c)) (dropWhile isSlash (rev rest)) with
      | [] => if isSlash first then "/" else "."
      | _ :: kept =>
          match kept with
          | [] => if isSlash first then "//" else String first EmptyString
          | _ => String.string_of_list_ascii (first :: rev kept)
          end
      end
  end.

(** The longest prefix without a character that satisfies [stop], and the
    rest. *)
Fixpoint takeUntil (stop : ascii → bool) (s : string) : string * string :=
  match s with
  | EmptyString => (EmptyString, EmptyString)
  | String c rest =>
      if stop c then (EmptyString, s)
      else let taken := takeUntil stop rest in (String c taken.1, taken.2)
  end.

(** [pathname.slice(0, pathname.lastIndexOf('/') + 1)]. *)
Definition cutAfterLastSlash (pathname : string) : string :=
  String.string_of_list_ascii
    (rev (dropWhile (λ c, negb (isSlash c)) (rev (String.list_ascii_of_string pathname)))).

Definition isQueryOrHash (c : ascii) : bool := Ascii.eqb c "?" || Ascii.eqb c "#".

(** What [baseDirOf] does with an http or https URL: the URL is parsed, its
    path is cut after the last slash, and the URL is printed again; query
    and fragment stay.  The URL is taken to be in the form the URL class
    prints (lower-case scheme and host, no default port, no dot segments,
    nothing to percent-encode), so that parsing and printing change only
    an empty path, which becomes [/]. *)
Definition urlDirectory (url : string) : string :=
  let scheme := if String.prefix "https://" url then "https://" else "http://" in
  let rest := String.substring (String.length scheme) (String.length url) url in
  let hostAndRest := takeUntil (λ c, isSlash c || isQueryOrHash c) rest in
  let pathAndRest := takeUntil isQueryOrHash hostAndRest.2 in
  let pathname := if String.eqb pathAndRest.1 "" then "/" else pathAndRest.1 in
  scheme +:+ hostAndRest.1 +:+ cutAfterLastSlash pathname +:+ pathAndRest.2.

End NodeApi.

(* ===================================================================== *)
(** ** Concrete documents and models used by examples                       *)
(* ===================================================================== *)

Module Examples.
Import Model Resolve.

(** The calculator scenario: message [AddInput] has one part that references
    element [AddRequest], whose fields are [a] and [b] of type [double]. *)
Definition addRequest : TypeDef :=
  mkTypeDef "AddRequest" KElement ""
    [mkField "a" "double" "1" "1" ""; mkField "b" "double" "1" "1" ""] [].

Definition calculator : Service :=
  mkService "Calculator" "http://example.com/calculator" ""
    [addRequest]
    [mkMessage "AddInput" [mkPart "p" "AddRequest" ""]]
    [] [] [].

(** A type whose only field has the type's own name as its type. *)
Definition selfType : TypeDef :=
  mkTypeDef "Self" KComplexType "" [mkField "child" "Self" "0" "1" ""] [].

Definition selfModel : Service :=
  mkService "" "" "" [selfType]
    [mkMessage "M" [mkPart "p" "" "Self"]] [] [] [].

(** Two declarations of one type name, as two merged schemas can produce. *)
Definition personV1 : TypeDef :=
  mkTypeDef "Person" KComplexType "" [mkField "name" "string" "1" "1" ""] [].
Definition personV2 : TypeDef :=
  mkTypeDef "Person" KComplexType "" [mkField "id" "int" "1" "1" ""] [].

Definition shadowed : Service :=
  mkService "" "" "" [personV1; personV2]
    [mkMessage "In" [mkPart "a" "Person" ""]; mkMessage "In" []] [] [] [].

(** [<wsdl:binding name='B' type='tns:PT'>
       <soap:binding transport='http://schemas.xmlsoap.org/soap/http'/>
     </wsdl:binding>]: the sub-descriptor has a transport and no style. *)
Definition soapHttp : string := "http://schemas.xmlsoap.org/soap/http".

Definition bindingNoStyle : node :=
  Elem {[ "name" := "B"; "type" := "tns:PT" ]}
       {[ "binding" := Arr [Elem {[ "transport" := soapHttp ]} ∅] ∅ ]}.

(** A binding node that itself carries [style] and [transport] attributes
    and has no sub-descriptor. *)
Definition bindingOuterOnly : node :=
  Elem {[ "name" := "B"; "style" := "rpc"; "transport" := soapHttp ]} ∅.

(** Two messages of one name inside a single imported document. *)
Definition msgDup1 : node := Elem {[ "name" := "Dup" ]} {[ "part" := Arr [Elem {[ "name" := "a" ]} ∅] ∅ ]}.
Definition msgDup2 : node := Elem {[ "name" := "Dup" ]} {[ "part" := Arr [Elem {[ "name" := "b" ]} ∅] ∅ ]}.
Definition defsWithDuplicates : node :=
  Elem {[ "name" := "Imported" ]} {[ "message" := Arr [msgDup1; msgDup2] ∅ ]}.
Definition defsEmpty : node := Elem {[ "name" := "Root" ]} ∅.

(** A destination and an incoming definitions node that share message [A]. *)
Definition msgA : node := Elem {[ "name" := "A" ]} ∅.
Definition msgA' : node := Elem {[ "name" := "A" ]} {[ "part" := Arr [Elem {[ "name" := "late" ]} ∅] ∅ ]}.
Definition msgB : node := Elem {[ "name" := "B" ]} ∅.
Definition defsDest : node := Elem ∅ {[ "message" := Arr [msgA] ∅ ]}.
Definition defsSrc : node := Elem ∅ {[ "message" := Arr [msgA'; msgB] ∅ ]}.

(** *** A small file system and parser, for running the loader *)

Definition obj (attrs : list (string * string)) (children : list (string * node)) : node :=
  Elem (list_to_map attrs) (list_to_map children).
Definition arrOf (items : list node) : node := Arr items ∅.

Fixpoint assoc {V} (table : list (string * V)) (key : string) : option V :=
  match table with
  | [] => None
  | (k, v) :: rest => if String.eqb k key then Some v else assoc rest key
  end.

(** A runtime given by tables: the files on disk, the answers of the HTTP
    server, and for each document text the tree each parser returns for it.
    A text without an entry parses to the empty object, which is what
    fast-xml-parser returns for the empty string.  Paths and URLs are
    handled as node:path and the URL class handle them; [cwd] is the working
    directory of the process.  A URL without an entry cannot be reached:
    [fetch] rejects with its [fetch failed] error. *)
Definition tableRuntime (cwd : string) (files : list (string * string))
    (http : list (string * http_response))
    (wsdlTrees xsdTrees : list (string * node)) : Runtime :=
  {| xml_parse_wsdl xml := Ok (default empty_obj (assoc wsdlTrees xml));
     xml_parse_xsd xml := Ok (default empty_obj (assoc xsdTrees xml));
     path_resolve baseDir loc := NodeApi.posixResolve cwd baseDir loc;
     path_dirname path := NodeApi.posixDirname path;
     url_directory url := NodeApi.urlDirectory url;
     http_fetch url :=
       default (HttpRejected (Thrown "fetch failed")) (assoc http url);
     read_file path :=
       match assoc files path with
       | Some body => Ok body
       | None => Err (Thrown ("ENOENT: no such file or directory, open '" +:+ path +:+ "'"))
       end |}.

(** [self.wsdl] imports itself. *)
Definition selfXml : string :=
  "<definitions name='Self'><import location='self.wsdl'/><message name='Ping'/></definitions>".
Definition selfTree : node :=
  obj [] [("definitions",
    obj [("name", "Self")]
        [("import", arrOf [obj [("location", "self.wsdl")] []]);
         ("message", arrOf [obj [("name", "Ping")] []])])].

(** The same document without the import. *)
Definition pingTree : node :=
  obj [] [("definitions",
    obj [("name", "Self")]
        [("message", arrOf [obj [("name", "Ping")] []])])].

(** A root that imports [b.xsd] directly and through [c.xsd]. *)
Definition diamondXml : string :=
  "<definitions name='Root'><types><schema><import schemaLocation='b.xsd'/><import schemaLocation='c.xsd'/><element name='RootReq'><complexType><sequence><element name='p' type='tns:Person'/></sequence></complexType></element></schema></types></definitions>".
Definition rootReqNode : node :=
  obj [("name", "RootReq")]
      [("complexType", arrOf [obj [] [("sequence", arrOf [obj []
          [("element", arrOf [obj [("name", "p"); ("type", "tns:Person")] []])]])]])].
Definition importB : node := obj [("schemaLocation", "b.xsd")] [].
Definition importC : node := obj [("schemaLocation", "c.xsd")] [].
Definition diamondSchema : node :=
  obj [] [("import", arrOf [importB; importC]); ("element", arrOf [rootReqNode])].
Definition diamondTree : node :=
  obj [] [("definitions",
    obj [("name", "Root")] [("types", obj [] [("schema", diamondSchema)])])].

Definition bXsd : string :=
  "<schema><element name='personId' type='xs:string'/><complexType name='Person'><sequence><element name='name' type='xs:string'/></sequence></complexType></schema>".
Definition personNode : node :=
  obj [("name", "Person")]
      [("sequence", arrOf [obj []
          [("element", arrOf [obj [("name", "name"); ("type", "xs:string")] []])]])].
Definition personIdNode : node := obj [("name", "personId"); ("type", "xs:string")] [].
Definition bSchema : node :=
  obj [] [("element", arrOf [personIdNode]); ("complexType", arrOf [personNode])].
Definition bTree : node := obj [] [("schema", bSchema)].

Definition cXsd : string :=
  "<schema><import schemaLocation='b.xsd'/><complexType name='Team'><sequence><element name='lead' type='Person'/></sequence></complexType></schema>".
Definition teamNode : node :=
  obj [("name", "Team")]
      [("sequence", arrOf [obj []
          [("element", arrOf [obj [("name", "lead"); ("type", "Person")] []])]])].
Definition cSchema : node :=
  obj [] [("import", arrOf [importB]); ("complexType", arrOf [teamNode])].
Definition cTree : node := obj [] [("schema", cSchema)].

(** The same diamond, with a root that declares a type [Person] of its own. *)
Definition diamond2Xml : string :=
  "<definitions name='Root2'><types><schema><import schemaLocation='b.xsd'/><import schemaLocation='c.xsd'/><complexType name='Person'><sequence><element name='alias' type='xs:string'/></sequence></complexType></schema></types></definitions>".
Definition rootPersonNode : node :=
  obj [("name", "Person")]
      [("sequence", arrOf [obj []
          [("element", arrOf [obj [("name", "alias"); ("type", "xs:string")] []])]])].
Definition diamond2Schema : node :=
  obj [] [("import", arrOf [importB; importC]); ("complexType", arrOf [rootPersonNode])].
Definition diamond2Tree : node :=
  obj [] [("definitions",
    obj [("name", "Root2")] [("types", obj [] [("schema", diamond2Schema)])])].

(** A root whose [types] element holds text only. *)
Definition textTypesXml : string := "<definitions><types>x</types></definitions>".
Definition textTypesTree : node :=
  obj [] [("definitions", obj [] [("types", Str "x")])].

(** Roots with a single schema import or document import of [target]. *)
Definition xsdImporterXml (target : string) : string :=
  "<definitions name='R'><types><schema><import schemaLocation='" +:+ target +:+ "'/></schema></types></definitions>".
Definition xsdImporterTree (target : string) : node :=
  obj [] [("definitions",
    obj [("name", "R")]
        [("types", obj [] [("schema",
            obj [] [("import", arrOf [obj [("schemaLocation", target)] []])])])])].

Definition wsdlImporterXml (target : string) : string :=
  "<definitions name='R'><import location='" +:+ target +:+ "'/></definitions>".
Definition wsdlImporterTree (target : string) : node :=
  obj [] [("definitions",
    obj [("name", "R")] [("import", arrOf [obj [("location", target)] []])])].

(** A document that is well-formed XML but no WSDL, and the empty file,
    which is not well-formed XML.  For the empty string the parser returns an
    object without children and does not throw: the test suite expects
    [parseWsdl('')] to throw the missing-definitions error of [parseWsdl]
    itself. *)
Definition notWsdlXml : string := "<notWsdl/>".
Definition notWsdlTree : node := obj [] [("notWsdl", Str "")].
Definition emptyFile : string := "".

Definition goneUrl : string := "http://example.com/gone.xsd".

Definition demoFiles : list (string * string) :=
  [("/ws/self.wsdl", selfXml); ("/ws/b.xsd", bXsd); ("/ws/c.xsd", cXsd);
   ("/ws/empty.xsd", emptyFile); ("/ws/empty.wsdl", emptyFile);
   ("/ws/bad.wsdl", notWsdlXml)].

Definition demo : Runtime :=
  tableRuntime "/ws" demoFiles
    [(goneUrl, HttpStatus "404")]
    [(selfXml, selfTree); (diamondXml, diamondTree); (diamond2Xml, diamond2Tree);
     (textTypesXml, textTypesTree);
     (xsdImporterXml "empty.xsd", xsdImporterTree "empty.xsd");
     (xsdImporterXml "missing.xsd", xsdImporterTree "missing.xsd");
     (xsdImporterXml goneUrl, xsdImporterTree goneUrl);
     (wsdlImporterXml "bad.wsdl", wsdlImporterTree "bad.wsdl");
     (wsdlImporterXml "empty.wsdl", wsdlImporterTree "empty.wsdl");
     (notWsdlXml, notWsdlTree)]
    [(bXsd, bTree); (cXsd, cTree); (notWsdlXml, notWsdlTree)].

Definition demoDocs : gset string := list_to_set (map fst demoFiles).

End Examples.

(* ===================================================================== *)
(** ** The array lists of the two parser configurations                    *)
(* ===================================================================== *)

Module ArrayTags.

(** parse.js, [isArrayTag]: the element names the parser of [parseWsdl]
    always yields as arrays. *)
Definition arrayElements : list string :=
  ["operation"; "message"; "part"; "portType"; "binding"; "service"; "port";
   "element"; "complexType"; "simpleType"; "enumeration";
   "sequence"; "all"; "choice";
   "import"; "include";
   "fault"; "input"; "output";
   "annotation"; "documentation"].

Definition isArrayTag (tagName jPath : string) (isLeaf isAttribute : bool) : bool :=
  if isAttribute then false
  else bool_decide (tagName ∈ arrayElements).

(** load.js, [isXsdArrayTag]: the same for the parser of [parseXsd]. *)
Definition xsdArrayElements : list string :=
  ["element"; "complexType"; "simpleType"; "enumeration";
   "sequence"; "all"; "choice"; "import"; "include";
   "annotation"; "documentation"].

Definition isXsdArrayTag (tagName jPath : string) (isLeaf isAttribute : bool) : bool :=
  if isAttribute then false
  else bool_decide (tagName ∈ xsdArrayElements).

(** The names only [isArrayTag] lists: the WSDL constructs. *)
Definition wsdlOnlyElements : list string :=
  ["operation"; "message"; "part"; "portType"; "binding"; "service"; "port";
   "fault"; "input"; "output"].

End ArrayTags.

(* ===================================================================== *)
(** ** render.js                                                           *)
(* ===================================================================== *)

Module Render.
Import Stdlib.Strings.Ascii Model.

(** The double quote, and the line break of the template literals. *)
Definition dquote : Ascii.ascii := Ascii.ascii_of_nat 34.
Definition nl : string := String (Ascii.ascii_of_nat 10) EmptyString.

(** An attribute value between double quotes, as the templates write it. *)
Definition q (value : string) : string :=
  String dquote value +:+ String dquote EmptyString.

(** A template literal, line by line. *)
Definition lines (ls : list string) : string := String.concat nl ls.

Definition CDN : string :=
  "https://cdn.jsdelivr.net/npm/@svmukhin/edible-css@latest/dist/edible.min.css".

(** [s.replace(/c/g, replacement)] for a one-character pattern.  A byte
    below 128 never occurs inside the encoding of another character, so on
    the bytes of the text this is the replacement JS does on its characters. *)
Fixpoint replaceAll (c : Ascii.ascii) (replacement : string) (s : string) : string :=
  match s with
  | EmptyString => EmptyString
  | String a rest =>
      if Ascii.eqb a c then replacement +:+ replaceAll c replacement rest
      else String a (replaceAll c replacement rest)
  end.

(** [esc(value)].  Every call in render.js passes a string of the model or
    the title, for which [String(value ?? '')] is the value itself. *)
Definition esc (value : string) : string :=
  replaceAll dquote "&quot;"
    (replaceAll ">"%char "&gt;"
       (replaceAll "<"%char "&lt;"
          (replaceAll "&"%char "&amp;" value))).

Definition doc (text : string) : string :=
  if String.eqb text "" then ""
  else "<blockquote><p>" +:+ esc text +:+ "</p></blockquote>".

(** [renderCss(inlineCss)]; [None] is an option that was not given. *)
Definition renderCss (inlineCss : option string) : string :=
  match inlineCss with
  | Some css =>
      if String.eqb css "" then "<link rel=" +:+ q "stylesheet" +:+ " href=" +:+ q CDN +:+ ">"
      else "<style>" +:+ css +:+ "</style>"
  | None => "<link rel=" +:+ q "stylesheet" +:+ " href=" +:+ q CDN +:+ ">"
  end.

Definition renderHeader (model : Service) : string :=
  lines
    [ "<header>";
      "<h1>" +:+ esc (name model) +:+ "</h1>";
      (if String.eqb (documentation model) "" then "" else doc (documentation model));
      "<p>Target namespace: <code>" +:+ esc (targetNamespace model) +:+ "</code></p>";
      "<nav>";
      "<ul>";
      "<li><a href=" +:+ q "#types" +:+ ">Types</a></li>";
      "<li><a href=" +:+ q "#messages" +:+ ">Messages</a></li>";
      "<li><a href=" +:+ q "#operations" +:+ ">Operations</a></li>";
      "<li><a href=" +:+ q "#bindings" +:+ ">Bindings</a></li>";
      "<li><a href=" +:+ q "#endpoints" +:+ ">Endpoints</a></li>";
      "</ul>";
      "</nav>";
      "</header>" ].

Definition renderFieldRow (f : Field) : string :=
  let required := negb (String.eqb (field_minOccurs f) "0") in
  let nameCel :=
    if required then "<mark>" +:+ esc (field_name f) +:+ "</mark>"
    else esc (field_name f) in
  "<tr><td>" +:+ nameCel +:+ "</td><td><code>" +:+ esc (field_type f)
  +:+ "</code></td><td>" +:+ esc (field_minOccurs f)
  +:+ "</td><td>" +:+ esc (field_maxOccurs f)
  +:+ "</td><td>" +:+ esc (field_documentation f) +:+ "</td></tr>".

Definition renderFieldTable (fields : list Field) : string :=
  match fields with
  | [] => "<p><em>No fields.</em></p>"
  | _ =>
      lines
        [ "<table>";
          "<thead><tr><th>Field</th><th>Type</th><th>Min</th><th>Max</th><th>Documentation</th></tr></thead>";
          "<tbody>" +:+ String.concat nl (map renderFieldRow fields) +:+ "</tbody>";
          "</table>" ]
  end.

Definition renderValue (v : string) : string :=
  "<li><code>" +:+ esc v +:+ "</code></li>".

Definition renderEnumerations (values : list string) : string :=
  match values with
  | [] => "<p><em>No values.</em></p>"
  | _ => "<ul>" +:+ String.concat "" (map renderValue values) +:+ "</ul>"
  end.

Definition renderType (type : TypeDef) : string :=
  let kindLabel :=
    match type_kind type with KSimpleType => "enum" | _ => "type" end in
  let body :=
    match type_kind type with
    | KSimpleType => renderEnumerations (type_enumerations type)
    | _ => renderFieldTable (type_fields type)
    end in
  lines
    [ "<details>";
      "<summary><strong>" +:+ esc (type_name type) +:+ "</strong> <small>"
        +:+ kindLabel +:+ "</small></summary>";
      doc (type_documentation type);
      body;
      "</details>" ].

Definition renderTypes (types : list TypeDef) : string :=
  let content :=
    match types with
    | [] => "<p><em>No types defined.</em></p>"
    | _ => String.concat nl (map renderType types)
    end in
  lines
    [ "<section id=" +:+ q "types" +:+ ">";
      "<h2>Types</h2>";
      content;
      "</section>" ].

Definition renderPart (p : Part) : string :=
  let ref := if String.eqb (part_element p) "" then part_type p else part_element p in
  "<dd><strong>" +:+ esc (part_name p) +:+ "</strong>: <code>" +:+ esc ref +:+ "</code>"
  +:+ (if String.eqb (part_element p) "" then " <small>(type)</small>"
       else " <small>(element)</small>")
  +:+ "</dd>".

Definition renderMessage (msg : Message) : string :=
  let parts := String.concat nl (map renderPart (message_parts msg)) in
  "<dt><strong>" +:+ esc (message_name msg) +:+ "</strong></dt>" +:+ nl +:+ parts.

Definition renderMessages (messages : list Message) : string :=
  let content :=
    match messages with
    | [] => "<p><em>No messages defined.</em></p>"
    | _ => String.concat nl (map renderMessage messages)
    end in
  lines
    [ "<section id=" +:+ q "messages" +:+ ">";
      "<h2>Messages</h2>";
      "<dl>";
      content;
      "</dl>";
      "</section>" ].

Definition renderFault (f : Fault) : string :=
  "<li><strong>" +:+ esc (fault_name f) +:+ "</strong>: <code>"
  +:+ esc (fault_message f) +:+ "</code></li>".

Definition renderOperation (op : Operation) : string :=
  let faultList :=
    match op_faults op with
    | [] => ""
    | _ => "<h4>Faults</h4><ul>"
           +:+ String.concat "" (map renderFault (op_faults op)) +:+ "</ul>"
    end in
  lines
    [ "<article id=" +:+ q ("op-" +:+ esc (op_name op)) +:+ ">";
      "<h3>" +:+ esc (op_name op) +:+ "</h3>";
      doc (op_documentation op);
      "<table>";
      "<thead><tr><th>Direction</th><th>Message</th></tr></thead>";
      "<tbody>";
      "<tr><td>Input</td><td><code>" +:+ esc (op_input op) +:+ "</code></td></tr>";
      "<tr><td>Output</td><td><code>" +:+ esc (op_output op) +:+ "</code></td></tr>";
      "</tbody>";
      "</table>";
      faultList;
      "</article>" ].

Definition renderOperations (operations : list Operation) : string :=
  let content :=
    match operations with
    | [] => "<p><em>No operations defined.</em></p>"
    | _ => String.concat nl (map renderOperation operations)
    end in
  lines
    [ "<section id=" +:+ q "operations" +:+ ">";
      "<h2>Operations</h2>";
      content;
      "</section>" ].

Definition renderBoundOperation (op : BoundOperation) : string :=
  "<tr><td>" +:+ esc (bop_name op) +:+ "</td><td><code>"
  +:+ esc (bop_soapAction op) +:+ "</code></td></tr>".

Definition renderBinding (b : Binding) : string :=
  let rows := String.concat nl (map renderBoundOperation (binding_operations b)) in
  lines
    [ "<details>";
      "<summary><strong>" +:+ esc (binding_name b) +:+ "</strong> <small>"
        +:+ esc (binding_protocol b) +:+ " · " +:+ esc (binding_style b)
        +:+ "</small></summary>";
      "<p>Type: <code>" +:+ esc (binding_type b) +:+ "</code> · Transport: <code>"
        +:+ esc (binding_transport b) +:+ "</code></p>";
      "<table>";
      "<thead><tr><th>Operation</th><th>SOAPAction</th></tr></thead>";
      "<tbody>" +:+ rows +:+ "</tbody>";
      "</table>";
      "</details>" ].

Definition renderBindings (bindings : list Binding) : string :=
  let content :=
    match bindings with
    | [] => "<p><em>No bindings defined.</em></p>"
    | _ => String.concat nl (map renderBinding bindings)
    end in
  lines
    [ "<section id=" +:+ q "bindings" +:+ ">";
      "<h2>Bindings</h2>";
      content;
      "</section>" ].

Definition renderEndpoint (ep : Endpoint) : string :=
  "<tr><td>" +:+ esc (endpoint_service ep) +:+ "</td><td>" +:+ esc (endpoint_port ep)
  +:+ "</td><td><code>" +:+ esc (endpoint_binding ep) +:+ "</code></td><td><code>"
  +:+ esc (endpoint_url ep) +:+ "</code></td></tr>".

Definition renderEndpoints (endpoints : list Endpoint) : string :=
  let content :=
    match endpoints with
    | [] => "<p><em>No endpoints defined.</em></p>"
    | _ =>
        lines
          [ "<table>";
            "<thead><tr><th>Service</th><th>Port</th><th>Binding</th><th>URL</th></tr></thead>";
            "<tbody>";
            String.concat nl (map renderEndpoint endpoints);
            "</tbody>";
            "</table>" ]
    end in
  lines
    [ "<section id=" +:+ q "endpoints" +:+ ">";
      "<h2>Endpoints</h2>";
      content;
      "</section>" ].

(** [renderHtml(model, options)].  [isoNow] is what
    [new Date().toISOString()] answers; [title] and [inlineCss] are the two
    options, [None] when not given. *)
Definition renderHtml (isoNow : string) (model : Service)
    (title inlineCss : option string) : string :=
  let title :=
    match title with
    | Some t => t
    | None => name model +:+ " – WSDL Reference"
    end in
  let date := String.substring 0 10 isoNow in
  lines
    [ "<!DOCTYPE html>";
      "<html lang=" +:+ q "en" +:+ ">";
      "<head>";
      "<meta charset=" +:+ q "UTF-8" +:+ ">";
      "<meta name=" +:+ q "viewport" +:+ " content="
        +:+ q "width=device-width, initial-scale=1.0" +:+ ">";
      "<title>" +:+ esc title +:+ "</title>";
      renderCss inlineCss;
      "</head>";
      "<body>";
      renderHeader model;
      "<main>";
      renderTypes (types model);
      renderMessages (messages model);
      renderOperations (operations model);
      renderBindings (bindings model);
      renderEndpoints (endpoints model);
      "</main>";
      "<footer>";
      "<p>Generated by <strong>comprehensible-wsdl</strong> on " +:+ date +:+ "</p>";
      "</footer>";
      "</body>";
      "</html>" ].

End Render.

(* ===================================================================== *)
(** ** Vocabulary for statements about pages, trees and traces             *)
(* ===================================================================== *)

Module RenderSpec.
Import Stdlib.Strings.Ascii Model Render.

(** The characters that delimit tags and attribute values. *)
Definition isMarkup (c : Ascii.ascii) : bool :=
  Ascii.eqb c "<"%char || Ascii.eqb c ">"%char || Ascii.eqb c dquote.

(** The markup characters of a text, in order. *)
Fixpoint markup (s : string) : string :=
  match s with
  | EmptyString => EmptyString
  | String a rest => if isMarkup a then String a (markup rest) else markup rest
  end.

(** What [esc] writes for one character. *)
Definition escChar (c : Ascii.ascii) : string :=
  if Ascii.eqb c "&"%char then "&amp;"
  else if Ascii.eqb c "<"%char then "&lt;"
  else if Ascii.eqb c ">"%char then "&gt;"
  else if Ascii.eqb c dquote then "&quot;"
  else String c EmptyString.

(** A model with every text blanked.  What is kept is what decides which
    template branches are taken: the lengths of all lists, the kind of each
    type, whether a documentation text is empty, and whether a field's
    [minOccurs] is ["0"]. *)
Definition blankText (s : string) : string :=
  if String.eqb s "" then "" else "x".

Definition blankMinOccurs (s : string) : string :=
  if String.eqb s "0" then "0" else "1".

Definition blankField (f : Field) : Field :=
  mkField "" "" (blankMinOccurs (field_minOccurs f)) "" "".

Definition blankType (t : TypeDef) : TypeDef :=
  mkTypeDef "" (type_kind t) (blankText (type_documentation t))
    (map blankField (type_fields t))
    (map (λ _, "") (type_enumerations t)).

Definition blankMessage (m : Message) : Message :=
  mkMessage "" (map (λ _, mkPart "" "" "") (message_parts m)).

Definition blankOperation (op : Operation) : Operation :=
  mkOperation "" (blankText (op_documentation op)) "" ""
    (map (λ _, mkFault "" "") (op_faults op)).

Definition blankBinding (b : Binding) : Binding :=
  mkBinding "" "" "" "" "" (map (λ _, mkBoundOperation "" "") (binding_operations b)).

Definition blank (model : Service) : Service :=
  mkService "" "" (blankText (documentation model))
    (map blankType (types model))
    (map blankMessage (messages model))
    (map blankOperation (operations model))
    (map blankBinding (bindings model))
    (map (λ _, mkEndpoint "" "" "" "") (endpoints model)).

End RenderSpec.

Module TreeSpec.
Import Util Load LoadSpec.

(** [n'] is [n] with items appended: under each of [keys] the list of [n]
    is a prefix of the list of [n'], and nothing else differs. *)
Definition appended (keys : list string) (n n' : node) : Prop :=
  truthy n' = truthy n ∧
  keeps keys n n' ∧
  ∀ key, key ∈ keys → arr (child key n) `prefix_of` arr (child key n').

(** A call that returned a tree has only appended to the tree it was given. *)
Definition okAppended (keys : list string) (n : node) (r : result node)
    (s' : state) : Prop :=
  match r with
  | Ok n' => appended keys n n'
  | Err _ => True
  end.

(** What a tree holds under a collection key, as every reader of the tree
    sees it. *)
Definition items (key : string) (n : node) : list node := arr (child key n).

(** The schema keys [extractTypes] reads. *)
Definition READ_TYPE_KEYS : list string := ["element"; "complexType"; "simpleType"].

(** The schema [buildModel] reads from a definitions node. *)
Definition modelSchema (defs : node) : node :=
  default empty_obj (child "types" defs ≫= child "schema").

(** A top-level element that wraps an inline complex type: its first
    [complexType] child is there and truthy. *)
Definition hasInlineComplexType (el : node) : bool :=
  match head (arr (child "complexType" el)) with
  | Some ct => truthy ct
  | None => false
  end.

End TreeSpec.

(* ===================================================================== *)
(** ** The import graph of a document, read off the documents              *)
(* ===================================================================== *)

Module ImportGraph.
Import Util Parse Load LoadSpec.


Section Graph.
Context (R : Runtime).









End Graph.

End ImportGraph.

(* ===================================================================== *)
(** ** More documents and models used by examples                          *)
(* ===================================================================== *)

Module Samples.
Import Stdlib.Strings.Ascii Model Resolve Examples.

(** *** A trim for texts of the first 128 characters *)

(** The white space and line terminators of JS below code 128: tab, line
    feed, vertical tab, form feed, carriage return and space. *)
Definition isSpace (c : ascii) : bool :=
  let n := nat_of_ascii c in
  Nat.leb 9 n && Nat.leb n 13 || Nat.eqb n 32.

Fixpoint trimStart (s : string) : string :=
  match s with
  | EmptyString => EmptyString
  | String a rest => if isSpace a then trimStart rest else s
  end.

Fixpoint trimEnd (s : string) : string :=
  match s with
  | EmptyString => EmptyString
  | String a rest =>
      match trimEnd rest with
      | EmptyString => if isSpace a then EmptyString else String a EmptyString
      | kept => String a kept
      end
  end.

Definition trimAscii (s : string) : string := trimEnd (trimStart s).

(** *** Nodes for the normaliser *)

(** [<complexType name='Pick'><sequence/><choice><element name='a'/>
     <element name='b'/></choice></complexType>]: an empty [sequence], which
    the parser delivers as the empty string, beside a [choice] of two. *)
Definition choiceOfTwo : node :=
  obj [] [("element", arrOf [obj [("name", "a")] []; obj [("name", "b")] []])].
Definition pickType : node :=
  obj [("name", "Pick")]
      [("sequence", arrOf [Str ""]); ("choice", arrOf [choiceOfTwo])].
Definition pickTypeBare : node :=
  obj [("name", "Pick")] [("sequence", arrOf [Str ""])].

(** A documented service with one message, and the same definitions with a
    document import, a [types] element whose schema declares a [group], and
    an attribute the normaliser does not read. *)
Definition plainDefs : node :=
  obj [("name", "Svc"); ("targetNamespace", "urn:svc")]
      [("documentation", arrOf [Str "A service."]);
       ("message", arrOf [obj [("name", "Ping")] []])].
Definition plainTree : node := obj [] [("definitions", plainDefs)].

Definition clutteredDefs : node :=
  obj [("name", "Svc"); ("targetNamespace", "urn:svc"); ("xmlns", "urn:wsdl")]
      [("documentation", arrOf [Str "A service."]);
       ("import", arrOf [obj [("location", "other.wsdl")] []]);
       ("types", obj [] [("schema", obj [] [("group", obj [("name", "g")] [])])]);
       ("message", arrOf [obj [("name", "Ping")] []])].
Definition clutteredTree : node := obj [] [("definitions", clutteredDefs)].

(** *** Models for the renderer *)

(** The calculator with every text replaced by one that carries markup. *)
Definition hostileCalculator : Service :=
  mkService "<script>alert(1)</script>" "urn:x>y" ""
    [mkTypeDef "</summary><b>" KElement ""
       [mkField "<a>" "<double>" "1" "</td>" "";
        mkField "b" "double" "<1>" "1" ""] []]
    [mkMessage "<dt>" [mkPart "<p>" "<AddRequest>" ""]]
    [] [] [].

(** The definitions node of a parsed document, and what [ensureSchema]
    returns for a definitions node. *)
Definition defsOf (tree : node) : node :=
  default empty_obj (child "definitions" tree).
Definition ensured (defs : node) : node * node :=
  match Load.ensureSchema defs with
  | Ok both => both
  | Err _ => (defs, empty_obj)
  end.

(** *** Documents in several directories *)

(** A root in [/ws] whose schema imports [sub/x.xsd]; [x.xsd] imports
    [y.xsd], which lies beside it in [/ws/sub]; another [y.xsd] lies in
    [/ws]. *)
Definition chainXml : string :=
  "<definitions name='Chain'><types><schema><import schemaLocation='sub/x.xsd'/><complexType name='A'/></schema></types></definitions>".
Definition chainSchema : node :=
  obj [] [("import", arrOf [obj [("schemaLocation", "sub/x.xsd")] []]);
          ("complexType", arrOf [obj [("name", "A")] []])].
Definition chainTree : node :=
  obj [] [("definitions",
    obj [("name", "Chain")] [("types", obj [] [("schema", chainSchema)])])].

Definition xXsd : string :=
  "<schema><import schemaLocation='y.xsd'/><complexType name='X'/></schema>".
Definition xSchema : node :=
  obj [] [("import", arrOf [obj [("schemaLocation", "y.xsd")] []]);
          ("complexType", arrOf [obj [("name", "X")] []])].

Definition yXsd : string := "<schema><complexType name='Y'/></schema>".
Definition ySchema : node := obj [] [("complexType", arrOf [obj [("name", "Y")] []])].

Definition decoyXsd : string := "<schema><complexType name='Decoy'/></schema>".
Definition decoySchema : node :=
  obj [] [("complexType", arrOf [obj [("name", "Decoy")] []])].

(** A root in [/ws] that imports the document [svc/x.wsdl]; that document
    imports [y.wsdl], which lies beside it.  The root declares message [A];
    [x.wsdl] declares [A] again and [B]; [y.wsdl] declares [B] again and
    [C]. *)
Definition msg (name part : string) : node :=
  obj [("name", name)] [("part", arrOf [obj [("name", part)] []])].

Definition rootWsdlXml : string :=
  "<definitions name='Root'><import location='svc/x.wsdl'/><message name='A'><part name='root'/></message></definitions>".
Definition rootWsdlTree : node :=
  obj [] [("definitions",
    obj [("name", "Root")]
        [("import", arrOf [obj [("location", "svc/x.wsdl")] []]);
         ("message", arrOf [msg "A" "root"])])].

Definition xWsdlXml : string :=
  "<definitions name='X'><import location='y.wsdl'/><message name='A'><part name='x'/></message><message name='B'><part name='x'/></message></definitions>".
Definition xWsdlTree : node :=
  obj [] [("definitions",
    obj [("name", "X")]
        [("import", arrOf [obj [("location", "y.wsdl")] []]);
         ("message", arrOf [msg "A" "x"; msg "B" "x"])])].

Definition yWsdlXml : string :=
  "<definitions name='Y'><message name='B'><part name='y'/></message><message name='C'><part name='y'/></message></definitions>".
Definition yWsdlTree : node :=
  obj [] [("definitions",
    obj [("name", "Y")] [("message", arrOf [msg "B" "y"; msg "C" "y"])])].

(** A document that imports nothing. *)
Definition plainXml : string :=
  "<definitions name='Svc' targetNamespace='urn:svc'><documentation>A service.</documentation><message name='Ping'/></definitions>".

(** A root whose schema imports [both.wsdl] and which then imports the same
    file as a document; and what the schema parser, which does not force
    [message] to an array, returns for that file. *)
Definition twiceXml : string :=
  "<definitions name='Twice'><types><schema><import schemaLocation='both.wsdl'/></schema></types><import location='both.wsdl'/><message name='Own'/></definitions>".
Definition twiceTree : node :=
  obj [] [("definitions",
    obj [("name", "Twice")]
        [("types", obj [] [("schema",
            obj [] [("import", arrOf [obj [("schemaLocation", "both.wsdl")] []])])]);
         ("import", arrOf [obj [("location", "both.wsdl")] []]);
         ("message", arrOf [obj [("name", "Own")] []])])].

Definition bothXml : string :=
  "<definitions name='Both'><types><schema><complexType name='T'/></schema></types><message name='Theirs'/></definitions>".
Definition bothTree : node :=
  obj [] [("definitions",
    obj [("name", "Both")]
        [("types", obj [] [("schema",
            obj [] [("complexType", arrOf [obj [("name", "T")] []])])]);
         ("message", arrOf [obj [("name", "Theirs")] []])])].

Definition bothXsdTree : node :=
  obj [] [("definitions",
    obj [("name", "Both")]
        [("types", obj [] [("schema",
            obj [] [("complexType", arrOf [obj [("name", "T")] []])])]);
         ("message", obj [("name", "Theirs")] [])])].

(** A root whose schema imports [sub/x2.xsd]; that file imports
    [gone.xsd], which does not exist. *)
Definition brokenChainXml : string := xsdImporterXml "sub/x2.xsd".
Definition brokenChainTree : node := xsdImporterTree "sub/x2.xsd".

Definition x2Xsd : string :=
  "<schema><import schemaLocation='gone.xsd'/><complexType name='X2'/></schema>".
Definition x2Schema : node :=
  obj [] [("import", arrOf [obj [("schemaLocation", "gone.xsd")] []]);
          ("complexType", arrOf [obj [("name", "X2")] []])].

(** A root whose schema imports [both2.wsdl] and which then imports the
    same file as a document; [both2.wsdl] imports the document
    [missing.wsdl], which does not exist. *)
Definition hiddenXml : string :=
  "<definitions name='Hidden'><types><schema><import schemaLocation='both2.wsdl'/></schema></types><import location='both2.wsdl'/></definitions>".
Definition hiddenTree : node :=
  obj [] [("definitions",
    obj [("name", "Hidden")]
        [("types", obj [] [("schema",
            obj [] [("import", arrOf [obj [("schemaLocation", "both2.wsdl")] []])])]);
         ("import", arrOf [obj [("location", "both2.wsdl")] []])])].

Definition both2Xml : string :=
  "<definitions name='Both2'><import location='missing.wsdl'/><types><schema><complexType name='T2'/></schema></types></definitions>".
Definition both2Tree : node :=
  obj [] [("definitions",
    obj [("name", "Both2")]
        [("import", arrOf [obj [("location", "missing.wsdl")] []]);
         ("types", obj [] [("schema",
            obj [] [("complexType", arrOf [obj [("name", "T2")] []])])])])].

(** A host that cannot be reached. *)
Definition unreachableUrl : string := "http://unreachable.example/x.xsd".

Definition siteFiles : list (string * string) :=
  [("/ws/sub/x.xsd", xXsd); ("/ws/sub/y.xsd", yXsd); ("/ws/y.xsd", decoyXsd);
   ("/ws/svc/x.wsdl", xWsdlXml); ("/ws/svc/y.wsdl", yWsdlXml);
   ("/ws/both.wsdl", bothXml); ("/ws/sub/x2.xsd", x2Xsd);
   ("/ws/both2.wsdl", both2Xml)].

(** The files above, in a process that runs in [/ws] and reaches no HTTP
    server. *)
Definition site : Runtime :=
  tableRuntime "/ws" siteFiles []
    [(chainXml, chainTree); (rootWsdlXml, rootWsdlTree); (xWsdlXml, xWsdlTree);
     (yWsdlXml, yWsdlTree); (plainXml, plainTree); (twiceXml, twiceTree);
     (bothXml, bothTree); (brokenChainXml, brokenChainTree);
     (hiddenXml, hiddenTree); (both2Xml, both2Tree);
     (xsdImporterXml unreachableUrl, xsdImporterTree unreachableUrl)]
    [(xXsd, obj [] [("schema", xSchema)]); (yXsd, obj [] [("schema", ySchema)]);
     (decoyXsd, obj [] [("schema", decoySchema)]); (bothXml, bothXsdTree);
     (x2Xsd, obj [] [("schema", x2Schema)]); (both2Xml, both2Tree)].


End Samples.

(* ===================================================================== *)
(** ** Properties of the tree normaliser                                   *)
(* ===================================================================== *)

Module ModelProofs.
Import Util Model.

(** C9 (as amended). A binding's style and transport are those of its first
    nested [binding] child, the protocol sub-descriptor: the style defaults
    to ["document"] and the transport to the empty string, each when the
    sub-descriptor omits that attribute; when there is no sub-descriptor both
    defaults apply; and the attributes of the outer binding node never
    matter. *)
Theorem extractBinding_reads_sub_descriptor :
  (∀ b sub, head (arr (child "binding" b)) = Some sub →
     binding_style (extractBinding b) = default "document" (attr "style" sub) ∧
     binding_transport (extractBinding b) = default "" (attr "transport" sub)) ∧
  (∀ b, head (arr (child "binding" b)) = None →
     binding_style (extractBinding b) = "document" ∧
     binding_transport (extractBinding b) = "") ∧
  (∀ attrs attrs' children,
     binding_style (extractBinding (Elem attrs children))
       = binding_style (extractBinding (Elem attrs' children)) ∧
     binding_transport (extractBinding (Elem attrs children))
       = binding_transport (extractBinding (Elem attrs' children))).
Proof.
  unfold extractBinding, soapBindingOf, orElse; simpl.
  split; [|split].
  - by intros b sub ->.
  - by intros b ->.
  - done.
Qed.

(** A sub-descriptor with a transport and no style: the style is the
    default, the transport is the sub-descriptor's. *)
Lemma extractBinding_reads_sub_descriptor_witness :
  binding_style (extractBinding Examples.bindingNoStyle) = "document" ∧
  binding_transport (extractBinding Examples.bindingNoStyle) = Examples.soapHttp.
Proof.
  destruct (proj1 extractBinding_reads_sub_descriptor Examples.bindingNoStyle
              (Elem {[ "transport" := Examples.soapHttp ]} ∅)) as [Hstyle Htransport];
    [vm_compute; reflexivity|].
  rewrite Hstyle, Htransport. vm_compute. split; reflexivity.
Defined.

(** An outer node with [style='rpc'] and a transport, and no sub-descriptor:
    the defaults are used. *)
Example extractBinding_ignores_outer_node :
  binding_style (extractBinding Examples.bindingOuterOnly) = "document" ∧
  binding_transport (extractBinding Examples.bindingOuterOnly) = "".
Proof. split; vm_compute; reflexivity. Qed.

(** C9 (as stated) fails: the sub-descriptor omits [style] and the style is
    ["document"], yet the transport is the sub-descriptor's, not the empty
    string. *)
Lemma extractBinding_transport_counterexample :
  attr "style" (soapBindingOf Examples.bindingNoStyle) = None ∧
  binding_style (extractBinding Examples.bindingNoStyle) = "document" ∧
  binding_transport (extractBinding Examples.bindingNoStyle)
    = "http://schemas.xmlsoap.org/soap/http" ∧
  String.eqb (binding_transport (extractBinding Examples.bindingNoStyle)) "" = false.
Proof. repeat split; vm_compute; reflexivity. Qed.

End ModelProofs.

(* ===================================================================== *)
(** ** Properties of the reference index and resolver                      *)
(* ===================================================================== *)

Module ResolveProofs.
Import Model Resolve.

Lemma newMap_snoc {V} (entries : list (string * V)) k v :
  newMap (entries ++ [(k, v)]) = <[k := v]> (newMap entries).
Proof. unfold newMap. by rewrite foldl_app. Qed.

Lemma foldl_insert_other {V} (entries : list (string * V)) (m : gmap string V) k :
  (∀ kv, kv ∈ entries → kv.1 ≠ k) →
  foldl (λ m kv, <[kv.1 := kv.2]> m) m entries !! k = m !! k.
Proof.
  revert m. induction entries as [|[k' v'] entries IH]; intros m Hne; [done|].
  simpl. rewrite IH.
  - apply lookup_insert_ne. apply (Hne (k', v')). left.
  - intros kv Hin. apply Hne. by right.
Qed.

(** The last entry with a given key is the one the map holds. *)
Lemma newMap_last {V} (before after : list (string * V)) k v :
  (∀ kv, kv ∈ after → kv.1 ≠ k) →
  newMap (before ++ (k, v) :: after) !! k = Some v.
Proof.
  intros Hne. unfold newMap.
  rewrite foldl_app. simpl.
  rewrite foldl_insert_other by done.
  apply lookup_insert_eq.
Qed.

(** C7. [resolveMessageFields]: an unknown message name gives the empty
    sequence; a known one gives one descriptor per part, in part order, whose
    [typeName] is the part's element reference when that is non-empty and its
    type reference otherwise, and whose fields and enumerations are those of
    the type the index holds under [typeName], or empty when it holds none. *)
Theorem resolveMessageFields_spec (index : Index) (messageName : string) :
  (messageByName index !! messageName = None →
     resolveMessageFields messageName index = []) ∧
  (∀ message, messageByName index !! messageName = Some message →
     length (resolveMessageFields messageName index) = length (message_parts message) ∧
     ∀ i part, message_parts message !! i = Some part →
       ∃ d, resolveMessageFields messageName index !! i = Some d ∧
            partName d = part_name part ∧
            typeName d = (if String.eqb (part_element part) ""
                          then part_type part else part_element part) ∧
            (∀ t, typeByName index !! typeName d = Some t →
                  fields d = type_fields t ∧ enumerations d = type_enumerations t) ∧
            (typeByName index !! typeName d = None →
                  fields d = [] ∧ enumerations d = [])).
Proof.
  unfold resolveMessageFields. split.
  - by intros ->.
  - intros message ->. split; [by rewrite length_map|].
    intros i part Hpart.
    exists (resolvePart index part). split.
    + by rewrite list_lookup_fmap, Hpart.
    + unfold resolvePart, refNameOf; simpl.
      split; [done|]. split; [done|]. split.
      * by intros t ->.
      * by intros ->.
Qed.

(** The calculator scenario: one descriptor for the one part of [AddInput],
    and the empty sequence for a name that is not indexed. *)
Lemma resolveMessageFields_spec_witness :
  length (resolveMessageFields "AddInput" (buildIndex Examples.calculator)) = 1 ∧
  resolveMessageFields "NoSuchMessage" (buildIndex Examples.calculator) = [].
Proof.
  split.
  - destruct (proj2 (resolveMessageFields_spec (buildIndex Examples.calculator) "AddInput")
                (mkMessage "AddInput" [mkPart "p" "AddRequest" ""]))
      as [Hlen _]; [vm_compute; reflexivity|].
    rewrite Hlen. reflexivity.
  - apply (proj1 (resolveMessageFields_spec (buildIndex Examples.calculator)
                    "NoSuchMessage")).
    vm_compute. reflexivity.
Defined.

(** The scenario of the specification, computed. *)
Example resolveMessageFields_AddInput :
  resolveMessageFields "AddInput" (buildIndex Examples.calculator)
  = [ {| partName := "p"; typeName := "AddRequest";
         fields := [mkField "a" "double" "1" "1" ""; mkField "b" "double" "1" "1" ""];
         enumerations := [] |} ].
Proof. vm_compute. reflexivity. Qed.

Example resolveMessageFields_unknown_message :
  resolveMessageFields "NoSuchMessage" (buildIndex Examples.calculator) = [].
Proof. vm_compute. reflexivity. Qed.

(** C8. One level of lookup only.  For a part whose referenced type is in
    the index, the descriptor holds exactly that type's own field list,
    whatever the fields' own type names are (the type's own name included);
    and the result does not depend on any index entry other than the message
    and the types its parts name directly, so no type is reached through a
    field. *)
Theorem resolveMessageFields_one_level (index : Index) (messageName : string)
    (message : Message) :
  messageByName index !! messageName = Some message →
  (∀ i part t, message_parts message !! i = Some part →
     typeByName index !! refNameOf part = Some t →
     ∃ d, resolveMessageFields messageName index !! i = Some d ∧
          typeName d = refNameOf part ∧
          fields d = type_fields t) ∧
  (∀ index', messageByName index' !! messageName = Some message →
     (∀ part, part ∈ message_parts message →
        typeByName index' !! refNameOf part = typeByName index !! refNameOf part) →
     resolveMessageFields messageName index' = resolveMessageFields messageName index).
Proof.
  intros Hmsg. unfold resolveMessageFields. rewrite Hmsg. split.
  - intros i part t Hpart Ht.
    exists (resolvePart index part). split; [by rewrite list_lookup_fmap, Hpart|].
    unfold resolvePart; simpl. by rewrite Ht.
  - intros index' -> Hsame.
    apply map_ext_in. intros part Hin.
    unfold resolvePart. rewrite Hsame; [done|].
    by apply list_elem_of_In.
Qed.

(** The self-referential type of the test suite: the descriptor is the
    type's own single field, whose type name is again [Self]. *)
Lemma resolveMessageFields_one_level_witness :
  ∃ d, resolveMessageFields "M" (buildIndex Examples.selfModel) !! 0 = Some d ∧
       typeName d = "Self" ∧
       fields d = [mkField "child" "Self" "0" "1" ""].
Proof.
  refine (proj1 (resolveMessageFields_one_level (buildIndex Examples.selfModel) "M"
                   (mkMessage "M" [mkPart "p" "" "Self"]) _)
            0 (mkPart "p" "" "Self") Examples.selfType _ _);
    vm_compute; reflexivity.
Defined.

(** C10. [buildIndex] keeps, for a name that several entries share, the last
    entry in array order; the same holds for messages. *)
Theorem buildIndex_last_wins (model : Service) :
  (∀ before t after, types model = before ++ t :: after →
     (∀ t', t' ∈ after → type_name t' ≠ type_name t) →
     typeByName (buildIndex model) !! type_name t = Some t) ∧
  (∀ before m after, messages model = before ++ m :: after →
     (∀ m', m' ∈ after → message_name m' ≠ message_name m) →
     messageByName (buildIndex model) !! message_name m = Some m).
Proof.
  split.
  - intros before t after Heq Hlast. unfold buildIndex; simpl.
    rewrite Heq, map_app. simpl.
    apply newMap_last.
    intros kv [t' [-> Hin]]%list_elem_of_fmap. simpl. by apply Hlast.
  - intros before m after Heq Hlast. unfold buildIndex; simpl.
    rewrite Heq, map_app. simpl.
    apply newMap_last.
    intros kv [m' [-> Hin]]%list_elem_of_fmap. simpl. by apply Hlast.
Qed.

(** Two types named [Person]: the index holds the second. *)
Lemma buildIndex_last_wins_witness :
  typeByName (buildIndex Examples.shadowed) !! "Person" = Some Examples.personV2.
Proof.
  apply (proj1 (buildIndex_last_wins Examples.shadowed)
           [Examples.personV1] Examples.personV2 []).
  - reflexivity.
  - intros t' Hin. by apply not_elem_of_nil in Hin.
Defined.

(** Two [Person] types and two [In] messages: the later ones are indexed. *)
Example buildIndex_shadowing :
  typeByName (buildIndex Examples.shadowed) !! "Person" = Some Examples.personV2 ∧
  messageByName (buildIndex Examples.shadowed) !! "In" = Some (mkMessage "In" []).
Proof. split; vm_compute; reflexivity. Qed.

End ResolveProofs.

(* ===================================================================== *)
(** ** Reasoning rules for loader calls                                    *)
(* ===================================================================== *)

Module LoadRules.
Import Util Load LoadSpec.

Section Rules.
Context {A : Type} (total : bool).

Lemma wp_ret (a : A) s (Q : result A → state → Prop) :
  Q (Ok a) s → wp total (ret a) s Q.
Proof. done. Qed.

Lemma wp_throw (e : error) s (Q : result A → state → Prop) :
  Q (Err e) s → wp total (throw e) s Q.
Proof. done. Qed.

Lemma wp_lift (r : result A) s (Q : result A → state → Prop) :
  Q r s → wp total (lift r) s Q.
Proof. by destruct r. Qed.

Lemma wp_mono (c : M A) s (Q Q' : result A → state → Prop) :
  (∀ r s', Q r s' → Q' r s') → wp total c s Q → wp total c s Q'.
Proof.
  unfold wp. intros HQ. destruct (c s) as [[r s']|]; [apply HQ | done].
Qed.

Lemma wp_bind {B} (c : M B) (k : B → M A) s (Q : result A → state → Prop) :
  wp total c s (λ r s', match r with
                        | Ok b => wp total (k b) s' Q
                        | Err e => Q (Err e) s'
                        end) →
  wp total (bind c k) s Q.
Proof.
  unfold wp, bind. destruct (c s) as [[[b|e] s']|]; done.
Qed.

Lemma wp_forEach {B} (body : A → B → M A)
    (I : list B → A → state → Prop) (Q : result A → state → Prop) :
  (∀ item rest acc s,
     I (item :: rest) acc s →
     wp total (body acc item) s
        (λ r s', match r with
                 | Ok acc' => I rest acc' s'
                 | Err e => Q (Err e) s'
                 end)) →
  (∀ acc s, I [] acc s → Q (Ok acc) s) →
  ∀ items acc s, I items acc s → wp total (forEach body items acc) s Q.
Proof.
  intros Hbody Hend items.
  induction items as [|item rest IH]; intros acc s HI; simpl.
  - apply wp_ret. by apply Hend.
  - apply wp_bind. eapply wp_mono; [|by apply Hbody].
    intros [acc'|e] s' H; [by apply IH | done].
Qed.
End Rules.

Lemma wp_hasVisited total absLoc s (Q : result bool → state → Prop) :
  Q (Ok (bool_decide (absLoc ∈ visited s))) s → wp total (hasVisited absLoc) s Q.
Proof. done. Qed.

Lemma wp_addVisited total absLoc s (Q : result unit → state → Prop) :
  Q (Ok tt) {| visited := {[absLoc]} ∪ visited s; trace := trace s |} →
  wp total (addVisited absLoc) s Q.
Proof. done. Qed.

Lemma wp_emit total e s (Q : result unit → state → Prop) :
  Q (Ok tt) {| visited := visited s; trace := trace s ++ [e] |} →
  wp total (emit e) s Q.
Proof. done. Qed.

(** [fetchSource] after [visited.add]: the state is [opened]. *)
Lemma wp_visit_fetch total R kind absLoc s (Q : result string → state → Prop) :
  Q (fetchBody R absLoc) (opened s kind absLoc) →
  wp total (fetchSource R kind absLoc)
     {| visited := {[absLoc]} ∪ visited s; trace := trace s |} Q.
Proof.
  intros HQ. unfold fetchSource. apply wp_bind, wp_emit. simpl.
  by apply wp_lift.
Qed.

End LoadRules.

(* ===================================================================== *)
(** ** What every run satisfies                                            *)
(* ===================================================================== *)

Module LoadRuns.
Import Util Parse Load LoadSpec LoadRules.

Lemma elem_of_fetchedLocs absLoc (t : list event) :
  absLoc ∈ fetchedLocs t ↔ ∃ kind, Fetched kind absLoc ∈ t.
Proof.
  unfold fetchedLocs. rewrite list_elem_of_omap. split.
  - intros [[k l|l] [Hin Heq]]; simplify_eq. by exists k.
  - intros [k Hin]. by exists (Fetched k absLoc).
Qed.

Lemma elem_of_mergedLocs absLoc (t : list event) :
  absLoc ∈ mergedLocs t ↔ Merged absLoc ∈ t.
Proof.
  unfold mergedLocs. rewrite list_elem_of_omap. split.
  - intros [[k l|l] [Hin Heq]]; by simplify_eq.
  - intros Hin. by exists (Merged absLoc).
Qed.

Lemma fetchedLocs_app t1 t2 :
  fetchedLocs (t1 ++ t2) = fetchedLocs t1 ++ fetchedLocs t2.
Proof. apply omap_app. Qed.

Lemma mergedLocs_app t1 t2 :
  mergedLocs (t1 ++ t2) = mergedLocs t1 ++ mergedLocs t2.
Proof. apply omap_app. Qed.

Section Extends.
Context (R : Runtime).

Lemma extends_refl {A} s (r : result A) : extends R s r s.
Proof.
  split; [done|]. exists []. rewrite app_nil_r.
  split; [done|]. split; [intros e He; by apply not_elem_of_nil in He|].
  split; [by left|]. split; [constructor|]. split; [constructor|].
  intros kind absLoc He. by apply not_elem_of_nil in He.
Qed.

(** A failed or rejected document is fatal for any later result as well,
    once the run that fetched it returned normally. *)
Lemma fatalAt_after_ok {A B} kind absLoc (a : A) (r : result B) :
  fatalAt R kind absLoc (Ok a) → fatalAt R kind absLoc r.
Proof.
  unfold fatalAt. destruct (fetchBody R absLoc) as [body|e]; [|done].
  destruct kind; intros H e He; by specialize (H e He).
Qed.

Lemma fatalAt_err {A B} kind absLoc e :
  fatalAt R kind absLoc (Err e : result A) →
  fatalAt R kind absLoc (Err e : result B).
Proof.
  unfold fatalAt. destruct (fetchBody R absLoc) as [body|e']; [|congruence].
  destruct kind; intros H e1 He1; specialize (H e1 He1); congruence.
Qed.

Lemma extends_trans {A B} s (a : A) s1 (r : result B) s2 :
  extends R s (Ok a) s1 → extends R s1 r s2 → extends R s r s2.
Proof.
  intros [Hv1 (new1 & Ht1 & Hf1 & Hb1 & Hd1 & Hm1 & Hx1)]
         [Hv2 (new2 & Ht2 & Hf2 & Hb2 & Hd2 & Hm2 & Hx2)].
  split; [set_solver|].
  exists (new1 ++ new2). split; [by rewrite Ht2, Ht1, app_assoc|].
  split; [|split; [|split; [|split]]].
  - intros e [Hin|Hin]%elem_of_app.
    + destruct (Hf1 e Hin). set_solver.
    + destruct (Hf2 e Hin). set_solver.
  - intros absLoc Hin. rewrite fetchedLocs_app, elem_of_app.
    destruct (Hb2 _ Hin) as [Hin1|Hin2]; [|by right; right].
    destruct (Hb1 _ Hin1); [by left | by right; left].
  - rewrite fetchedLocs_app. apply NoDup_app. split; [done|]. split; [|done].
    intros x [k1 Hin1]%elem_of_fetchedLocs [k2 Hin2]%elem_of_fetchedLocs.
    destruct (Hf1 _ Hin1) as [Hx _]. destruct (Hf2 _ Hin2) as [_ Hy]. done.
  - rewrite mergedLocs_app. apply NoDup_app. split; [done|]. split; [|done].
    intros x Hin1%elem_of_mergedLocs Hin2%elem_of_mergedLocs.
    destruct (Hf1 _ Hin1) as [Hx _]. destruct (Hf2 _ Hin2) as [_ Hy]. done.
  - intros kind absLoc [Hin|Hin]%elem_of_app.
    + eapply fatalAt_after_ok. by apply Hx1.
    + by apply Hx2.
Qed.

Lemma extends_err {A B} s e s' :
  extends R s (Err e : result A) s' → extends R s (Err e : result B) s'.
Proof.
  intros [Hv (new & Ht & Hf & Hb & Hd & Hm & Hx)].
  split; [done|]. exists new. do 5 (split; [done|]).
  intros kind absLoc Hin. eapply fatalAt_err. by apply Hx.
Qed.

(** The shape of one visit: from a state where [absLoc] is unvisited, the
    location is opened, an inner run [s1 → s2] follows, and the merge may be
    recorded; the whole is again a well-formed run, provided its result
    respects the inner failures and the outcome of fetching [absLoc]. *)
Lemma extends_visit {A B} s kind absLoc (r1 : result A) s2 (r : result B)
    (merged : bool) :
  absLoc ∉ visited s →
  extends R (opened s kind absLoc) r1 s2 →
  (∀ e, r1 = Err e → r = Err e) →
  fatalAt R kind absLoc r →
  extends R s r (if merged then closed s2 absLoc else s2).
Proof.
  intros Hfresh [Hv (new & Ht & Hf & Hb & Hd & Hm & Hx)] Hr Hfatal.
  assert (Hnew : ∀ e, e ∈ new → eventLoc e ≠ absLoc).
  { intros e Hin Heq. destruct (Hf _ Hin) as [_ Hn]. apply Hn.
    rewrite Heq. simpl. set_solver. }
  assert (Hv2 : visited (if merged then closed s2 absLoc else s2) = visited s2)
    by by destruct merged.
  split; [rewrite Hv2; simpl in Hv; set_solver|].
  exists ([Fetched kind absLoc] ++ new ++ (if merged then [Merged absLoc] else [])).
  split.
  { destruct merged; simpl; rewrite Ht; simpl;
      rewrite <- ?app_assoc; simpl; by rewrite ?app_nil_r. }
  split; [|split; [|split; [|split]]].
  - rewrite Hv2. intros e Hin.
    assert (eventLoc e = absLoc ∨ e ∈ new) as [Heq|Hin'].
    { apply elem_of_app in Hin as [Hin|Hin].
      - apply list_elem_of_singleton in Hin as ->. by left.
      - apply elem_of_app in Hin as [Hin|Hin]; [by right|].
        destruct merged; [|by apply not_elem_of_nil in Hin].
        apply list_elem_of_singleton in Hin as ->. by left. }
    + rewrite Heq. split; [simpl in Hv; set_solver | done].
    + destruct (Hf _ Hin') as [H1 H2]. split; [done|]. simpl in H2. set_solver.
  - rewrite Hv2. intros x Hin. rewrite !fetchedLocs_app. simpl.
    destruct (Hb _ Hin) as [Hin1|Hin2].
    + simpl in Hin1. apply elem_of_union in Hin1 as [->%elem_of_singleton|Hin1];
        [right; by left | by left].
    + right. right. apply elem_of_app. by left.
  - rewrite !fetchedLocs_app. simpl.
    assert (fetchedLocs (if merged then [Merged absLoc] else []) = []) as ->
      by by destruct merged.
    rewrite app_nil_r. constructor; [|done].
    intros [k Hin]%elem_of_fetchedLocs. by apply (Hnew _ Hin).
  - rewrite !mergedLocs_app. simpl.
    destruct merged; simpl; [|by rewrite app_nil_r].
    apply NoDup_app. split; [done|]. split; [|apply NoDup_singleton].
    intros x Hin%elem_of_mergedLocs ->%list_elem_of_singleton.
    by apply (Hnew _ Hin).
  - intros k l Hin.
    apply elem_of_app in Hin as [Hin|Hin].
    { apply list_elem_of_singleton in Hin. by simplify_eq. }
    apply elem_of_app in Hin as [Hin|Hin].
    + specialize (Hx _ _ Hin).
      destruct r1 as [a|e].
      * by eapply fatalAt_after_ok.
      * rewrite (Hr e eq_refl). by eapply fatalAt_err.
    + destruct merged; [|by apply not_elem_of_nil in Hin].
      apply list_elem_of_singleton in Hin. discriminate.
Qed.

Lemma extends_opened {A} s kind absLoc (r : result A) :
  absLoc ∉ visited s →
  fatalAt R kind absLoc r →
  extends R s r (opened s kind absLoc).
Proof.
  intros Hfresh Hfatal.
  apply (extends_visit s kind absLoc (Ok tt) (opened s kind absLoc) r false);
    [done | apply extends_refl | done | done].
Qed.

End Extends.

End LoadRuns.

(* ===================================================================== *)
(** ** Termination and the shape of the trace                              *)
(* ===================================================================== *)

Module LoadTermination.
Import Util Parse Load LoadSpec LoadRules LoadRuns.

Section Runs.
Context (R : Runtime) (total : bool) (docs : gset string).
Hypothesis docs_known :
  total = true → ∀ absLoc body, fetchBody R absLoc = Ok body → absLoc ∈ docs.

Lemma unvisited_mono s s' :
  visited s ⊆ visited s' → unvisited docs s' ≤ unvisited docs s.
Proof. intros H. apply subseteq_size. set_solver. Qed.

Lemma unvisited_opened s kind absLoc :
  absLoc ∈ docs → absLoc ∉ visited s →
  unvisited docs (opened s kind absLoc) < unvisited docs s.
Proof.
  intros Hin Hfresh. apply subset_size. simpl.
  apply strict_spec_alt. split; [set_solver|].
  intros Heq. assert (absLoc ∈ docs ∖ visited s) as Hx by set_solver.
  rewrite <- Heq in Hx. set_solver.
Qed.

Local Abbreviation enough := (LoadSpec.enough total docs).

Lemma enough_after fuel s s' :
  visited s ⊆ visited s' → enough fuel s → enough fuel s'.
Proof.
  intros Hsub H Ht. specialize (H Ht).
  pose proof (unvisited_mono _ _ Hsub). lia.
Qed.

Lemma enough_opened fuel s kind absLoc body :
  fetchBody R absLoc = Ok body → absLoc ∉ visited s →
  enough (S fuel) s → enough fuel (opened s kind absLoc).
Proof.
  intros Hfetch Hfresh H Ht. specialize (H Ht).
  pose proof (unvisited_opened s kind absLoc (docs_known Ht _ _ Hfetch) Hfresh). lia.
Qed.

Lemma wp_out_of_fuel {A} s (Q : result A → state → Prop) :
  enough 0 s → wp total (@out_of_fuel A) s Q.
Proof.
  unfold wp, out_of_fuel, LoadSpec.enough. destruct total; [|done].
  intros H. specialize (H eq_refl). lia.
Qed.

Lemma fatalAt_fetch_err {A} kind absLoc e :
  fetchBody R absLoc = Err e → fatalAt R kind absLoc (Err e : result A).
Proof. unfold fatalAt. by intros ->. Qed.

Lemma fatalAt_fetch_ok {A} kind absLoc body (r : result A) :
  fetchBody R absLoc = Ok body →
  match kind with
  | XsdImport => ∀ e, parseXsd R body = Err e → r = Err e
  | WsdlImport => ∀ e, parseWsdl R body = Err e → r = Err e
  end →
  fatalAt R kind absLoc r.
Proof. unfold fatalAt. by intros ->. Qed.

(** One iteration of the schema-import loop. *)
Lemma xsdImportStep_run (recur : node → string → M node) fuel baseDir schema imp s :
  (∀ sch b s1, enough fuel s1 →
     wp total (recur sch b) s1 (λ r s', extends R s1 r s')) →
  enough (S fuel) s →
  wp total (xsdImportStep R recur baseDir schema imp) s (λ r s', extends R s r s').
Proof.
  intros Hrec Hfuel. unfold xsdImportStep.
  destruct (attr "schemaLocation" imp) as [loc|]; [|apply wp_ret, extends_refl].
  destruct (String.eqb loc ""); [apply wp_ret, extends_refl|].
  set (absLoc := absoluteLocation R loc baseDir). unfold visitXsd.
  apply wp_bind, wp_hasVisited. case_bool_decide as Hseen.
  { apply wp_ret, extends_refl. }
  apply wp_bind, wp_addVisited. apply wp_bind, wp_visit_fetch.
  destruct (fetchBody R absLoc) as [xsdXml|e] eqn:Hfetch.
  2:{ apply extends_opened; [done|]. by apply fatalAt_fetch_err. }
  apply wp_bind, wp_lift.
  destruct (parseXsd R xsdXml) as [importedSchema|e] eqn:Hparse.
  2:{ apply extends_opened; [done|].
      eapply fatalAt_fetch_ok; [done|]. simpl. congruence. }
  apply wp_bind. eapply wp_mono; [|apply Hrec; by eapply enough_opened].
  intros [importedSchema'|e] s2 Hext.
  - apply wp_bind, wp_emit. apply wp_lift.
    apply (extends_visit R s XsdImport absLoc _ s2 _ true Hseen Hext); [done|].
    eapply fatalAt_fetch_ok; [done|]. simpl. congruence.
  - apply (extends_visit R s XsdImport absLoc _ s2 _ false Hseen Hext).
    + by intros e' [= ->].
    + eapply fatalAt_fetch_ok; [done|]. simpl. congruence.
Qed.

Lemma resolveXsdImports_run fuel :
  ∀ schema baseDir s, enough fuel s →
    wp total (resolveXsdImports R fuel schema baseDir) s (λ r s', extends R s r s').
Proof.
  induction fuel as [|fuel IH]; intros schema baseDir s Hfuel; simpl.
  { by apply wp_out_of_fuel. }
  apply (wp_forEach total _ (λ _ acc s1, extends R s (Ok acc) s1)).
  - intros item rest acc s1 Hinv.
    eapply wp_mono; [|apply (xsdImportStep_run _ fuel); [exact IH|]].
    + intros [acc'|e] s2 Hext; by eapply extends_trans.
    + eapply enough_after; [|done]. by destruct Hinv.
  - done.
  - apply extends_refl.
Qed.

(** One iteration of the document-import loop. *)
Lemma wsdlImportStep_run (recur : string → string → M node) fuel baseDir defs imp s :
  (∀ xml b s1, enough fuel s1 →
     wp total (recur xml b) s1
        (λ r s', extends R s1 r s' ∧ ∀ e, parseWsdl R xml = Err e → r = Err e)) →
  enough (S fuel) s →
  wp total (wsdlImportStep R recur baseDir defs imp) s (λ r s', extends R s r s').
Proof.
  intros Hrec Hfuel. unfold wsdlImportStep.
  destruct (attr "location" imp) as [loc|]; [|apply wp_ret, extends_refl].
  destruct (String.eqb loc ""); [apply wp_ret, extends_refl|].
  set (absLoc := absoluteLocation R loc baseDir). unfold visitWsdl.
  apply wp_bind, wp_hasVisited. case_bool_decide as Hseen.
  { apply wp_ret, extends_refl. }
  apply wp_bind, wp_addVisited. apply wp_bind, wp_visit_fetch.
  destruct (fetchBody R absLoc) as [importedXml|e] eqn:Hfetch.
  2:{ apply extends_opened; [done|]. by apply fatalAt_fetch_err. }
  apply wp_bind. eapply wp_mono; [|apply Hrec; by eapply enough_opened].
  intros [importedRaw|e] s2 [Hext Hparse].
  - apply wp_bind, wp_emit.
    assert (∀ r : result node, extends R s r (closed s2 absLoc)) as Hfinal.
    { intros r.
      apply (extends_visit R s WsdlImport absLoc _ s2 _ true Hseen Hext); [done|].
      eapply fatalAt_fetch_ok; [done|]. simpl.
      intros e He. by specialize (Hparse e He). }
    destruct (child "definitions" importedRaw); [apply wp_lift | apply wp_throw];
      apply Hfinal.
  - apply (extends_visit R s WsdlImport absLoc _ s2 _ false Hseen Hext).
    + by intros e' [= ->].
    + eapply fatalAt_fetch_ok; [done|]. simpl.
      intros e' He'. by specialize (Hparse e' He').
Qed.

Lemma resolveWsdl_run fuel :
  ∀ xml baseDir s, enough fuel s →
    wp total (resolveWsdl R fuel xml baseDir) s
       (λ r s', extends R s r s' ∧ ∀ e, parseWsdl R xml = Err e → r = Err e).
Proof.
  induction fuel as [|fuel IH]; intros xml baseDir s Hfuel; simpl.
  { by apply wp_out_of_fuel. }
  apply wp_bind, wp_lift.
  destruct (parseWsdl R xml) as [raw|e] eqn:Hparse.
  2:{ split; [apply extends_refl | congruence]. }
  assert (∀ (c : M node),
            wp total c s (λ r s', extends R s r s') →
            wp total c s (λ r s', extends R s r s' ∧
                                  ∀ e, Ok raw = Err e → r = Err e)) as Hweak.
  { intros c. apply wp_mono. intros r s' H. split; [done | congruence]. }
  apply Hweak.
  destruct (child "definitions" raw) as [defs|]; [|apply wp_throw, extends_refl].
  apply wp_bind, wp_lift.
  destruct (ensureSchema defs) as [ds|e]; [|apply extends_refl].
  apply wp_bind.
  eapply wp_mono; [|apply (resolveXsdImports_run (S fuel)); done].
  intros [schema'|e] s1 Hext1; [|done].
  apply wp_bind. unfold resolveWsdlImportsWith.
  apply (wp_forEach total _ (λ _ acc s2, extends R s (Ok acc) s2)
           (λ r s2, match r with
                    | Ok defs' =>
                        wp total (ret (put_child "definitions" defs' raw)) s2
                           (λ r s', extends R s r s')
                    | Err e => extends R s (Err e) s2
                    end)).
  - intros item rest acc s2 Hinv.
    eapply wp_mono; [|apply (wsdlImportStep_run _ fuel); [exact IH|]].
    + intros [acc'|e] s3 Hext; by eapply extends_trans.
    + eapply enough_after; [|done]. by destruct Hinv.
  - intros acc s2 Hinv. apply wp_ret. by eapply extends_trans; [|apply extends_refl].
  - eapply extends_trans; [exact Hext1 | apply extends_refl].
Qed.

End Runs.

(** *** A larger budget does not change a result *)

Lemma refines_refl {A} (c : M A) : refines c c.
Proof. by intros s x. Qed.

Lemma refines_bind {A B} (c c' : M A) (k k' : A → M B) :
  refines c c' → (∀ a, refines (k a) (k' a)) → refines (bind c k) (bind c' k').
Proof.
  intros Hc Hk s x. unfold bind.
  destruct (c s) as [[[a|e] s1]|] eqn:E; [| |done].
  - rewrite (Hc _ _ E). apply Hk.
  - by rewrite (Hc _ _ E).
Qed.

Lemma refines_forEach {A B} (body body' : B → A → M B) items :
  (∀ acc item, refines (body acc item) (body' acc item)) →
  ∀ acc, refines (forEach body items acc) (forEach body' items acc).
Proof.
  intros Hbody. induction items as [|item rest IH]; intros acc; simpl.
  - apply refines_refl.
  - apply refines_bind; [apply Hbody | apply IH].
Qed.

Lemma refines_out_of_fuel {A} (c : M A) : refines out_of_fuel c.
Proof. by intros s x. Qed.

Section Budget.
Context (R : Runtime).

Lemma xsdImportStep_refines recur recur' baseDir schema imp :
  (∀ sch b, refines (recur sch b) (recur' sch b)) →
  refines (xsdImportStep R recur baseDir schema imp)
          (xsdImportStep R recur' baseDir schema imp).
Proof.
  intros Hrec. unfold xsdImportStep.
  destruct (attr "schemaLocation" imp) as [loc|]; [|apply refines_refl].
  destruct (String.eqb loc ""); [apply refines_refl|]. unfold visitXsd.
  apply refines_bind; [apply refines_refl|]. intros [|]; [apply refines_refl|].
  apply refines_bind; [apply refines_refl|]. intros _.
  apply refines_bind; [apply refines_refl|]. intros xsdXml.
  apply refines_bind; [apply refines_refl|]. intros importedSchema.
  apply refines_bind; [apply Hrec|]. intros importedSchema'.
  apply refines_refl.
Qed.

Lemma resolveXsdImports_budget fuel :
  ∀ fuel' schema baseDir, fuel ≤ fuel' →
    refines (resolveXsdImports R fuel schema baseDir)
            (resolveXsdImports R fuel' schema baseDir).
Proof.
  induction fuel as [|fuel IH]; intros fuel' schema baseDir Hle.
  { apply refines_out_of_fuel. }
  destruct fuel' as [|fuel']; [lia|]. simpl.
  apply refines_forEach. intros acc item.
  apply xsdImportStep_refines. intros sch b. apply IH. lia.
Qed.

Lemma wsdlImportStep_refines recur recur' baseDir defs imp :
  (∀ xml b, refines (recur xml b) (recur' xml b)) →
  refines (wsdlImportStep R recur baseDir defs imp)
          (wsdlImportStep R recur' baseDir defs imp).
Proof.
  intros Hrec. unfold wsdlImportStep.
  destruct (attr "location" imp) as [loc|]; [|apply refines_refl].
  destruct (String.eqb loc ""); [apply refines_refl|]. unfold visitWsdl.
  apply refines_bind; [apply refines_refl|]. intros [|]; [apply refines_refl|].
  apply refines_bind; [apply refines_refl|]. intros _.
  apply refines_bind; [apply refines_refl|]. intros importedXml.
  apply refines_bind; [apply Hrec|]. intros importedRaw.
  apply refines_refl.
Qed.

Lemma resolveWsdl_budget fuel :
  ∀ fuel' xml baseDir, fuel ≤ fuel' →
    refines (resolveWsdl R fuel xml baseDir) (resolveWsdl R fuel' xml baseDir).
Proof.
  induction fuel as [|fuel IH]; intros fuel' xml baseDir Hle.
  { apply refines_out_of_fuel. }
  destruct fuel' as [|fuel']; [lia|]. simpl.
  apply refines_bind; [apply refines_refl|]. intros raw.
  destruct (child "definitions" raw) as [defs|]; [|apply refines_refl].
  apply refines_bind; [apply refines_refl|]. intros ds.
  apply refines_bind;
    [apply (resolveXsdImports_budget (S fuel) (S fuel') ds.2 baseDir); lia|].
  intros schema'.
  apply refines_bind; [|intros; apply refines_refl].
  apply refines_forEach. intros acc item.
  apply wsdlImportStep_refines. intros x b. apply IH. lia.
Qed.

(** C2. Termination under cyclic or repeated imports.  When the documents
    that can be fetched at all form a finite set [docs], one call of
    [loadWsdl] ends (by returning or by throwing) for every document text and
    base location, with the same result for every budget above the size of
    [docs]; during the call no absolute location is passed to [fetchSource]
    twice and no location's document is merged twice, and the locations
    fetched are exactly those in the call's visited set. *)
Theorem loadWsdl_terminates (docs : gset string) (xml baseDir : string) :
  (∀ absLoc body, fetchBody R absLoc = Ok body → absLoc ∈ docs) →
  ∃ r st,
    (∀ fuel, size docs < fuel → loadWsdl R fuel xml baseDir = Some (r, st)) ∧
    NoDup (fetchedLocs (trace st)) ∧
    NoDup (mergedLocs (trace st)) ∧
    (∀ absLoc, absLoc ∈ visited st ↔ absLoc ∈ fetchedLocs (trace st)).
Proof.
  intros Hdocs.
  pose (s0 := {| visited := ∅; trace := [] |}).
  assert (LoadSpec.enough true docs (S (size docs)) s0) as Hfuel.
  { intros _. unfold unvisited. simpl.
    assert (size (docs ∖ ∅) ≤ size docs) by (apply subseteq_size; set_solver). lia. }
  pose proof (resolveWsdl_run R true docs (λ _, Hdocs) (S (size docs))
                xml baseDir s0 Hfuel) as Hrun.
  unfold wp in Hrun.
  destruct (resolveWsdl R (S (size docs)) xml baseDir s0) as [[r st]|] eqn:Hres;
    [|done].
  destruct Hrun as [[Hv (new & Ht & Hf & Hb & Hd & Hm & Hx)] _].
  simpl in Ht. subst new.
  exists r, st. split; [|split; [done|split; [done|]]].
  - intros fuel Hlt. unfold loadWsdl.
    apply (resolveWsdl_budget (S (size docs)) fuel xml baseDir); [lia | done].
  - intros absLoc. split.
    + intros Hin. destruct (Hb _ Hin) as [Hin'|]; [|done]. simpl in Hin'. set_solver.
    + intros [k Hin]%elem_of_fetchedLocs. by destruct (Hf _ Hin).
Qed.

End Budget.

End LoadTermination.

(* ===================================================================== *)
(** ** The two merge functions                                             *)
(* ===================================================================== *)

Module MergeProofs.
Import Util Load.

Lemma set_child_object k v n :
  is_object n = true →
  ∃ n', set_child k v n = Ok n' ∧ is_object n' = true ∧
        child k n' = Some v ∧
        (∀ k', k' ≠ k → child k' n' = child k' n) ∧
        (∀ a, attr a n' = attr a n).
Proof.
  destruct n as [s|b s|items props|attrs children]; simpl; try discriminate;
    intros _; eexists; (split; [reflexivity|]); simpl;
    (split; [done|]); (split; [apply lookup_insert_eq|]);
    (split; [|done]); intros k' Hne; by apply lookup_insert_ne.
Qed.

(** A fold of per-key updates over distinct keys: every listed key receives
    what [pick] selects from the source, appended to what the destination
    had; nothing else changes. *)
Lemma fold_keys (pick : list node → list node → list node)
    (step : node → string → result node) (src : node) (keys : list string) :
  (∀ d key, is_object d = true →
     ∃ d', step d key = Ok d' ∧ is_object d' = true ∧
           arr (child key d') =
             arr (child key d) ++ pick (arr (child key d)) (arr (child key src)) ∧
           (∀ k', k' ≠ key → child k' d' = child k' d) ∧
           (∀ a, attr a d' = attr a d)) →
  NoDup keys →
  ∀ dest, is_object dest = true →
    ∃ merged,
      foldl (λ acc key, andThen acc (λ d, step d key)) (Ok dest) keys = Ok merged ∧
      is_object merged = true ∧
      (∀ key, key ∈ keys →
         arr (child key merged) =
           arr (child key dest) ++ pick (arr (child key dest)) (arr (child key src))) ∧
      (∀ k, k ∉ keys → child k merged = child k dest) ∧
      (∀ a, attr a merged = attr a dest).
Proof.
  intros Hstep. induction keys as [|key rest IH]; intros Hnodup dest Hobj.
  - exists dest. simpl. repeat split; try done.
    intros key Hin. by apply not_elem_of_nil in Hin.
  - apply NoDup_cons in Hnodup as [Hfresh Hnodup].
    destruct (Hstep dest key Hobj) as (d1 & Hd1 & Hobj1 & Harr1 & Hframe1 & Hattr1).
    destruct (IH Hnodup d1 Hobj1) as (merged & Hm & Hobjm & Harrm & Hframem & Hattrm).
    exists merged. simpl. rewrite Hd1. split; [done|]. split; [done|].
    split; [|split].
    + intros k [->|Hin]%elem_of_cons.
      * by rewrite (Hframem key Hfresh).
      * rewrite (Harrm k Hin).
        assert (k ≠ key) as Hne by (intros ->; done).
        by rewrite (Hframe1 k Hne).
    + intros k Hnot. apply not_elem_of_cons in Hnot as [Hne Hnot].
      by rewrite (Hframem k Hnot), (Hframe1 k Hne).
    + intros a. by rewrite Hattrm, Hattr1.
Qed.

Lemma mergeSchemaKey_spec src d key :
  is_object d = true →
  ∃ d', mergeSchemaKey src d key = Ok d' ∧ is_object d' = true ∧
        arr (child key d') = arr (child key d) ++ arr (child key src) ∧
        (∀ k', k' ≠ key → child k' d' = child k' d) ∧
        (∀ a, attr a d' = attr a d).
Proof.
  intros Hobj. unfold mergeSchemaKey.
  destruct (arr (child key src)) as [|item items] eqn:Hsrc.
  - exists d. by rewrite app_nil_r.
  - destruct (set_child_object key
                (Arr (arr (child key d) ++ item :: items) ∅) d Hobj)
      as (d' & -> & Hobj' & Hkey & Hframe & Hattr).
    exists d'. split; [done|]. split; [done|]. by rewrite Hkey.
Qed.

Lemma XSD_TYPE_KEYS_NoDup : NoDup XSD_TYPE_KEYS.
Proof. apply (bool_decide_unpack _). vm_compute. exact I. Qed.

Lemma WSDL_DEF_KEYS_NoDup : NoDup WSDL_DEF_KEYS.
Proof. apply (bool_decide_unpack _). vm_compute. exact I. Qed.

(** [mergeSchema] appends, for each declaration key, all items of the source
    after those of the destination, without looking at names. *)
Lemma mergeSchema_spec dest src :
  is_object dest = true →
  ∃ merged, mergeSchema dest src = Ok merged ∧ is_object merged = true ∧
    (∀ key, key ∈ XSD_TYPE_KEYS →
       arr (child key merged) = arr (child key dest) ++ arr (child key src)) ∧
    (∀ k, k ∉ XSD_TYPE_KEYS → child k merged = child k dest) ∧
    (∀ a, attr a merged = attr a dest).
Proof.
  intros Hobj.
  apply (fold_keys (λ _ srcItems, srcItems) (mergeSchemaKey src) src XSD_TYPE_KEYS);
    [|apply XSD_TYPE_KEYS_NoDup|done].
  intros d key Hd. by apply mergeSchemaKey_spec.
Qed.

Lemma mergeWsdlDefsKey_spec src d key :
  is_object d = true →
  ∃ d', mergeWsdlDefsKey src d key = Ok d' ∧ is_object d' = true ∧
        arr (child key d') =
          arr (child key d) ++ newItems (arr (child key d)) (arr (child key src)) ∧
        (∀ k', k' ≠ key → child k' d' = child k' d) ∧
        (∀ a, attr a d' = attr a d).
Proof.
  intros Hobj. unfold mergeWsdlDefsKey.
  destruct (arr (child key src)) as [|item items] eqn:Hsrc.
  - exists d. unfold newItems. simpl. by rewrite app_nil_r.
  - destruct (set_child_object key
                (Arr (arr (child key d) ++
                      newItems (arr (child key d)) (item :: items)) ∅) d Hobj)
      as (d' & -> & Hobj' & Hkey & Hframe & Hattr).
    exists d'. split; [done|]. split; [done|]. by rewrite Hkey.
Qed.

Lemma mergeWsdlDefs_spec dest src :
  is_object dest = true →
  ∃ merged, mergeWsdlDefs dest src = Ok merged ∧ is_object merged = true ∧
    (∀ key, key ∈ WSDL_DEF_KEYS →
       arr (child key merged) =
         arr (child key dest) ++ newItems (arr (child key dest)) (arr (child key src))) ∧
    (∀ k, k ∉ WSDL_DEF_KEYS → child k merged = child k dest) ∧
    (∀ a, attr a merged = attr a dest).
Proof.
  intros Hobj.
  apply (fold_keys newItems (mergeWsdlDefsKey src) src WSDL_DEF_KEYS);
    [|apply WSDL_DEF_KEYS_NoDup|done].
  intros d key Hd. by apply mergeWsdlDefsKey_spec.
Qed.

Lemma newItems_filter destItems srcItems :
  newItems destItems srcItems
  = filter (λ n, attr "name" n ∉ map (attr "name") destItems) srcItems.
Proof.
  unfold newItems. apply list_filter_iff. intros n.
  by rewrite elem_of_list_to_set.
Qed.

(** C3 (as amended). For each of [message], [portType], [binding] and
    [service], [mergeWsdlDefs] keeps every destination item, in order, and
    appends exactly those incoming items whose declared name is not the name
    of a destination item: an incoming item whose name is already present is
    dropped, so the first-seen definition is the one kept.  When the names
    within the destination and the names within the incoming collection are
    each pairwise distinct, so are the names of the merged collection. *)
Theorem mergeWsdlDefs_first_seen_wins (dest src : node) :
  is_object dest = true →
  ∃ merged, mergeWsdlDefs dest src = Ok merged ∧
    ∀ key, key ∈ WSDL_DEF_KEYS →
      arr (child key merged)
      = arr (child key dest)
        ++ filter (λ n, attr "name" n ∉ map (attr "name") (arr (child key dest)))
                  (arr (child key src)) ∧
      (NoDup (map (attr "name") (arr (child key dest))) →
       NoDup (map (attr "name") (arr (child key src))) →
       NoDup (map (attr "name") (arr (child key merged)))).
Proof.
  intros Hobj.
  destruct (mergeWsdlDefs_spec dest src Hobj) as (merged & Hm & _ & Harr & _ & _).
  exists merged. split; [done|]. intros key Hkey.
  rewrite (Harr key Hkey), newItems_filter. split; [done|].
  intros Hdest Hsrc. rewrite map_app. apply NoDup_app. split; [done|]. split.
  - intros name Hin1 Hin2.
    apply list_elem_of_fmap in Hin2 as (n & -> & Hn).
    apply list_elem_of_filter in Hn as [Hnot _]. done.
  - eapply sublist_NoDup; [exact Hsrc|].
    apply fmap_sublist, sublist_filter.
Qed.

(** Destination [A]; incoming [A] (another definition) and [B]: the
    destination's [A] stays, the incoming [A] is dropped, [B] is added. *)
Lemma mergeWsdlDefs_first_seen_wins_witness :
  ∃ merged, mergeWsdlDefs Examples.defsDest Examples.defsSrc = Ok merged ∧
    arr (child "message" merged) = [Examples.msgA; Examples.msgB].
Proof.
  destruct (mergeWsdlDefs_first_seen_wins Examples.defsDest Examples.defsSrc eq_refl)
    as (merged & Hm & Hkeys).
  exists merged. split; [exact Hm|].
  destruct (Hkeys "message") as [Harr _].
  - unfold WSDL_DEF_KEYS. apply list_elem_of_here.
  - rewrite Harr. vm_compute. reflexivity.
Defined.

(** C3 (as stated) fails: an imported definitions node that declares the
    name [Dup] twice is merged into a destination without messages, and both
    declarations are in the merged collection. *)
Lemma mergeWsdlDefs_duplicate_names_counterexample :
  match mergeWsdlDefs Examples.defsEmpty Examples.defsWithDuplicates with
  | Ok merged =>
      arr (child "message" merged) = [Examples.msgDup1; Examples.msgDup2] ∧
      map (attr "name") (arr (child "message" merged)) = [Some "Dup"; Some "Dup"]
  | Err _ => False
  end.
Proof. vm_compute. split; reflexivity. Qed.

End MergeProofs.

(* ===================================================================== *)
(** ** Claims about one top-level resolution                               *)
(* ===================================================================== *)

Module LoadProofs.
Import Util Model Parse Load LoadSpec LoadRules LoadRuns LoadTermination.

Lemma assoc_Some_fst {V} (table : list (string * V)) key v :
  Examples.assoc table key = Some v → key ∈ map fst table.
Proof.
  induction table as [|[k v'] rest IH]; simpl; [done|].
  destruct (String.eqb_spec k key) as [->|Hne].
  - intros _. apply list_elem_of_here.
  - intros H. apply list_elem_of_further. by apply IH.
Qed.

(** In a table runtime whose HTTP table answers no body, only the files of
    the table can be fetched. *)
Lemma tableRuntime_docs_known dir files http wsdlTrees xsdTrees absLoc body :
  (∀ url b, Examples.assoc http url ≠ Some (HttpOk b)) →
  fetchBody (Examples.tableRuntime dir files http wsdlTrees xsdTrees) absLoc = Ok body →
  absLoc ∈ map fst files.
Proof.
  intros Hhttp. unfold fetchBody.
  destruct (isUrl absLoc); cbn [http_fetch read_file Examples.tableRuntime].
  - destruct (Examples.assoc http absLoc) as [[b|status|e]|] eqn:E;
      simpl; try discriminate.
    by destruct (Hhttp absLoc b).
  - destruct (Examples.assoc files absLoc) as [b|] eqn:E; [|discriminate].
    intros _. by eapply assoc_Some_fst.
Qed.

Lemma demo_docs_known absLoc body :
  fetchBody Examples.demo absLoc = Ok body → absLoc ∈ Examples.demoDocs.
Proof.
  intros H. unfold Examples.demoDocs. apply elem_of_list_to_set.
  eapply tableRuntime_docs_known; [|exact H].
  intros url b. cbn [Examples.assoc].
  destruct (String.eqb Examples.goneUrl url); discriminate.
Qed.

(** A document whose only import target is itself: the call ends. *)
Lemma loadWsdl_terminates_witness :
  ∃ r st,
    (∀ fuel, size Examples.demoDocs < fuel →
       loadWsdl Examples.demo fuel Examples.selfXml "/ws" = Some (r, st)) ∧
    NoDup (fetchedLocs (trace st)) ∧
    NoDup (mergedLocs (trace st)) ∧
    (∀ absLoc, absLoc ∈ visited st ↔ absLoc ∈ fetchedLocs (trace st)).
Proof.
  apply (loadWsdl_terminates Examples.demo Examples.demoDocs Examples.selfXml "/ws").
  exact demo_docs_known.
Defined.

(** The self-importing document is fetched once, and its model is the model
    of the same document without the import. *)
Example self_import_same_model :
  match loadWsdl Examples.demo 6 Examples.selfXml "/ws" with
  | Some (Ok raw, st) =>
      fetchedLocs (trace st) = ["/ws/self.wsdl"] ∧
      buildModel id raw = buildModel id Examples.pingTree
  | _ => False
  end.
Proof. vm_compute. split; reflexivity. Qed.





(** A document import of a file that is well-formed XML without a
    [definitions] root is rejected with the message of [parseWsdl]. *)
Example not_wsdl_import_rejected :
  loadResult Examples.demo 7 (Examples.wsdlImporterXml "bad.wsdl") "/ws"
    = Some (Err (Thrown msg_missing_definitions)).
Proof. vm_compute. reflexivity. Qed.

End LoadProofs.

(* ===================================================================== *)
(** ** What a successful resolution leaves in the tree                     *)
(* ===================================================================== *)

Module LoadFrame.
Import Util Model Parse Load LoadSpec LoadRules LoadRuns LoadTermination MergeProofs.

Lemma child_Some_object k n v : child k n = Some v → is_object n = true.
Proof. by destruct n. Qed.

Lemma put_child_object k v n :
  is_object n = true →
  is_object (put_child k v n) = true ∧
  child k (put_child k v n) = Some v ∧
  (∀ k', k' ≠ k → child k' (put_child k v n) = child k' n) ∧
  (∀ a, attr a (put_child k v n) = attr a n).
Proof.
  intros Hobj. unfold put_child.
  by destruct (set_child_object k v n Hobj) as (n' & -> & ? & ? & ? & ?).
Qed.

Lemma put_child_id k v n : child k n = Some v → put_child k v n = n.
Proof.
  destruct n as [s|b s|items props|attrs children]; simpl; try done;
    intros H; unfold put_child; simpl; by rewrite insert_id.
Qed.

Lemma falsy_no_child k n : truthy n = false → child k n = None.
Proof. by destruct n. Qed.

Ltac rewrite_lookups :=
  repeat match goal with
         | H : ?x = _ |- context [?x] => rewrite H
         end.

Ltac ensureSchema_leaf :=
  simplify_eq; simpl;
  split; [done|];
  split; [intros k Hk; simpl; by rewrite ?lookup_insert_ne by done|];
  split; [done|];
  split;
  [ eexists; split; [simpl; first [eassumption | apply lookup_insert_eq]|];
    split; [done|]; simpl; first [eassumption | apply lookup_insert_eq]
  | simpl; rewrite_lookups; done ].

(** What [ensureSchema] returns when it does not throw. *)
Lemma ensureSchema_inv defs defsE schema :
  ensureSchema defs = Ok (defsE, schema) →
  is_object defs = true ∧ is_object defsE = true ∧
  (∀ k, k ≠ "types" → child k defsE = child k defs) ∧
  (∀ a, attr a defsE = attr a defs) ∧
  (∃ typesE, child "types" defsE = Some typesE ∧ is_object typesE = true ∧
             child "schema" typesE = Some schema) ∧
  schema = match (child "types" defs ≫= child "schema") with
           | Some sch => if truthy sch then sch else empty_obj
           | None => empty_obj
           end.
Proof.
  unfold ensureSchema, put_child, set_child, empty_obj.
  intros H.
  assert (is_object defs = true) as Hobj.
  { destruct defs; simpl in *; try done; discriminate. }
  split; [done|].
  destruct defs as [s|b s|items props|attrs children]; try discriminate; simpl in *.
  - destruct (props !! "types") as [types|] eqn:Htypes; simpl in H.
    + destruct (truthy types) eqn:Htruthy; simpl in H.
      * rewrite Htypes in H.
        destruct types as [s|b s|items' props'|attrs' children']; simpl in H;
          try discriminate.
        -- destruct (props' !! "schema") as [sch|] eqn:Hsch;
             [destruct (truthy sch) eqn:Hts|]; ensureSchema_leaf.
        -- destruct (children' !! "schema") as [sch|] eqn:Hsch;
             [destruct (truthy sch) eqn:Hts|]; ensureSchema_leaf.
      * rewrite lookup_insert_eq in H. simpl in H. rewrite lookup_empty in H.
        destruct types; try discriminate; ensureSchema_leaf.
    + rewrite lookup_insert_eq in H. simpl in H. rewrite lookup_empty in H.
      ensureSchema_leaf.
  - destruct (children !! "types") as [types|] eqn:Htypes; simpl in H.
    + destruct (truthy types) eqn:Htruthy; simpl in H.
      * rewrite Htypes in H.
        destruct types as [s|b s|items' props'|attrs' children']; simpl in H;
          try discriminate.
        -- destruct (props' !! "schema") as [sch|] eqn:Hsch;
             [destruct (truthy sch) eqn:Hts|]; ensureSchema_leaf.
        -- destruct (children' !! "schema") as [sch|] eqn:Hsch;
             [destruct (truthy sch) eqn:Hts|]; ensureSchema_leaf.
      * rewrite lookup_insert_eq in H. simpl in H. rewrite lookup_empty in H.
        destruct types; try discriminate; ensureSchema_leaf.
    + rewrite lookup_insert_eq in H. simpl in H. rewrite lookup_empty in H.
      ensureSchema_leaf.
Qed.

Lemma keeps_refl keys n : keeps keys n n.
Proof. by split. Qed.

Lemma keeps_trans keys n1 n2 n3 :
  keeps keys n1 n2 → keeps keys n2 n3 → keeps keys n1 n3.
Proof.
  intros [Hc1 Ha1] [Hc2 Ha2]. split.
  - intros k Hk. by rewrite Hc2, Hc1.
  - intros a. by rewrite Ha2, Ha1.
Qed.

Lemma fold_keys_err (step : node → string → result node) keys e :
  foldl (λ acc key, andThen acc (λ d, step d key)) (Err e) keys = Err e.
Proof. by induction keys. Qed.

(** A fold of per-key updates that can only leave the node as it is or
    throw returns the node itself. *)
Lemma fold_keys_fixed (step : node → string → result node) keys dest merged :
  (∀ key d', step dest key = Ok d' → d' = dest) →
  foldl (λ acc key, andThen acc (λ d, step d key)) (Ok dest) keys = Ok merged →
  merged = dest.
Proof.
  intros Hstep. induction keys as [|key rest IH]; simpl.
  - by intros [= ->].
  - destruct (step dest key) as [d'|e] eqn:E.
    + rewrite (Hstep _ _ E). exact IH.
    + by rewrite fold_keys_err.
Qed.

Lemma mergeSchema_keeps dest src merged :
  mergeSchema dest src = Ok merged → keeps XSD_TYPE_KEYS dest merged.
Proof.
  intros Hm. destruct (is_object dest) eqn:Hobj.
  - destruct (mergeSchema_spec dest src Hobj) as (m & Hm' & _ & _ & Hc & Ha).
    rewrite Hm in Hm'. by simplify_eq.
  - assert (merged = dest) as ->; [|apply keeps_refl].
    eapply fold_keys_fixed; [|exact Hm].
    intros key d'. unfold mergeSchemaKey.
    destruct (arr (child key src)); [by intros [= ->]|].
    destruct dest; simpl in *; discriminate.
Qed.

Lemma mergeWsdlDefs_keeps dest src merged :
  mergeWsdlDefs dest src = Ok merged → keeps WSDL_DEF_KEYS dest merged.
Proof.
  intros Hm. destruct (is_object dest) eqn:Hobj.
  - destruct (mergeWsdlDefs_spec dest src Hobj) as (m & Hm' & _ & _ & Hc & Ha).
    rewrite Hm in Hm'. by simplify_eq.
  - assert (merged = dest) as ->; [|apply keeps_refl].
    eapply fold_keys_fixed; [|exact Hm].
    intros key d'. unfold mergeWsdlDefsKey.
    destruct (arr (child key src)); [by intros [= ->]|].
    destruct dest; simpl in *; discriminate.
Qed.

Section Frame.
Context (R : Runtime).

Lemma xsdImportStep_located recur baseDir schema imp :
  xsdImportStep R recur baseDir schema imp
  = match xsdLocated R baseDir imp with
    | Some absLoc => visitXsd R recur absLoc schema
    | None => ret schema
    end.
Proof.
  unfold xsdImportStep, xsdLocated, visitXsd.
  destruct (attr "schemaLocation" imp) as [loc|]; [|done].
  by destruct (String.eqb loc "").
Qed.

Lemma wsdlImportStep_located recur baseDir defs imp :
  wsdlImportStep R recur baseDir defs imp
  = match wsdlLocated R baseDir imp with
    | Some absLoc => visitWsdl R recur absLoc defs
    | None => ret defs
    end.
Proof.
  unfold wsdlImportStep, wsdlLocated, visitWsdl.
  destruct (attr "location" imp) as [loc|]; [|done].
  by destruct (String.eqb loc "").
Qed.

(** Calls whose visited set only grows. *)
Lemma resolveXsdImports_grows fuel schema baseDir s :
  wp false (resolveXsdImports R fuel schema baseDir) s
     (λ _ s', visited s ⊆ visited s').
Proof.
  eapply wp_mono;
    [|apply (resolveXsdImports_run R false ∅
               (λ H, False_rect _ (Bool.diff_false_true H)));
      intros H; discriminate].
  intros r s' [Hv _]. exact Hv.
Qed.

Lemma resolveWsdl_grows fuel xml baseDir s :
  wp false (resolveWsdl R fuel xml baseDir) s (λ _ s', visited s ⊆ visited s').
Proof.
  eapply wp_mono;
    [|apply (resolveWsdl_run R false ∅
               (λ H, False_rect _ (Bool.diff_false_true H)));
      intros H; discriminate].
  intros r s' [[Hv _] _]. exact Hv.
Qed.

Lemma visitXsd_frame recur absLoc schema s :
  (∀ sch b s1, wp false (recur sch b) s1 (λ _ s', visited s1 ⊆ visited s')) →
  wp false (visitXsd R recur absLoc schema) s
     (λ r s', visited s ⊆ visited s' ∧ absLoc ∈ visited s' ∧
              match r with
              | Ok schema' => keeps XSD_TYPE_KEYS schema schema'
              | Err _ => True
              end).
Proof.
  intros Hrec. unfold visitXsd.
  apply wp_bind, wp_hasVisited. case_bool_decide as Hseen.
  { apply wp_ret. split; [done|]. split; [done|]. apply keeps_refl. }
  apply wp_bind, wp_addVisited. apply wp_bind, wp_visit_fetch.
  assert (visited s ⊆ visited (opened s XsdImport absLoc)) as Hsub
    by (simpl; set_solver).
  assert (absLoc ∈ visited (opened s XsdImport absLoc)) as Hin
    by (simpl; set_solver).
  destruct (fetchBody R absLoc) as [xsdXml|e]; [|done].
  apply wp_bind, wp_lift.
  destruct (parseXsd R xsdXml) as [importedSchema|e]; [|done].
  apply wp_bind. eapply wp_mono; [|apply Hrec].
  intros [importedSchema'|e] s2 Hgrow; [|split; [|split]; set_solver].
  apply wp_bind, wp_emit. apply wp_lift. simpl.
  split; [set_solver|]. split; [set_solver|].
  destruct (mergeSchema schema importedSchema') as [m|e] eqn:Hm; [|done].
  by eapply mergeSchema_keeps.
Qed.

Lemma visitWsdl_frame recur absLoc defs s :
  (∀ xml b s1, wp false (recur xml b) s1 (λ _ s', visited s1 ⊆ visited s')) →
  wp false (visitWsdl R recur absLoc defs) s
     (λ r s', visited s ⊆ visited s' ∧ absLoc ∈ visited s' ∧
              match r with
              | Ok defs' => keeps WSDL_DEF_KEYS defs defs'
              | Err _ => True
              end).
Proof.
  intros Hrec. unfold visitWsdl.
  apply wp_bind, wp_hasVisited. case_bool_decide as Hseen.
  { apply wp_ret. split; [done|]. split; [done|]. apply keeps_refl. }
  apply wp_bind, wp_addVisited. apply wp_bind, wp_visit_fetch.
  assert (visited s ⊆ visited (opened s WsdlImport absLoc)) as Hsub
    by (simpl; set_solver).
  assert (absLoc ∈ visited (opened s WsdlImport absLoc)) as Hin
    by (simpl; set_solver).
  destruct (fetchBody R absLoc) as [importedXml|e]; [|done].
  apply wp_bind. eapply wp_mono; [|apply Hrec].
  intros [importedRaw|e] s2 Hgrow; [|split; [|split]; set_solver].
  apply wp_bind, wp_emit.
  destruct (child "definitions" importedRaw) as [importedDefs|];
    [apply wp_lift | apply wp_throw]; simpl;
    (split; [set_solver|]); (split; [set_solver|]); [|done].
  destruct (mergeWsdlDefs defs importedDefs) as [m|e] eqn:Hm; [|done].
  by eapply mergeWsdlDefs_keeps.
Qed.

(** A loop over directives: the tree keeps everything outside the merge
    keys, and every located directive ends up visited. *)
Lemma directive_loop_frame {A} (keys : list string)
    (step : node → A → M node) (located : A → option string)
    (visit : string → node → M node) :
  (∀ acc item, step acc item = match located item with
                               | Some absLoc => visit absLoc acc
                               | None => ret acc
                               end) →
  (∀ absLoc acc s,
     wp false (visit absLoc acc) s
        (λ r s', visited s ⊆ visited s' ∧ absLoc ∈ visited s' ∧
                 match r with
                 | Ok acc' => keeps keys acc acc'
                 | Err _ => True
                 end)) →
  ∀ items tree s,
    wp false (forEach step items tree) s
       (λ r s', match r with
                | Ok tree' =>
                    visited s ⊆ visited s' ∧ keeps keys tree tree' ∧
                    ∀ absLoc, absLoc ∈ omap located items → absLoc ∈ visited s'
                | Err _ => True
                end).
Proof.
  intros Hstep Hvisit items tree s.
  apply (wp_forEach false step
           (λ rest acc s1,
              visited s ⊆ visited s1 ∧ keeps keys tree acc ∧
              ∀ absLoc, absLoc ∈ omap located items →
                        absLoc ∈ visited s1 ∨ absLoc ∈ omap located rest)).
  - intros item rest acc s1 (Hv & Hk & Hl). rewrite Hstep.
    destruct (located item) as [absLoc|] eqn:Hloc.
    + eapply wp_mono; [|apply Hvisit].
      intros [acc'|e] s2 (Hv2 & Hin & Hk2); [|done].
      split; [set_solver|]. split; [by eapply keeps_trans|].
      intros l Hl'. destruct (Hl l Hl') as [?|Hrest]; [left; set_solver|].
      simpl in Hrest. rewrite Hloc in Hrest.
      apply elem_of_cons in Hrest as [->|?]; [by left | by right].
    + apply wp_ret. split; [done|]. split; [done|].
      intros l Hl'. destruct (Hl l Hl') as [?|Hrest]; [by left|].
      simpl in Hrest. rewrite Hloc in Hrest. by right.
  - intros acc s1 (Hv & Hk & Hl). split; [done|]. split; [done|].
    intros l Hl'. destruct (Hl l Hl') as [?|Hrest]; [done|].
    by apply not_elem_of_nil in Hrest.
  - split; [done|]. split; [apply keeps_refl|]. intros l Hl. by right.
Qed.

Lemma resolveXsdImports_frame fuel schema baseDir s :
  wp false (resolveXsdImports R fuel schema baseDir) s
     (λ r s', match r with
              | Ok schema' =>
                  visited s ⊆ visited s' ∧ keeps XSD_TYPE_KEYS schema schema' ∧
                  ∀ absLoc, absLoc ∈ locatedXsdImports R schema baseDir →
                            absLoc ∈ visited s'
              | Err _ => True
              end).
Proof.
  destruct fuel as [|fuel]; [done|]. simpl.
  apply (directive_loop_frame XSD_TYPE_KEYS _ (xsdLocated R baseDir)
           (visitXsd R (resolveXsdImports R fuel))).
  - intros acc item. apply xsdImportStep_located.
  - intros absLoc acc s1. apply visitXsd_frame.
    intros sch b s2. apply resolveXsdImports_grows.
Qed.

Lemma resolveWsdlImportsWith_frame fuel defs baseDir s :
  wp false (resolveWsdlImportsWith R (resolveWsdl R fuel) defs baseDir) s
     (λ r s', match r with
              | Ok defs' =>
                  visited s ⊆ visited s' ∧ keeps WSDL_DEF_KEYS defs defs' ∧
                  ∀ absLoc, absLoc ∈ locatedWsdlImports R defs baseDir →
                            absLoc ∈ visited s'
              | Err _ => True
              end).
Proof.
  unfold resolveWsdlImportsWith.
  apply (directive_loop_frame WSDL_DEF_KEYS _ (wsdlLocated R baseDir)
           (visitWsdl R (resolveWsdl R fuel))).
  - intros acc item. apply wsdlImportStep_located.
  - intros absLoc acc s1. apply visitWsdl_frame.
    intros xml b s2. apply resolveWsdl_grows.
Qed.

End Frame.

End LoadFrame.

Module LoadDirectives.
Import Util Model Parse Load LoadSpec LoadRules LoadRuns LoadTermination MergeProofs LoadFrame.

Lemma parseWsdl_inv R xml raw :
  parseWsdl R xml = Ok raw →
  is_object raw = true ∧ ∃ defs, child "definitions" raw = Some defs ∧ truthy defs = true.
Proof.
  unfold parseWsdl. destruct (xml_parse_wsdl R xml) as [parsed|e]; [|discriminate].
  destruct (truthy parsed); simpl; [|discriminate].
  destruct (is_object parsed) eqn:Hobj; simpl; [|discriminate].
  destruct (child "definitions" parsed) as [defs|] eqn:Hd; simpl; [|discriminate].
  destruct (truthy defs) eqn:Ht; simpl; [|discriminate].
  intros [= <-]. split; [done|]. by exists defs.
Qed.

(** What [withSchema] yields on the definitions node [ensureSchema] returned. *)
Lemma withSchema_spec defs defsE schema schema' :
  ensureSchema defs = Ok (defsE, schema) →
  (child "types" (withSchema defsE schema') ≫= child "schema") = Some schema' ∧
  (∀ k, k ≠ "types" → child k (withSchema defsE schema') = child k defs) ∧
  (∀ a, attr a (withSchema defsE schema') = attr a defs) ∧
  is_object (withSchema defsE schema') = true.
Proof.
  intros (Hobj & HobjE & Hframe & Hattr & (typesE & Htypes & HobjT & Hschema) & _)
    %ensureSchema_inv.
  unfold withSchema. rewrite Htypes.
  destruct (put_child_object "schema" schema' typesE HobjT) as (Ho1 & Hk1 & Hf1 & Ha1).
  destruct (put_child_object "types" (put_child "schema" schema' typesE) defsE HobjE)
    as (Ho2 & Hk2 & Hf2 & Ha2).
  split; [by rewrite Hk2|]. split; [|split; [|done]].
  - intros k Hk. by rewrite Hf2, Hframe.
  - intros a. by rewrite Ha2, Hattr.
Qed.

Lemma withSchema_same defs defsE schema :
  ensureSchema defs = Ok (defsE, schema) → withSchema defsE schema = defsE.
Proof.
  intros (Hobj & HobjE & Hframe & Hattr & (typesE & Htypes & HobjT & Hschema) & _)
    %ensureSchema_inv.
  unfold withSchema. rewrite Htypes.
  rewrite (put_child_id "schema" schema typesE Hschema).
  by apply put_child_id.
Qed.

Section Directives.
Context (R : Runtime).

(** The steps of a successful [resolveWsdl], with what each leaves. *)
Lemma resolveWsdl_frame fuel xml baseDir s :
  wp false (resolveWsdl R fuel xml baseDir) s
     (λ r s', match r with
              | Ok raw' =>
                  ∃ raw defs defsE schema schema' defs',
                    parseWsdl R xml = Ok raw ∧
                    child "definitions" raw = Some defs ∧
                    ensureSchema defs = Ok (defsE, schema) ∧
                    keeps XSD_TYPE_KEYS schema schema' ∧
                    keeps WSDL_DEF_KEYS (withSchema defsE schema') defs' ∧
                    raw' = put_child "definitions" defs' raw ∧
                    visited s ⊆ visited s' ∧
                    (∀ absLoc, absLoc ∈ locatedXsdImports R schema baseDir →
                               absLoc ∈ visited s') ∧
                    (∀ absLoc,
                       absLoc ∈ locatedWsdlImports R (withSchema defsE schema') baseDir →
                       absLoc ∈ visited s')
              | Err _ => True
              end).
Proof.
  destruct fuel as [|fuel]; [done|].
  change (resolveWsdl R (S fuel) xml baseDir)
    with (raw <~ lift (parseWsdl R xml) ;;
          match child "definitions" raw with
          | None => throw TypeError
          | Some defs =>
              ds <~ lift (ensureSchema defs) ;;
              schema' <~ resolveXsdImports R (S fuel) ds.2 baseDir ;;
              defs' <~ resolveWsdlImportsWith R (resolveWsdl R fuel)
                         (withSchema ds.1 schema') baseDir ;;
              ret (put_child "definitions" defs' raw)
          end).
  apply wp_bind, wp_lift.
  destruct (parseWsdl R xml) as [raw|e] eqn:Hparse; [|done].
  destruct (child "definitions" raw) as [defs|] eqn:Hdefs; [|done].
  apply wp_bind, wp_lift.
  destruct (ensureSchema defs) as [[defsE schema]|e] eqn:Hensure; [|done].
  apply wp_bind. eapply wp_mono; [|apply resolveXsdImports_frame].
  intros [schema'|e] s1; [|done]. intros (Hv1 & Hk1 & Hl1).
  apply wp_bind. eapply wp_mono; [|apply resolveWsdlImportsWith_frame].
  intros [defs'|e] s2; [|done]. intros (Hv2 & Hk2 & Hl2).
  apply wp_ret. exists raw, defs, defsE, schema, schema', defs'.
  repeat (split; [done|]). split; [set_solver|]. split; [|done].
  intros absLoc Hin. specialize (Hl1 absLoc Hin). set_solver.
Qed.

(** C1 (as amended). After a successful [loadWsdl], the directive nodes are
    still in the returned tree, exactly as the parser produced them: the
    document-level [import] list, and the [import] and [include] lists of
    the schema node.  Every one of them that carries a non-empty location
    has been resolved: its absolute location is in the visited set of the
    call, and it was fetched, successfully, during the call. *)
Theorem directives_resolved_and_kept (fuel : nat) (xml baseDir : string)
    (raw' : node) (st : state) :
  loadWsdl R fuel xml baseDir = Some (Ok raw', st) →
  ∃ raw defs defs',
    parseWsdl R xml = Ok raw ∧
    child "definitions" raw = Some defs ∧
    child "definitions" raw' = Some defs' ∧
    child "import" defs' = child "import" defs ∧
    (schemaOf raw' ≫= child "import") = (schemaOf raw ≫= child "import") ∧
    (schemaOf raw' ≫= child "include") = (schemaOf raw ≫= child "include") ∧
    (∀ absLoc,
       absLoc ∈ locatedWsdlImports R defs' baseDir ∨
       (∃ schema', schemaOf raw' = Some schema' ∧
                   absLoc ∈ locatedXsdImports R schema' baseDir) →
       absLoc ∈ visited st ∧
       absLoc ∈ fetchedLocs (trace st) ∧
       ∃ body, fetchBody R absLoc = Ok body).
Proof.
  intros Hload.
  pose proof (resolveWsdl_frame fuel xml baseDir {| visited := ∅; trace := [] |})
    as Hframe.
  pose proof (resolveWsdl_run R false ∅ (λ H, False_rect _ (Bool.diff_false_true H))
                fuel xml baseDir {| visited := ∅; trace := [] |}
                (λ H, False_rect _ (Bool.diff_false_true H))) as Hrun.
  unfold wp in Hframe, Hrun. unfold loadWsdl in Hload. rewrite Hload in Hframe, Hrun.
  destruct Hframe as (raw & defs & defsE & schema & schema' & defs' &
                      Hparse & Hdefs & Hensure & [Hks Has] & [Hkd Had] & -> & _ & Hlx & Hlw).
  destruct Hrun as [[_ (new & Ht & Hf & Hb & _ & _ & Hx)] _].
  simpl in Ht. subst new.
  destruct (parseWsdl_inv _ _ _ Hparse) as [Hobj _].
  destruct (put_child_object "definitions" defs' raw Hobj) as (_ & Hk & _ & _).
  destruct (withSchema_spec defs defsE schema schema' Hensure)
    as (Hws & Hwf & Hwa & Hwo).
  destruct (ensureSchema_inv _ _ _ Hensure) as (_ & _ & _ & _ & _ & Hschema).
  assert (Hso : schemaOf (put_child "definitions" defs' raw) = Some schema').
  { unfold schemaOf. rewrite Hk. simpl.
    rewrite (Hkd "types") by (vm_compute; set_solver). exact Hws. }
  assert (Himp : child "import" defs' = child "import" defs).
  { rewrite (Hkd "import") by (vm_compute; set_solver). by apply Hwf. }
  assert (Hsame : ∀ k, k ∉ XSD_TYPE_KEYS →
            (schemaOf (put_child "definitions" defs' raw) ≫= child k)
            = (schemaOf raw ≫= child k)).
  { intros k Hk'. rewrite Hso. simpl. rewrite (Hks k Hk').
    unfold schemaOf. rewrite Hdefs. simpl. rewrite Hschema.
    destruct (child "types" defs ≫= child "schema") as [sch|]; simpl; [|done].
    destruct (truthy sch) eqn:Hts; [done|]. simpl.
    by rewrite (falsy_no_child _ _ Hts), lookup_empty. }
  exists raw, defs, defs'. split; [done|]. split; [done|]. split; [done|].
  split; [done|].
  split; [apply Hsame; vm_compute; set_solver|].
  split; [apply Hsame; vm_compute; set_solver|].
  intros absLoc Hloc.
  assert (absLoc ∈ visited st) as Hvis.
  { destruct Hloc as [Hw | (sch & Hs & Hx')].
    - apply Hlw. unfold locatedWsdlImports in *.
      rewrite (Hwf "import") by done. by rewrite <- Himp.
    - rewrite Hso in Hs. simplify_eq. apply Hlx.
      unfold locatedXsdImports in *.
      by rewrite <- (Hks "import"), <- (Hks "include") by (vm_compute; set_solver). }
  split; [done|].
  destruct (Hb _ Hvis) as [Hin|Hin]; [simpl in Hin; set_solver|].
  split; [done|].
  apply elem_of_fetchedLocs in Hin as [kind Hin].
  specialize (Hx _ _ Hin). unfold fatalAt in Hx.
  destruct (fetchBody R absLoc) as [body|e]; [by exists body | discriminate].
Qed.

End Directives.

(** The root of the diamond: both schema imports are resolved and kept. *)
Lemma directives_resolved_and_kept_witness :
  ∃ raw', fst <$> loadWsdl Examples.demo 6 Examples.diamondXml "/ws" = Some (Ok raw') ∧
    (schemaOf raw' ≫= child "import")
      = Some (Examples.arrOf [Examples.importB; Examples.importC]).
Proof.
  destruct (loadWsdl Examples.demo 6 Examples.diamondXml "/ws")
    as [[[raw'|e] st]|] eqn:Hload; try (vm_compute in Hload; discriminate).
  exists raw'. split; [done|].
  destruct (directives_resolved_and_kept Examples.demo 6 _ _ raw' st Hload)
    as (raw & defs & defs' & Hparse & _ & _ & _ & -> & _).
  vm_compute in Hparse. injection Hparse as <-. vm_compute. reflexivity.
Defined.

(** C1 (as stated) fails: after a successful [loadWsdl] the schema of the
    diamond root still holds both import nodes, each with its
    [schemaLocation]; and the self-importing document still holds its
    document-level import with its [location]. *)
Lemma import_nodes_remain_counterexample :
  match loadWsdl Examples.demo 6 Examples.diamondXml "/ws" with
  | Some (Ok raw', _) =>
      arr (schemaOf raw' ≫= child "import") = [Examples.importB; Examples.importC] ∧
      map (attr "schemaLocation") (arr (schemaOf raw' ≫= child "import"))
        = [Some "b.xsd"; Some "c.xsd"]
  | _ => False
  end ∧
  match loadWsdl Examples.demo 6 Examples.selfXml "/ws" with
  | Some (Ok raw', _) =>
      map (attr "location") (arr (child "definitions" raw' ≫= child "import"))
        = [Some "self.wsdl"]
  | _ => False
  end.
Proof. vm_compute. repeat split; reflexivity. Qed.

End LoadDirectives.

Module LoadNoImports.
Import Util Model Parse Load LoadSpec LoadRules LoadRuns LoadTermination MergeProofs.
Import LoadFrame LoadDirectives.

(** A directive loop over items none of which is located changes nothing. *)
Lemma loop_unlocated {A} (step : node → A → M node) (located : A → option string)
    (visit : string → node → M node) :
  (∀ acc item, step acc item = match located item with
                               | Some absLoc => visit absLoc acc
                               | None => ret acc
                               end) →
  ∀ items, omap located items = [] →
  ∀ acc s, forEach step items acc s = Some (Ok acc, s).
Proof.
  intros Hstep items. induction items as [|item rest IH]; intros Hnone acc s; [done|].
  simpl in Hnone. destruct (located item) eqn:Hloc; [discriminate|].
  cbn [forEach]. unfold bind. rewrite Hstep, Hloc. cbn [ret]. by apply IH.
Qed.

Lemma resolveWsdl_unfold R fuel xml baseDir :
  resolveWsdl R (S fuel) xml baseDir
  = (raw <~ lift (parseWsdl R xml) ;;
     match child "definitions" raw with
     | None => throw TypeError
     | Some defs =>
         ds <~ lift (ensureSchema defs) ;;
         schema' <~ resolveXsdImports R (S fuel) ds.2 baseDir ;;
         defs' <~ resolveWsdlImportsWith R (resolveWsdl R fuel)
                    (withSchema ds.1 schema') baseDir ;;
         ret (put_child "definitions" defs' raw)
     end).
Proof. reflexivity. Qed.

Section NoImports.
Context (R : Runtime) (trim : string → string).

Lemma resolveXsdImports_unlocated fuel schema baseDir s :
  locatedXsdImports R schema baseDir = [] →
  resolveXsdImports R (S fuel) schema baseDir s = Some (Ok schema, s).
Proof.
  intros Hnone. cbn [resolveXsdImports].
  apply (loop_unlocated _ (xsdLocated R baseDir)
           (visitXsd R (resolveXsdImports R fuel))); [|exact Hnone].
  intros acc item. apply xsdImportStep_located.
Qed.

Lemma resolveWsdlImportsWith_unlocated recur defs baseDir s :
  locatedWsdlImports R defs baseDir = [] →
  resolveWsdlImportsWith R recur defs baseDir s = Some (Ok defs, s).
Proof.
  intros Hnone. unfold resolveWsdlImportsWith.
  apply (loop_unlocated _ (wsdlLocated R baseDir) (visitWsdl R recur));
    [|exact Hnone].
  intros acc item. apply wsdlImportStep_located.
Qed.

Lemma getDoc_ext n n' :
  truthy n = truthy n' →
  child "documentation" n = child "documentation" n' →
  child "annotation" n = child "annotation" n' →
  getDoc trim n = getDoc trim n'.
Proof. unfold getDoc. by intros -> -> ->. Qed.

Lemma object_truthy n : is_object n = true → truthy n = true.
Proof. by destruct n. Qed.

Lemma extractTypes_falsy sch :
  truthy sch = false → extractTypes trim sch = extractTypes trim empty_obj.
Proof.
  intros H. unfold extractTypes. rewrite !(falsy_no_child _ _ H).
  unfold empty_obj. simpl. by rewrite !lookup_empty.
Qed.

(** The model of the tree [resolveWsdl] returns when nothing was merged is
    the model of the parsed tree. *)
Lemma buildModel_ensured raw defs defsE schema :
  is_object raw = true →
  child "definitions" raw = Some defs →
  ensureSchema defs = Ok (defsE, schema) →
  buildModel trim (put_child "definitions" defsE raw) = buildModel trim raw.
Proof.
  intros Hobj Hdefs Hensure.
  destruct (ensureSchema_inv _ _ _ Hensure)
    as (Hod & HoE & Hframe & Hattr & (typesE & Htypes & HoT & Hschema) & Heq).
  destruct (put_child_object "definitions" defsE raw Hobj) as (_ & Hk & _ & _).
  unfold buildModel. rewrite Hk, Hdefs.
  rewrite !Hattr, !(Hframe "message"), !(Hframe "portType"),
    !(Hframe "binding"), !(Hframe "service") by done.
  rewrite (getDoc_ext defsE defs)
    by (first [by rewrite !object_truthy | by apply Hframe]).
  rewrite Htypes. simpl. rewrite Hschema. simpl.
  assert (extractTypes trim schema
          = extractTypes trim (default empty_obj (child "types" defs ≫= child "schema")))
    as ->; [|done].
  rewrite Heq.
  destruct (child "types" defs ≫= child "schema") as [sch|]; simpl; [|done].
  destruct (truthy sch) eqn:Hts; [done|]. by rewrite (extractTypes_falsy sch).
Qed.

(** For a document without located import or include directives on which
    [ensureSchema] does not throw, [loadWsdl] fetches nothing and returns a
    tree whose model is the model of the direct parse. *)
Theorem load_is_noop_without_imports (xml baseDir : string) (raw defs : node)
    (ds : node * node) (fuel : nat) :
  parseWsdl R xml = Ok raw →
  child "definitions" raw = Some defs →
  ensureSchema defs = Ok ds →
  locatedXsdImports R ds.2 baseDir = [] →
  locatedWsdlImports R defs baseDir = [] →
  0 < fuel →
  ∃ raw' st, loadWsdl R fuel xml baseDir = Some (Ok raw', st) ∧
             trace st = [] ∧
             buildModel trim raw' = buildModel trim raw.
Proof.
  intros Hparse Hdefs Hensure Hx Hw Hfuel.
  destruct fuel as [|fuel]; [lia|]. destruct ds as [defsE schema]. simpl in Hx.
  destruct (parseWsdl_inv _ _ _ Hparse) as [Hobj _].
  destruct (ensureSchema_inv _ _ _ Hensure) as (_ & _ & Hframe & _).
  exists (put_child "definitions" defsE raw), {| visited := ∅; trace := [] |}.
  split; [|split; [done|by eapply buildModel_ensured]].
  unfold loadWsdl. rewrite resolveWsdl_unfold.
  unfold bind at 1. rewrite Hparse. cbn [lift ret]. rewrite Hdefs.
  unfold bind at 1. rewrite Hensure. cbn [lift ret fst snd].
  unfold bind at 1. rewrite (resolveXsdImports_unlocated fuel schema baseDir _ Hx).
  rewrite (withSchema_same _ _ _ Hensure).
  unfold bind at 1. rewrite resolveWsdlImportsWith_unlocated; [done|].
  unfold locatedWsdlImports in *. by rewrite Hframe.
Qed.

End NoImports.

(** C5. A document without any import or include directive, whose [types]
    element holds text: [parseWsdl] accepts it and [buildModel] of the parse
    is a model with no types, but [loadWsdl] throws a [TypeError], raised by
    [ensureSchema] when it assigns [schema] on the string. *)
Theorem load_text_types_throws :
  locatedWsdlImports Examples.demo
    (default empty_obj (child "definitions" Examples.textTypesTree)) "/ws" = [] ∧
  schemaOf Examples.textTypesTree = None ∧
  loadResult Examples.demo 6 Examples.textTypesXml "/ws" = Some (Err TypeError) ∧
  match parseWsdl Examples.demo Examples.textTypesXml with
  | Ok raw => buildModel id raw = Ok (mkService "" "" "" [] [] [] [] [])
  | Err _ => False
  end.
Proof. vm_compute. repeat split; reflexivity. Qed.

End LoadNoImports.

Module LoadDiamond.
Import Util Model Parse Load LoadSpec LoadRules LoadRuns LoadTermination MergeProofs.
Import LoadFrame LoadDirectives LoadNoImports.

(** A directive loop does what a loop over the located directives does. *)
Lemma loop_located {A} (step : node → A → M node) (located : A → option string)
    (visit : string → node → M node) :
  (∀ acc item, step acc item = match located item with
                               | Some absLoc => visit absLoc acc
                               | None => ret acc
                               end) →
  ∀ items acc s,
    forEach step items acc s
    = forEach (λ acc absLoc, visit absLoc acc) (omap located items) acc s.
Proof.
  intros Hstep items. induction items as [|item rest IH]; intros acc s; [done|].
  simpl. rewrite Hstep.
  destruct (located item) as [absLoc|] eqn:Hloc; simpl; unfold bind.
  - destruct (visit absLoc acc s) as [[[acc'|e] s']|]; [apply IH|done|done].
  - simpl. apply IH.
Qed.

Lemma ensureSchema_present defs types schema :
  child "types" defs = Some types →
  child "schema" types = Some schema →
  truthy schema = true →
  ensureSchema defs = Ok (defs, schema).
Proof.
  intros Htypes Hschema Htruthy. unfold ensureSchema.
  rewrite Htypes. simpl.
  rewrite (object_truthy _ (child_Some_object _ _ _ Hschema)). simpl.
  by rewrite Htypes, Hschema, Htruthy.
Qed.

Lemma countNamed_app n ts1 ts2 :
  countNamed n (ts1 ++ ts2) = countNamed n ts1 + countNamed n ts2.
Proof. unfold countNamed. by rewrite filter_app, length_app. Qed.

Lemma countNamed_Permutation n ts1 ts2 :
  ts1 ≡ₚ ts2 → countNamed n ts1 = countNamed n ts2.
Proof. unfold countNamed. by intros ->. Qed.

Section Diamond.
Context (R : Runtime) (trim : string → string).

Lemma resolveXsdImports_located fuel schema baseDir s :
  resolveXsdImports R (S fuel) schema baseDir s
  = forEach (λ acc absLoc, visitXsd R (resolveXsdImports R fuel) absLoc acc)
            (locatedXsdImports R schema baseDir) schema s.
Proof.
  cbn [resolveXsdImports].
  apply (loop_located _ (xsdLocated R baseDir)
           (visitXsd R (resolveXsdImports R fuel))).
  intros acc item. apply xsdImportStep_located.
Qed.

Lemma visitXsd_seen recur absLoc schema s :
  absLoc ∈ visited s → visitXsd R recur absLoc schema s = Some (Ok schema, s).
Proof.
  intros Hin. unfold visitXsd, bind, hasVisited. by rewrite bool_decide_true.
Qed.

Lemma visitXsd_fresh recur absLoc schema s body sch sch' s2 merged :
  absLoc ∉ visited s →
  fetchBody R absLoc = Ok body →
  parseXsd R body = Ok sch →
  recur sch (baseDirOf R absLoc) (opened s XsdImport absLoc) = Some (Ok sch', s2) →
  mergeSchema schema sch' = Ok merged →
  visitXsd R recur absLoc schema s = Some (Ok merged, closed s2 absLoc).
Proof.
  intros Hfresh Hfetch Hparse Hrec Hmerge.
  unfold visitXsd, fetchSource, bind, hasVisited, addVisited, emit.
  rewrite bool_decide_false by done. cbn [visited trace].
  rewrite Hfetch. cbn [lift ret]. rewrite Hparse. cbn [lift ret].
  unfold opened in Hrec. rewrite Hrec. by rewrite Hmerge.
Qed.

Lemma located_object schema baseDir absLoc rest :
  locatedXsdImports R schema baseDir = absLoc :: rest → is_object schema = true.
Proof. by destruct schema. Qed.

(** The types of a schema that received, under every declaration key, the
    items of a second schema after its own. *)
Lemma extractTypes_merged dest src merged :
  (∀ key, key ∈ XSD_TYPE_KEYS →
     arr (child key merged) = arr (child key dest) ++ arr (child key src)) →
  extractTypes trim merged ≡ₚ extractTypes trim dest ++ extractTypes trim src.
Proof.
  intros Harr. unfold extractTypes.
  rewrite !Harr by (vm_compute; set_solver).
  unfold elementTypes, complexTypes, simpleTypes.
  rewrite omap_app, !map_app. solve_Permutation.
Qed.

(** C4 (as amended). A root whose schema imports [B] and [C] (in either
    order), where [C] in turn imports [B] and each path resolves to the one
    absolute location [LB]: [B] is fetched once and merged once, and the
    types of the final model are those the root schema, [B] and [C] each
    yield, every one exactly once.  So for every name the final model holds
    as many TypeDefs as the three schemas yield together: exactly one for a
    name for which [B] yields one and the root and [C] yield none. *)
Theorem shared_import_merged_once (xml baseDir : string) (raw defs schemaA : node)
    (LB LC bodyB bodyC : string) (schemaB schemaC : node) (fuel : nat) :
  parseWsdl R xml = Ok raw →
  child "definitions" raw = Some defs →
  (child "types" defs ≫= child "schema") = Some schemaA →
  locatedWsdlImports R defs baseDir = [] →
  locatedXsdImports R schemaA baseDir = [LB; LC] ∨
    locatedXsdImports R schemaA baseDir = [LC; LB] →
  LB ≠ LC →
  fetchBody R LB = Ok bodyB → parseXsd R bodyB = Ok schemaB →
  fetchBody R LC = Ok bodyC → parseXsd R bodyC = Ok schemaC →
  locatedXsdImports R schemaB (baseDirOf R LB) = [] →
  locatedXsdImports R schemaC (baseDirOf R LC) = [LB] →
  3 ≤ fuel →
  ∃ raw' st model,
    loadWsdl R fuel xml baseDir = Some (Ok raw', st) ∧
    fetchedLocs (trace st) ≡ₚ [LB; LC] ∧
    mergedLocs (trace st) = [LB; LC] ∧
    buildModel trim raw' = Ok model ∧
    types model ≡ₚ extractTypes trim schemaA ++ extractTypes trim schemaB
                   ++ extractTypes trim schemaC ∧
    (∀ n, countNamed n (types model)
          = countNamed n (extractTypes trim schemaA)
            + countNamed n (extractTypes trim schemaB)
            + countNamed n (extractTypes trim schemaC)) ∧
    (∀ n, countNamed n (extractTypes trim schemaB) = 1 →
          countNamed n (extractTypes trim schemaA) = 0 →
          countNamed n (extractTypes trim schemaC) = 0 →
          countNamed n (types model) = 1).
Proof.
  intros Hparse Hdefs HschemaA Hw Hx Hne HfB HpB HfC HpC HxB HxC Hfuel.
  destruct fuel as [|[|[|fuel]]]; try lia.
  destruct (child "types" defs) as [typesA|] eqn:Htypes; [|discriminate].
  simpl in HschemaA.
  assert (is_object schemaA = true) as HobjA.
  { destruct Hx as [Hx|Hx]; by eapply located_object. }
  assert (is_object schemaC = true) as HobjC by by eapply located_object.
  pose proof (ensureSchema_present defs typesA schemaA Htypes HschemaA
                (object_truthy _ HobjA)) as Hensure.
  destruct (parseWsdl_inv _ _ _ Hparse) as [Hobj _].
  (* the schema after both imports, in each order *)
  assert (∃ schema' st,
            resolveXsdImports R (S (S (S fuel))) schemaA baseDir
              {| visited := ∅; trace := [] |} = Some (Ok schema', st) ∧
            fetchedLocs (trace st) ≡ₚ [LB; LC] ∧
            mergedLocs (trace st) = [LB; LC] ∧
            extractTypes trim schema'
              ≡ₚ extractTypes trim schemaA ++ extractTypes trim schemaB
                 ++ extractTypes trim schemaC)
    as (schema' & st & Hrun & Hfetched & Hmerged & Htypes').
  { rewrite resolveXsdImports_located.
    destruct Hx as [-> | ->].
    - (* B first, then C *)
      destruct (mergeSchema_spec schemaA schemaB HobjA)
        as (m1 & Hm1 & Hobj1 & Harr1 & _).
      destruct (mergeSchema_spec m1 schemaC Hobj1)
        as (m2 & Hm2 & Hobj2 & Harr2 & _).
      eexists m2, _. split; [|split; [|split]].
      + cbn [forEach]. unfold bind at 1.
        erewrite (visitXsd_fresh _ LB schemaA _ bodyB schemaB schemaB);
          [| set_solver | done | done
           | by apply resolveXsdImports_unlocated | exact Hm1].
        unfold bind at 1.
        erewrite (visitXsd_fresh _ LC m1 _ bodyC schemaC schemaC);
          [reflexivity | simpl; set_solver | done | done | | exact Hm2].
        rewrite resolveXsdImports_located, HxC. cbn [forEach]. unfold bind.
        rewrite visitXsd_seen by (simpl; set_solver). reflexivity.
      + simpl. reflexivity.
      + simpl. reflexivity.
      + rewrite (extractTypes_merged m1 schemaC m2 Harr2).
        rewrite (extractTypes_merged schemaA schemaB m1 Harr1).
        by rewrite <- app_assoc.
    - (* C first: B is fetched while C is being resolved *)
      destruct (mergeSchema_spec schemaC schemaB HobjC)
        as (mC & HmC & HobjmC & HarrC & _).
      destruct (mergeSchema_spec schemaA mC HobjA)
        as (m2 & Hm2 & Hobj2 & Harr2 & _).
      set (s0 := {| visited := ∅; trace := [] |}).
      assert (resolveXsdImports R (S (S fuel)) schemaC (baseDirOf R LC)
                (opened s0 XsdImport LC)
              = Some (Ok mC, closed (opened (opened s0 XsdImport LC) XsdImport LB) LB))
        as Hinner.
      { rewrite resolveXsdImports_located, HxC. cbn [forEach]. unfold bind.
        erewrite (visitXsd_fresh _ LB schemaC _ bodyB schemaB schemaB);
          [reflexivity | simpl; set_solver | done | done
           | by apply resolveXsdImports_unlocated | exact HmC]. }
      eexists m2, _. split; [|split; [|split]].
      + cbn [forEach]. unfold bind at 1.
        rewrite (visitXsd_fresh _ LC schemaA s0 bodyC schemaC mC
                   (closed (opened (opened s0 XsdImport LC) XsdImport LB) LB) m2);
          [| set_solver | done | done | exact Hinner | exact Hm2].
        unfold bind at 1. rewrite visitXsd_seen by (simpl; set_solver).
        reflexivity.
      + simpl. apply Permutation_swap.
      + simpl. reflexivity.
      + rewrite (extractTypes_merged schemaA mC m2 Harr2).
        rewrite (extractTypes_merged schemaC schemaB mC HarrC).
        solve_Permutation. }
  destruct (withSchema_spec defs defs schemaA schema' Hensure)
    as (Hws & Hwf & Hwa & Hwo).
  destruct (put_child_object "definitions" (withSchema defs schema') raw Hobj)
    as (_ & Hk & _ & _).
  eexists (put_child "definitions" (withSchema defs schema') raw), st, _.
  split; [|split; [done|split; [done|split; [|split; [|split]]]]].
  - unfold loadWsdl. rewrite resolveWsdl_unfold.
    unfold bind at 1. rewrite Hparse. cbn [lift ret]. rewrite Hdefs.
    unfold bind at 1. rewrite Hensure. cbn [lift ret fst snd].
    unfold bind at 1. rewrite Hrun.
    unfold bind at 1. rewrite resolveWsdlImportsWith_unlocated; [done|].
    unfold locatedWsdlImports in *. by rewrite Hwf.
  - unfold buildModel. rewrite Hk. reflexivity.
  - simpl. rewrite Hws. simpl. exact Htypes'.
  - intros n. simpl. rewrite Hws. simpl.
    by rewrite (countNamed_Permutation _ _ _ Htypes'), !countNamed_app, Nat.add_assoc.
  - intros n HB HA HC. simpl. rewrite Hws. simpl.
    rewrite (countNamed_Permutation _ _ _ Htypes'), !countNamed_app. lia.
Qed.

End Diamond.

(** The diamond of the examples: [Person], which only [b.xsd] declares as a
    type, is in the final model once. *)
Lemma shared_import_merged_once_witness :
  ∃ raw' st model,
    loadWsdl Examples.demo 6 Examples.diamondXml "/ws" = Some (Ok raw', st) ∧
    mergedLocs (trace st) = ["/ws/b.xsd"; "/ws/c.xsd"] ∧
    buildModel id raw' = Ok model ∧
    countNamed "Person" (types model) = 1.
Proof.
  destruct (shared_import_merged_once Examples.demo id
              Examples.diamondXml "/ws" Examples.diamondTree
              (default empty_obj (child "definitions" Examples.diamondTree))
              Examples.diamondSchema
              "/ws/b.xsd" "/ws/c.xsd" Examples.bXsd Examples.cXsd
              Examples.bSchema Examples.cSchema 6)
    as (raw' & st & model & Hload & _ & Hmerged & Hmodel & _ & _ & Hone);
    try (vm_compute; reflexivity).
  - left. vm_compute. reflexivity.
  - vm_compute. discriminate.
  - lia.
  - exists raw', st, model. split; [done|]. split; [done|]. split; [done|].
    apply Hone; vm_compute; reflexivity.
Defined.

(** C4 (as stated) fails.  [b.xsd] declares the names [personId] and
    [Person]; it is merged once, yet the final model of the diamond has no
    TypeDef named [personId] (a top-level element without an inline complex
    type yields none); and with a root that declares a [Person] of its own,
    the final model has two TypeDefs named [Person]. *)
Lemma shared_import_counterexample :
  map (attr "name") (arr (child "element" Examples.bSchema)
                     ++ arr (child "complexType" Examples.bSchema))
    = [Some "personId"; Some "Person"] ∧
  match loadWsdl Examples.demo 6 Examples.diamondXml "/ws" with
  | Some (Ok raw', st) =>
      mergedLocs (trace st) = ["/ws/b.xsd"; "/ws/c.xsd"] ∧
      (countNamed "personId" ∘ types) <$> result_to_option (buildModel id raw') = Some 0
  | _ => False
  end ∧
  match loadWsdl Examples.demo 6 Examples.diamond2Xml "/ws" with
  | Some (Ok raw', st) =>
      mergedLocs (trace st) = ["/ws/b.xsd"; "/ws/c.xsd"] ∧
      (countNamed "Person" ∘ types) <$> result_to_option (buildModel id raw') = Some 2
  | _ => False
  end.
Proof. vm_compute. repeat split; reflexivity. Qed.

End LoadDiamond.

(* ===================================================================== *)
(** ** util.js: prefixes and text                                          *)
(* ===================================================================== *)

Module UtilProofs.
Import Stdlib.Strings.Ascii Util Model.

Lemma substring_all (s : string) : String.substring 0 (String.length s) s = s.
Proof. induction s as [|a s IH]; simpl; [done | by rewrite IH]. Qed.

Lemma indexOf_colon_cons (a : Ascii.ascii) (s : string) :
  indexOf_colon (String a s)
  = if Ascii.eqb a ":"%char then Some 0 else S <$> indexOf_colon s.
Proof.
  unfold indexOf_colon. cbn [String.index String.prefix].
  destruct (Ascii.ascii_dec ":"%char a) as [<-|Hne].
  - rewrite Ascii.eqb_refl. by destruct s.
  - assert (Ascii.eqb a ":"%char = false) as ->.
    { apply Ascii.eqb_neq. congruence. }
    by destruct (String.index 0 ":" s).
Qed.

(** The first colon of a qualified name is the one after its prefix. *)
Lemma indexOf_colon_qualified (p l : string) :
  indexOf_colon p = None →
  indexOf_colon (p +:+ ":" +:+ l) = Some (String.length p).
Proof.
  induction p as [|a p IH]; intros Hp.
  - change ("" +:+ ":" +:+ l) with (String ":" l). by rewrite indexOf_colon_cons.
  - rewrite indexOf_colon_cons in Hp.
    change (String a p +:+ ":" +:+ l) with (String a (p +:+ ":" +:+ l)).
    rewrite indexOf_colon_cons.
    destruct (Ascii.eqb a ":"%char); [discriminate|].
    destruct (indexOf_colon p); [discriminate|]. by rewrite IH.
Qed.

Lemma slice_after_prefix (p l : string) :
  slice_from (String.length p + 1) (p +:+ ":" +:+ l) = l.
Proof.
  unfold slice_from. induction p as [|a p IH]; simpl.
  - rewrite Nat.sub_0_r. apply substring_all.
  - exact IH.
Qed.

(** X1. [stripNs] removes the prefix of a qualified name and nothing more:
    for a prefix without a colon, whatever follows the first colon comes
    back unchanged, further colons included; and a value without any colon
    is returned as it is. *)
Theorem stripNs_first_colon :
  (∀ p l, indexOf_colon p = None → stripNs (p +:+ ":" +:+ l) = l) ∧
  (∀ value, indexOf_colon value = None → stripNs value = value).
Proof.
  split.
  - intros p l Hp. unfold stripNs.
    rewrite (indexOf_colon_qualified p l Hp), slice_after_prefix.
    by destruct p.
  - intros value Hv. unfold stripNs. rewrite Hv. by destruct (String.eqb value "").
Qed.

(** [tns:AddRequest] and [urn:a:b]. *)
Lemma stripNs_first_colon_witness :
  stripNs "tns:AddRequest" = "AddRequest" ∧ stripNs "urn:a:b" = "a:b" ∧
  stripNs "double" = "double".
Proof.
  split; [|split].
  - apply (proj1 stripNs_first_colon "tns" "AddRequest"). reflexivity.
  - apply (proj1 stripNs_first_colon "urn" "a:b"). reflexivity.
  - apply (proj2 stripNs_first_colon "double"). reflexivity.
Defined.

Section Trimmed.
Variable trim : string → string.
Hypothesis trim_empty : trim "" = "".
Hypothesis trim_idempotent : ∀ s, trim (trim s) = trim s.

Lemma text_node_trimmed : ∀ n, trim (text_node trim n) = text_node trim n.
Proof.
  fix IH 1. intros [s|b s|items props|attrs children].
  - simpl. by destruct (negb (negb (s =? "")%string)).
  - simpl. by destruct (negb b).
  - destruct items as [|x items]; simpl; [done|]. apply IH.
  - simpl. done.
Qed.

Lemma text_trimmed (n : option node) : trim (text trim n) = text trim n.
Proof. destruct n as [n|]; [apply text_node_trimmed | done]. Qed.

Lemma getDoc_trimmed (n : node) : trim (getDoc trim n) = getDoc trim n.
Proof.
  unfold getDoc. destruct (negb (truthy n)); [done|].
  destruct (negb _); apply text_trimmed.
Qed.

(** X2. Every documentation text of the model is a trimmed text: the
    service's, each type's, each field's and each operation's.  [trim] is
    the runtime's [String.prototype.trim], of which only two facts are used:
    it leaves the empty string empty and trimming twice changes nothing. *)
Theorem model_documentation_trimmed (raw : node) (model : Service) :
  buildModel trim raw = Ok model →
  trim (documentation model) = documentation model ∧
  Forall (λ t, trim (type_documentation t) = type_documentation t ∧
               Forall (λ f, trim (field_documentation f) = field_documentation f)
                      (type_fields t))
         (types model) ∧
  Forall (λ op, trim (op_documentation op) = op_documentation op) (operations model).
Proof.
  unfold buildModel. destruct (child "definitions" raw) as [defs|]; [|discriminate].
  intros [= <-]. simpl. split; [apply getDoc_trimmed|].
  assert (Hfields : ∀ ct, Forall (λ f, trim (field_documentation f) = field_documentation f)
                                 (extractFields trim ct)).
  { intros ct. unfold extractFields. apply Forall_fmap, Forall_forall.
    intros el _. simpl. apply getDoc_trimmed. }
  split.
  - unfold extractTypes, elementTypes, complexTypes, simpleTypes.
    rewrite !Forall_app. split; [|split].
    + apply Forall_forall. intros t [el [_ Ht]]%list_elem_of_omap.
      destruct (head (arr (child "complexType" el))) as [ct|]; [|discriminate].
      destruct (negb (truthy ct)); [discriminate|]. injection Ht as <-. simpl.
      split; [apply getDoc_trimmed | apply Hfields].
    + apply Forall_fmap, Forall_forall. intros ct _. simpl.
      split; [apply getDoc_trimmed | apply Hfields].
    + apply Forall_fmap, Forall_forall. intros st _. simpl.
      split; [apply getDoc_trimmed | constructor].
  - unfold extractOperations. apply Forall_forall.
    intros op [pt [_ Hop]]%list_elem_of_In%in_flat_map.
    apply in_map_iff in Hop as [o [<- _]]. simpl. apply getDoc_trimmed.
Qed.

End Trimmed.

Lemma trimEnd_cons (a : Ascii.ascii) (s : string) :
  Samples.trimEnd (String a s)
  = match Samples.trimEnd s with
    | EmptyString => if Samples.isSpace a then EmptyString else String a EmptyString
    | kept => String a kept
    end.
Proof. reflexivity. Qed.

Lemma trimEnd_idempotent (s : string) :
  Samples.trimEnd (Samples.trimEnd s) = Samples.trimEnd s.
Proof.
  induction s as [|a s IH]; [done|]. rewrite trimEnd_cons.
  destruct (Samples.trimEnd s) as [|b kept] eqn:E.
  - destruct (Samples.isSpace a) eqn:Ha; [done|].
    rewrite trimEnd_cons. simpl. by rewrite Ha.
  - rewrite trimEnd_cons, IH. done.
Qed.

Lemma trimAscii_idempotent (s : string) :
  Samples.trimAscii (Samples.trimAscii s) = Samples.trimAscii s.
Proof.
  unfold Samples.trimAscii.
  assert (Hstart : ∀ t, Samples.trimStart t = ""
                        ∨ ∃ a r, Samples.trimStart t = String a r
                                 ∧ Samples.isSpace a = false).
  { induction t as [|a t IH]; [by left|]. cbn [Samples.trimStart].
    destruct (Samples.isSpace a) eqn:Ha; [exact IH|]. right. by exists a, t. }
  destruct (Hstart s) as [->|(a & r & -> & Ha)]; [done|].
  assert (∃ k, Samples.trimEnd (String a r) = String a k) as [k Hk].
  { rewrite trimEnd_cons. destruct (Samples.trimEnd r); [|by eexists].
    rewrite Ha. by eexists. }
  rewrite Hk. cbn [Samples.trimStart]. rewrite Ha, <- Hk.
  apply trimEnd_idempotent.
Qed.

(** The documented service of the samples, with a trim for its texts. *)
Lemma model_documentation_trimmed_witness :
  ∃ model, buildModel Samples.trimAscii Samples.plainTree = Ok model ∧
           documentation model = "A service." ∧
           Samples.trimAscii (documentation model) = documentation model.
Proof.
  eexists. split; [vm_compute; reflexivity|]. split; [reflexivity|].
  refine (proj1 (model_documentation_trimmed Samples.trimAscii eq_refl
                   trimAscii_idempotent Samples.plainTree _ _)).
  vm_compute. reflexivity.
Defined.

End UtilProofs.

(* ===================================================================== *)
(** ** model.js: what the normaliser reads and what it yields              *)
(* ===================================================================== *)

Module NormalizerProofs.
Import Util Model TreeSpec.

Lemma append_cons (a : Ascii.ascii) (s t : string) :
  String a s +:+ t = String a (s +:+ t).
Proof. reflexivity. Qed.

Lemma prefix_true (p s : string) :
  String.prefix p s = true ↔ ∃ post, s = p +:+ post.
Proof.
  revert s. induction p as [|a p IH]; intros s.
  - destruct s; simpl; (split; [intros _; by eexists | done]).
  - destruct s as [|b s]; simpl.
    { split; [done | by intros [post ?]]. }
    destruct (Ascii.ascii_dec a b) as [->|Hne].
    + rewrite IH. split; intros [post Hpost]; exists post;
        rewrite append_cons in *; congruence.
    + split; [done|]. intros [post Hpost]. rewrite append_cons in Hpost. congruence.
Qed.

Lemma includes_true (needle s : string) :
  includes needle s = true ↔ ∃ pre post, s = pre +:+ needle +:+ post.
Proof.
  induction s as [|a s IH].
  - cbn [includes]. rewrite orb_false_r, prefix_true. split.
    + intros [post Hpost]. by exists "", post.
    + intros [pre [post Hs]]. destruct pre; [by exists post|discriminate].
  - cbn [includes]. rewrite orb_true_iff, prefix_true, IH. split.
    + intros [[post Hpost]|[pre [post Hs]]].
      * by exists "", post.
      * exists (String a pre), post. by rewrite append_cons, Hs.
    + intros [pre [post Hs]]. destruct pre as [|b pre].
      * left. by exists post.
      * right. exists pre, post. rewrite append_cons in Hs. congruence.
Qed.

(** X3. [detectProtocol] answers ["SOAP 1.2"] exactly for the transports
    that contain the text [soap12] somewhere, and ["SOAP 1.1"] for every
    other string, the empty one included; and the protocol label of every
    binding is that of the transport the binding was given. *)
Theorem detectProtocol_spec (transport : string) :
  (((∃ pre post, transport = pre +:+ "soap12" +:+ post) ∧
    detectProtocol transport = "SOAP 1.2") ∨
   ((∀ pre post, transport ≠ pre +:+ "soap12" +:+ post) ∧
    detectProtocol transport = "SOAP 1.1")) ∧
  ∀ b, binding_protocol (extractBinding b)
       = detectProtocol (binding_transport (extractBinding b)).
Proof.
  split; [|done]. unfold detectProtocol.
  destruct (includes "soap12" transport) eqn:Hinc.
  - left. split; [by apply includes_true | done].
  - right. split; [|done]. intros pre post Heq.
    assert (includes "soap12" transport = true) as Htrue
      by (apply includes_true; by exists pre, post).
    congruence.
Qed.

Section Normalizer.
Variable trim : string → string.

(** One entry per element that wraps an inline complex type. *)
Lemma elementTypes_filter (els : list node) :
  Forall2 (λ el t,
             type_name t = default "" (attr "name" el) ∧
             ∃ ct, head (arr (child "complexType" el)) = Some ct ∧
                   type_fields t = extractFields trim ct)
          (filter (λ el, hasInlineComplexType el = true) els)
          (elementTypes trim els).
Proof.
  unfold elementTypes, hasInlineComplexType.
  induction els as [|el els IH]; [constructor|]. cbn [omap list_omap].
  destruct (head (arr (child "complexType" el))) as [ct|] eqn:Hct.
  - destruct (truthy ct) eqn:Ht; simpl.
    + rewrite filter_cons_True by by rewrite Hct.
      constructor; [|exact IH]. split; [done|]. by exists ct.
    + rewrite filter_cons_False by (rewrite Hct; congruence). exact IH.
  - rewrite filter_cons_False by by rewrite Hct. exact IH.
Qed.

(** X4. The types of a schema come grouped by kind, whatever the order of
    the declarations in the document: first the top-level elements that wrap
    an inline complex type, then all complex types, then all simple types.
    The first group has one entry for each element whose first [complexType]
    child is there and truthy, in order, with the name of the element and
    the fields of that complex type, and none for any other element.  Every
    complex type and every simple type yields one entry, with or without a
    name or a restriction.  Entries of the first two groups have no
    enumeration values and entries of the last have no fields. *)
Theorem extractTypes_grouped_by_kind (schema : node) :
  ∃ es cs ss,
    extractTypes trim schema = es ++ cs ++ ss ∧
    Forall (λ t, type_kind t = KElement ∧ type_enumerations t = []) es ∧
    Forall (λ t, type_kind t = KComplexType ∧ type_enumerations t = []) cs ∧
    Forall (λ t, type_kind t = KSimpleType ∧ type_fields t = []) ss ∧
    Forall2 (λ el t,
               type_name t = default "" (attr "name" el) ∧
               ∃ ct, head (arr (child "complexType" el)) = Some ct ∧
                     type_fields t = extractFields trim ct)
            (filter (λ el, hasInlineComplexType el = true)
                    (arr (child "element" schema)))
            es ∧
    map type_name cs
      = map (λ ct, default "" (attr "name" ct)) (arr (child "complexType" schema)) ∧
    map type_name ss
      = map (λ st, default "" (attr "name" st)) (arr (child "simpleType" schema)).
Proof.
  exists (elementTypes trim (arr (child "element" schema))),
         (complexTypes trim (arr (child "complexType" schema))),
         (simpleTypes trim (arr (child "simpleType" schema))).
  split; [done|].
  split; [|split; [|split; [|split; [apply elementTypes_filter|split]]]];
    unfold elementTypes, complexTypes, simpleTypes.
  - apply Forall_forall. intros t [el [_ Ht]]%list_elem_of_omap.
    destruct (head (arr (child "complexType" el))) as [ct|]; [|discriminate].
    destruct (negb (truthy ct)); [discriminate|]. by injection Ht as <-.
  - apply Forall_fmap, Forall_forall. by intros ct _.
  - apply Forall_fmap, Forall_forall. by intros st _.
  - by rewrite <- list_fmap_compose.
  - by rewrite <- list_fmap_compose.
Qed.

(** X5. The fields of a complex type come from one compositor only.  When
    the node has a [sequence], its first [sequence] is that compositor:
    there is one field per [element] of it, and the [all] and [choice]
    children, like any further [sequence], are never read: two nodes with
    the same first [sequence] have the same fields. *)
Theorem extractFields_first_compositor (ct ct' c : node) :
  head (arr (child "sequence" ct)) = Some c →
  head (arr (child "sequence" ct')) = Some c →
  extractFields trim ct = extractFields trim ct' ∧
  map field_name (extractFields trim ct)
    = map (λ el, default "" (attr "name" el)) (arr (child "element" c)).
Proof.
  unfold extractFields. intros -> ->. split; [done|].
  by rewrite <- list_fmap_compose.
Qed.

(** X6. Operations are flattened in port type order: the operations of a
    list of port types are those of each, one after the other, none dropped
    and none merged, equal names included. *)
Theorem extractOperations_flattened (portTypes1 portTypes2 : list node) :
  extractOperations trim (portTypes1 ++ portTypes2)
    = extractOperations trim portTypes1 ++ extractOperations trim portTypes2 ∧
  ∀ portTypes,
    map op_name (extractOperations trim portTypes)
    = flat_map (λ pt, map (λ op, default "" (attr "name" op))
                          (arr (child "operation" pt))) portTypes.
Proof.
  unfold extractOperations. split; [apply flat_map_app|].
  intros portTypes. induction portTypes as [|pt rest IH]; [done|].
  simpl. rewrite map_app, IH. f_equal.
  by rewrite map_map.
Qed.

(** X7. An endpoint's URL is the [location] of the port's first [address],
    whether the parser delivered the address as one node or as an array:
    the hand-written test of [extractEndpoints] reads what [arr] would. *)
Theorem extractEndpoints_address (services : list node) :
  map endpoint_url (extractEndpoints services)
  = flat_map (λ svc,
      map (λ port, default "" (head (arr (child "address" port)) ≫= attr "location"))
          (arr (child "port" svc))) services.
Proof.
  unfold extractEndpoints. induction services as [|svc rest IH]; [done|].
  simpl. rewrite map_app, IH. f_equal. rewrite map_map.
  apply map_ext. intros port. simpl. unfold orElse.
  destruct (child "address" port) as [[s|b s|items props|attrs children]|]; try done.
Qed.

Lemma getDoc_reads n n' :
  truthy n = truthy n' →
  child "documentation" n = child "documentation" n' →
  child "annotation" n = child "annotation" n' →
  getDoc trim n = getDoc trim n'.
Proof. unfold getDoc. by intros -> -> ->. Qed.

(** Two trees that agree on everything [buildModel] reads have the same
    model. *)
Lemma buildModel_agree (raw raw' defs defs' : node) :
  child "definitions" raw = Some defs →
  child "definitions" raw' = Some defs' →
  truthy defs = truthy defs' →
  attr "name" defs = attr "name" defs' →
  attr "targetNamespace" defs = attr "targetNamespace" defs' →
  child "documentation" defs = child "documentation" defs' →
  child "annotation" defs = child "annotation" defs' →
  (∀ key, key ∈ Load.WSDL_DEF_KEYS → items key defs = items key defs') →
  (∀ key, key ∈ READ_TYPE_KEYS →
     items key (modelSchema defs) = items key (modelSchema defs')) →
  buildModel trim raw = buildModel trim raw'.
Proof.
  intros Hd Hd' Ht Hn Hns Hdoc Hann Hitems Hschema.
  unfold buildModel. rewrite Hd, Hd'.
  rewrite Hn, Hns, (getDoc_reads defs defs') by done.
  unfold items in Hitems, Hschema.
  rewrite (Hitems "message"), (Hitems "portType"), (Hitems "binding"),
    (Hitems "service") by (vm_compute; set_solver).
  unfold extractTypes. fold (modelSchema defs) (modelSchema defs').
  by rewrite (Hschema "element"), (Hschema "complexType"), (Hschema "simpleType")
    by (vm_compute; set_solver).
Qed.

(** X8. What [buildModel] reads of a tree: the [name] and
    [targetNamespace] attributes of the definitions, its documentation, the
    items under [message], [portType], [binding] and [service], and the
    items of the schema under [element], [complexType] and [simpleType].
    Two trees that agree on these have the same model.  So no other child of
    the definitions has an effect: setting or replacing one, an [import]
    list for instance, leaves the model as it was; and in the schema the
    same holds for every child but the three read, import and include nodes
    and [group] and [attributeGroup] declarations included. *)
Theorem buildModel_reads (raw defs : node) :
  is_object raw = true →
  child "definitions" raw = Some defs →
  is_object defs = true →
  (∀ raw' defs',
     child "definitions" raw' = Some defs' →
     truthy defs' = true →
     attr "name" defs = attr "name" defs' →
     attr "targetNamespace" defs = attr "targetNamespace" defs' →
     child "documentation" defs = child "documentation" defs' →
     child "annotation" defs = child "annotation" defs' →
     (∀ key, key ∈ Load.WSDL_DEF_KEYS → items key defs = items key defs') →
     (∀ key, key ∈ READ_TYPE_KEYS →
        items key (modelSchema defs) = items key (modelSchema defs')) →
     buildModel trim raw = buildModel trim raw') ∧
  (∀ key value,
     key ∉ ["documentation"; "annotation"; "types"] ++ Load.WSDL_DEF_KEYS →
     buildModel trim (Load.put_child "definitions" (Load.put_child key value defs) raw)
     = buildModel trim raw) ∧
  (∀ types schema key value,
     child "types" defs = Some types → child "schema" types = Some schema →
     is_object schema = true → key ∉ READ_TYPE_KEYS →
     buildModel trim
       (Load.put_child "definitions"
          (Load.withSchema defs (Load.put_child key value schema)) raw)
     = buildModel trim raw).
Proof.
  intros Hraw Hdefs Hobj.
  assert (Htruthy : truthy defs = true) by by destruct defs.
  split; [|split].
  - intros raw' defs' Hdefs' Ht. apply buildModel_agree; [done|done|congruence].
  - intros key value Hkey. symmetry.
    destruct (LoadFrame.put_child_object key value defs Hobj) as (Ho & _ & Hf & Ha).
    destruct (LoadFrame.put_child_object "definitions"
                (Load.put_child key value defs) raw Hraw) as (_ & Hk & _ & _).
    apply (buildModel_agree raw _ defs (Load.put_child key value defs));
      [done | done | by rewrite Htruthy; destruct (Load.put_child key value defs)
      | by rewrite Ha | by rewrite Ha | | | |].
    + rewrite Hf; [done|]. intros <-. apply Hkey. set_solver.
    + rewrite Hf; [done|]. intros <-. apply Hkey. set_solver.
    + intros k Hk'. unfold items. rewrite Hf; [done|].
      intros <-. apply Hkey. set_solver.
    + intros k Hk'. unfold modelSchema. rewrite Hf; [done|].
      intros <-. apply Hkey. set_solver.
  - intros types schema key value Htypes Hschema Hos Hkey. symmetry.
    assert (is_object types = true) as Hot by by destruct types.
    unfold Load.withSchema. rewrite Htypes.
    set (schema' := Load.put_child key value schema).
    set (types' := Load.put_child "schema" schema' types).
    set (defs' := Load.put_child "types" types' defs).
    destruct (LoadFrame.put_child_object key value schema Hos) as (_ & _ & Hfs & _).
    destruct (LoadFrame.put_child_object "schema" schema' types Hot) as (_ & Hkt & _ & _).
    destruct (LoadFrame.put_child_object "types" types' defs Hobj) as (Hod & Hkd & Hfd & Had).
    destruct (LoadFrame.put_child_object "definitions" defs' raw Hraw) as (_ & Hk & _ & _).
    fold schema' types' defs' in Hfs, Hkt, Hod, Hkd, Hfd, Had, Hk.
    apply (buildModel_agree raw _ defs defs');
      [done | done | by rewrite Htruthy; destruct defs'
      | by rewrite Had | by rewrite Had | by rewrite Hfd | by rewrite Hfd | |].
    + intros k Hk'. unfold items. rewrite Hfd; [done|].
      intros ->. vm_compute in Hk'. set_solver.
    + intros k Hk'. unfold items, modelSchema.
      rewrite Hkd, Htypes. simpl. rewrite Hkt, Hschema. simpl.
      rewrite Hfs; [done|]. by intros ->.
Qed.

End Normalizer.

(** An empty [sequence] beside a [choice] of two elements: the (empty)
    sequence is the compositor, and there are no fields, with or without the
    [choice]. *)
Lemma extractFields_first_compositor_witness :
  extractFields id Samples.pickType = extractFields id Samples.pickTypeBare ∧
  map field_name (extractFields id Samples.pickType) = [].
Proof.
  destruct (extractFields_first_compositor id Samples.pickType Samples.pickTypeBare
              (Str "")) as [Hsame Hnames];
    [vm_compute; reflexivity | vm_compute; reflexivity |].
  split; [exact Hsame|]. rewrite Hnames. reflexivity.
Defined.

(** A document and the same document with an import, a schema that only
    declares a group, and one more attribute: one model. *)
Lemma buildModel_reads_witness :
  buildModel id Samples.plainTree = buildModel id Samples.clutteredTree.
Proof.
  refine (proj1 (buildModel_reads id Samples.plainTree Samples.plainDefs _ _ _)
            Samples.clutteredTree Samples.clutteredDefs _ _ _ _ _ _ _ _);
    try (vm_compute; reflexivity).
  - intros key Hkey.
    repeat (apply elem_of_cons in Hkey as [->|Hkey]; [vm_compute; reflexivity|]).
    by apply not_elem_of_nil in Hkey.
  - intros key Hkey.
    repeat (apply elem_of_cons in Hkey as [->|Hkey]; [vm_compute; reflexivity|]).
    by apply not_elem_of_nil in Hkey.
Defined.

End NormalizerProofs.

(* ===================================================================== *)
(** ** render.js: escaping and the markup of the page                      *)
(* ===================================================================== *)

Module RenderProofs.
Import Stdlib.Strings.Ascii Model Render RenderSpec.

Lemma app_cons (a : ascii) (s t : string) : String a s +:+ t = String a (s +:+ t).
Proof. reflexivity. Qed.

Lemma app_nil (t : string) : "" +:+ t = t.
Proof. reflexivity. Qed.

Lemma app_assoc' (s t u : string) : (s +:+ t) +:+ u = s +:+ t +:+ u.
Proof. induction s as [|a s IH]; [done|]. by rewrite !app_cons, IH. Qed.

Lemma replaceAll_app c r (s t : string) :
  replaceAll c r (s +:+ t) = replaceAll c r s +:+ replaceAll c r t.
Proof.
  induction s as [|a s IH]; [done|].
  rewrite app_cons. cbn [replaceAll]. rewrite IH.
  destruct (Ascii.eqb a c); [by rewrite app_assoc' | done].
Qed.

(** The five cases of a character for [esc]. *)
Lemma escChar_cases (a : ascii) :
  (a = "&"%char ∧ escChar a = "&amp;") ∨
  (a = "<"%char ∧ escChar a = "&lt;") ∨
  (a = ">"%char ∧ escChar a = "&gt;") ∨
  (a = dquote ∧ escChar a = "&quot;") ∨
  (Ascii.eqb a "&" = false ∧ Ascii.eqb a "<" = false ∧ Ascii.eqb a ">" = false ∧
   Ascii.eqb a dquote = false ∧ escChar a = String a "").
Proof.
  unfold escChar.
  destruct (Ascii.eqb a "&") eqn:E1; [left; by apply Ascii.eqb_eq in E1|].
  destruct (Ascii.eqb a "<") eqn:E2; [right; left; by apply Ascii.eqb_eq in E2|].
  destruct (Ascii.eqb a ">") eqn:E3; [right; right; left; by apply Ascii.eqb_eq in E3|].
  destruct (Ascii.eqb a dquote) eqn:E4;
    [right; right; right; left; by apply Ascii.eqb_eq in E4|].
  by repeat right.
Qed.

(** The four replacements of [esc], one after the other, do to a text what
    one pass does that writes each character's entity. *)
Lemma esc_cons (a : ascii) (s : string) : esc (String a s) = escChar a +:+ esc s.
Proof.
  unfold esc. cbn [replaceAll].
  destruct (escChar_cases a) as [[-> ->]|[[-> ->]|[[-> ->]|[[-> ->]|(E1 & E2 & E3 & E4 & ->)]]]].
  - change (("&" =? "&")%char) with true. cbv iota.
    by rewrite !replaceAll_app.
  - change (("<" =? "&")%char) with false. cbv iota. cbn [replaceAll].
    change (("<" =? "<")%char) with true. cbv iota.
    by rewrite !replaceAll_app.
  - change ((">" =? "&")%char) with false. cbv iota. cbn [replaceAll].
    change ((">" =? "<")%char) with false. cbv iota. cbn [replaceAll].
    change ((">" =? ">")%char) with true. cbv iota.
    by rewrite !replaceAll_app.
  - change ((dquote =? "&")%char) with false. cbv iota. cbn [replaceAll].
    change ((dquote =? "<")%char) with false. cbv iota. cbn [replaceAll].
    change ((dquote =? ">")%char) with false. cbv iota. cbn [replaceAll].
    change ((dquote =? dquote)%char) with true. cbv iota. done.
  - rewrite E1. cbn [replaceAll]. rewrite E2. cbn [replaceAll]. rewrite E3.
    cbn [replaceAll]. by rewrite E4.
Qed.

Lemma markup_app (s t : string) : markup (s +:+ t) = markup s +:+ markup t.
Proof.
  induction s as [|a s IH]; [done|].
  rewrite app_cons. cbn [markup]. rewrite IH. by destruct (isMarkup a).
Qed.

Lemma markup_escChar (a : ascii) : markup (escChar a) = "".
Proof.
  destruct (escChar_cases a) as [[-> ->]|[[-> ->]|[[-> ->]|[[-> ->]|(E1 & E2 & E3 & E4 & ->)]]]];
    try reflexivity.
  cbn [markup]. unfold isMarkup. by rewrite E2, E3, E4.
Qed.

Lemma markup_esc (s : string) : markup (esc s) = "".
Proof.
  induction s as [|a s IH]; [done|].
  by rewrite esc_cons, markup_app, markup_escChar, IH.
Qed.

Lemma markup_none (s : string) :
  markup s = "" → ∀ c, c ∈ String.list_ascii_of_string s → isMarkup c = false.
Proof.
  induction s as [|a s IH]; cbn [markup String.list_ascii_of_string].
  - intros _ c Hc. by apply not_elem_of_nil in Hc.
  - destruct (isMarkup a) eqn:Ha; [discriminate|].
    intros Hs c [->|Hc]%elem_of_cons; [done | by apply IH].
Qed.

(** X9. No character of [esc(value)] is [<], [>] or a double quote,
    whatever the value; and [esc] treats every character on its own: the
    result is the concatenation of the entities of the characters of the
    value, so the ampersand of an entity written for [<], [>] or a quote is
    not escaped a second time. *)
Theorem esc_no_markup (value : string) :
  (∀ c, c ∈ String.list_ascii_of_string (esc value) → isMarkup c = false) ∧
  esc value = String.concat "" (map escChar (String.list_ascii_of_string value)).
Proof.
  split; [apply markup_none, markup_esc|].
  induction value as [|a s IH]; [done|].
  rewrite esc_cons, IH. cbn [String.list_ascii_of_string map String.concat].
  destruct (map escChar (String.list_ascii_of_string s)) as [|x xs] eqn:E; [|done].
  cbn [String.concat]. clear. induction (escChar a) as [|b t IHt]; [done|].
  by rewrite app_cons, IHt.
Qed.

Lemma app_inv_head (p s t : string) : p +:+ s = p +:+ t → s = t.
Proof.
  induction p as [|a p IH]; [done|]. rewrite !app_cons. intros [= H]. by apply IH.
Qed.

(** X10. [esc] loses nothing: two values with the same escaped text are
    the same value. *)
Theorem esc_injective (value1 value2 : string) :
  esc value1 = esc value2 → value1 = value2.
Proof.
  revert value2. induction value1 as [|a s IH]; intros [|b t].
  - done.
  - rewrite esc_cons.
    destruct (escChar_cases b) as [[-> ->]|[[-> ->]|[[-> ->]|[[-> ->]|(_ & _ & _ & _ & ->)]]]];
      discriminate.
  - rewrite esc_cons.
    destruct (escChar_cases a) as [[-> ->]|[[-> ->]|[[-> ->]|[[-> ->]|(_ & _ & _ & _ & ->)]]]];
      discriminate.
  - rewrite !esc_cons. intros H.
    assert (a = b ∧ esc s = esc t) as [-> Hrest]; [|by rewrite (IH t Hrest)].
    revert H.
    destruct (escChar_cases a)
      as [[-> ->]|[[-> ->]|[[-> ->]|[[-> ->]|(A1 & A2 & A3 & A4 & ->)]]]];
    destruct (escChar_cases b)
      as [[-> ->]|[[-> ->]|[[-> ->]|[[-> ->]|(B1 & B2 & B3 & B4 & ->)]]]];
    intros H;
    try discriminate H;
    try (split; [done|]; by eapply app_inv_head);
    rewrite ?app_cons, ?app_nil in H; injection H as Hhead Htail; subst;
    try discriminate; by split.
Qed.

Lemma esc_injective_witness : "a<b & c" = "a<b & c".
Proof. apply (esc_injective "a<b & c" "a<b & c"). reflexivity. Defined.

Lemma markup_concat (sep : string) (ls : list string) :
  markup (String.concat sep ls) = String.concat (markup sep) (map markup ls).
Proof.
  induction ls as [|x [|y ls] IH]; [done | done |].
  change (String.concat sep (x :: y :: ls))
    with (x +:+ sep +:+ String.concat sep (y :: ls)).
  rewrite !markup_app, IH. reflexivity.
Qed.

Lemma rows_ext {A} (render : A → string) (blankA : A → A) (l : list A) :
  (∀ x, markup (render x) = markup (render (blankA x))) →
  map (λ x, markup (render x)) l = map (λ x, markup (render (blankA x))) l.
Proof. intros H. by apply map_ext. Qed.

Lemma markup_q (value : string) :
  markup (q value) = String dquote (markup value) +:+ String dquote "".
Proof. unfold q. rewrite app_cons. cbn [markup]. by rewrite markup_app. Qed.

Ltac push_markup :=
  unfold lines;
  repeat first
    [ rewrite markup_concat
    | rewrite markup_app
    | rewrite markup_esc
    | rewrite markup_q
    | rewrite map_map
    | progress cbn [map] ].

Lemma markup_doc (text : string) : markup (doc text) = markup (doc (blankText text)).
Proof.
  unfold doc, blankText. destruct (String.eqb text ""); [done|].
  change (String.eqb "x" "") with false. cbv iota.
  by rewrite !markup_app, !markup_esc.
Qed.

Lemma markup_renderFieldRow (f : Field) :
  markup (renderFieldRow f) = markup (renderFieldRow (blankField f)).
Proof.
  unfold renderFieldRow, blankField, blankMinOccurs. cbn [field_minOccurs field_name
    field_type field_maxOccurs field_documentation].
  destruct (String.eqb (field_minOccurs f) "0"); cbv zeta;
    [change (String.eqb "0" "0") with true | change (String.eqb "1" "0") with false];
    cbn [negb]; cbv iota; by push_markup.
Qed.

Lemma markup_renderFieldTable (fields : list Field) :
  markup (renderFieldTable fields)
  = markup (renderFieldTable (map blankField fields)).
Proof.
  destruct fields as [|f fields]; [done|].
  cbn [map]. unfold renderFieldTable. push_markup.
  by rewrite (markup_renderFieldRow f),
    (rows_ext renderFieldRow blankField fields markup_renderFieldRow).
Qed.

Lemma markup_renderValue (v : string) :
  markup (renderValue v) = markup (renderValue ((λ _, "") v)).
Proof. unfold renderValue. by push_markup. Qed.

Lemma markup_renderEnumerations (values : list string) :
  markup (renderEnumerations values)
  = markup (renderEnumerations (map (λ _, "") values)).
Proof.
  destruct values as [|v values]; [done|].
  cbn [map]. unfold renderEnumerations. push_markup.
  by rewrite (markup_renderValue v),
    (rows_ext renderValue (λ _, "") values markup_renderValue).
Qed.

Lemma markup_renderType (t : TypeDef) :
  markup (renderType t) = markup (renderType (blankType t)).
Proof.
  unfold renderType, blankType.
  cbn [type_kind type_name type_documentation type_fields type_enumerations].
  cbv zeta. push_markup.
  rewrite (markup_doc (type_documentation t)).
  destruct (type_kind t);
    [ by rewrite (markup_renderFieldTable (type_fields t))
    | by rewrite (markup_renderFieldTable (type_fields t))
    | by rewrite (markup_renderEnumerations (type_enumerations t)) ].
Qed.

Lemma markup_renderTypes (ts : list TypeDef) :
  markup (renderTypes ts) = markup (renderTypes (map blankType ts)).
Proof.
  destruct ts as [|t ts]; [done|].
  cbn [map]. unfold renderTypes. cbv zeta. push_markup.
  by rewrite (markup_renderType t), (rows_ext renderType blankType ts markup_renderType).
Qed.

Lemma markup_renderPart (p : Part) :
  markup (renderPart p) = markup (renderPart ((λ _, mkPart "" "" "") p)).
Proof.
  unfold renderPart. cbn [part_name part_element part_type]. cbv zeta.
  destruct (String.eqb (part_element p) ""); push_markup; vm_compute; reflexivity.
Qed.

Lemma markup_renderMessage (m : Message) :
  markup (renderMessage m) = markup (renderMessage (blankMessage m)).
Proof.
  unfold renderMessage, blankMessage. cbn [message_name message_parts]. cbv zeta.
  push_markup.
  by rewrite (rows_ext renderPart (λ _, mkPart "" "" "") (message_parts m)
                markup_renderPart).
Qed.

Lemma markup_renderMessages (ms : list Message) :
  markup (renderMessages ms) = markup (renderMessages (map blankMessage ms)).
Proof.
  destruct ms as [|m ms]; [done|].
  cbn [map]. unfold renderMessages. cbv zeta. push_markup.
  by rewrite (markup_renderMessage m),
    (rows_ext renderMessage blankMessage ms markup_renderMessage).
Qed.

Lemma markup_renderFault (f : Fault) :
  markup (renderFault f) = markup (renderFault ((λ _, mkFault "" "") f)).
Proof. unfold renderFault. by push_markup. Qed.

Lemma markup_renderOperation (op : Operation) :
  markup (renderOperation op) = markup (renderOperation (blankOperation op)).
Proof.
  unfold renderOperation, blankOperation.
  cbn [op_name op_documentation op_input op_output op_faults]. cbv zeta.
  push_markup. rewrite (markup_doc (op_documentation op)).
  destruct (op_faults op) as [|f fs]; [done|]. push_markup.
  by rewrite (markup_renderFault f),
    (rows_ext renderFault (λ _, mkFault "" "") fs markup_renderFault).
Qed.

Lemma markup_renderOperations (ops : list Operation) :
  markup (renderOperations ops) = markup (renderOperations (map blankOperation ops)).
Proof.
  destruct ops as [|op ops]; [done|].
  cbn [map]. unfold renderOperations. cbv zeta. push_markup.
  by rewrite (markup_renderOperation op),
    (rows_ext renderOperation blankOperation ops markup_renderOperation).
Qed.

Lemma markup_renderBoundOperation (op : BoundOperation) :
  markup (renderBoundOperation op)
  = markup (renderBoundOperation ((λ _, mkBoundOperation "" "") op)).
Proof. unfold renderBoundOperation. by push_markup. Qed.

Lemma markup_renderBinding (b : Binding) :
  markup (renderBinding b) = markup (renderBinding (blankBinding b)).
Proof.
  unfold renderBinding, blankBinding.
  cbn [binding_name binding_type binding_style binding_transport binding_protocol
       binding_operations]. cbv zeta. push_markup.
  by rewrite (rows_ext renderBoundOperation (λ _, mkBoundOperation "" "")
                (binding_operations b) markup_renderBoundOperation).
Qed.

Lemma markup_renderBindings (bs : list Binding) :
  markup (renderBindings bs) = markup (renderBindings (map blankBinding bs)).
Proof.
  destruct bs as [|b bs]; [done|].
  cbn [map]. unfold renderBindings. cbv zeta. push_markup.
  by rewrite (markup_renderBinding b),
    (rows_ext renderBinding blankBinding bs markup_renderBinding).
Qed.

Lemma markup_renderEndpoint (ep : Endpoint) :
  markup (renderEndpoint ep)
  = markup (renderEndpoint ((λ _, mkEndpoint "" "" "" "") ep)).
Proof. unfold renderEndpoint. by push_markup. Qed.

Lemma markup_renderEndpoints (eps : list Endpoint) :
  markup (renderEndpoints eps)
  = markup (renderEndpoints (map (λ _, mkEndpoint "" "" "" "") eps)).
Proof.
  destruct eps as [|ep eps]; [done|].
  cbn [map]. unfold renderEndpoints. cbv zeta. push_markup.
  by rewrite (markup_renderEndpoint ep),
    (rows_ext renderEndpoint (λ _, mkEndpoint "" "" "" "") eps markup_renderEndpoint).
Qed.

Lemma markup_renderHeader (model : Service) :
  markup (renderHeader model) = markup (renderHeader (blank model)).
Proof.
  unfold renderHeader, blank. cbn [name targetNamespace documentation].
  push_markup. unfold blankText.
  destruct (String.eqb (documentation model) "") eqn:E; [done|].
  change (String.eqb "x" "") with false. cbv iota.
  rewrite (markup_doc (documentation model)). unfold blankText. by rewrite E.
Qed.

(** The markup of the page is that of the page of the blanked model. *)
Lemma markup_renderHtml isoNow (model : Service) (title inlineCss : option string) :
  markup (renderHtml isoNow model title inlineCss)
  = markup (renderHtml isoNow (blank model) (Some "") inlineCss).
Proof.
  unfold renderHtml. cbv zeta. push_markup.
  rewrite (markup_renderHeader model), (markup_renderTypes (types model)),
    (markup_renderMessages (messages model)),
    (markup_renderOperations (operations model)),
    (markup_renderBindings (bindings model)),
    (markup_renderEndpoints (endpoints model)).
  reflexivity.
Qed.

(** X11. No text of the model and no title can change the markup of the
    page.  The characters [<], [>] and double quote of the page, in order,
    are the same for any two models that agree once every text is blanked
    (same list lengths, same kinds of types, the same documentation texts
    empty, the same fields optional), whatever their names, type names,
    namespaces, URLs, actions and documentation texts are, and whatever the
    titles.  Only the style sheet given as [inlineCss] is written out as it
    is. *)
Theorem renderHtml_markup_fixed isoNow (model1 model2 : Service)
    (title1 title2 inlineCss : option string) :
  blank model1 = blank model2 →
  markup (renderHtml isoNow model1 title1 inlineCss)
  = markup (renderHtml isoNow model2 title2 inlineCss).
Proof.
  intros Hblank.
  by rewrite (markup_renderHtml isoNow model1), (markup_renderHtml isoNow model2), Hblank.
Qed.

(** The calculator, and the calculator with markup in every name: the two
    pages have the same markup characters. *)
Lemma renderHtml_markup_fixed_witness :
  markup (renderHtml "2026-01-01T00:00:00.000Z" Examples.calculator None None)
  = markup (renderHtml "2026-01-01T00:00:00.000Z" Samples.hostileCalculator
              (Some "</title><script>") None).
Proof. apply renderHtml_markup_fixed. vm_compute. reflexivity. Defined.

End RenderProofs.

(* ===================================================================== *)
(** ** The two parser configurations agree on schema constructs           *)
(* ===================================================================== *)

Module ArrayTagsProofs.
Import ArrayTags.

(** X12. The parser behind [parseWsdl] forces to an array every element
    the parser behind [parseXsd] forces, and besides those exactly the ten
    WSDL constructs; neither ever forces an attribute.  So a schema has the
    same array shape whether it was read inside a WSDL document or from a
    schema file of its own, and [group] and [attributeGroup], which
    [mergeSchema] also merges, are arrays for neither. *)
Theorem array_tags_agree (tagName jPath : string) (isLeaf isAttribute : bool) :
  isArrayTag tagName jPath isLeaf isAttribute
  = isXsdArrayTag tagName jPath isLeaf isAttribute
    || (negb isAttribute && bool_decide (tagName ∈ wsdlOnlyElements)) ∧
  isArrayTag tagName jPath isLeaf true = false ∧
  isXsdArrayTag tagName jPath isLeaf true = false ∧
  isArrayTag "group" jPath isLeaf isAttribute = false ∧
  isArrayTag "attributeGroup" jPath isLeaf isAttribute = false ∧
  Forall (λ key, isXsdArrayTag key jPath isLeaf false = true)
         ["element"; "complexType"; "simpleType"; "import"; "include"].
Proof.
  split; [|split; [done|split; [done|split; [|split]]]].
  - unfold isArrayTag, isXsdArrayTag. destruct isAttribute; [done|]. simpl negb.
    rewrite andb_true_l.
    apply eq_true_iff_eq. rewrite orb_true_iff, !bool_decide_eq_true.
    unfold arrayElements, xsdArrayElements, wsdlOnlyElements.
    rewrite !elem_of_cons, !elem_of_nil. tauto.
  - by destruct isAttribute.
  - by destruct isAttribute.
  - repeat constructor.
Qed.

End ArrayTagsProofs.

(* ===================================================================== *)
(** ** resolve.js: the index as a view of the model                        *)
(* ===================================================================== *)

Module IndexProofs.
Import Model Resolve ResolveProofs.

Lemma newMap_lookup {V} (entries : list (string * V)) k :
  (∀ v, newMap entries !! k = Some v → (k, v) ∈ entries) ∧
  (newMap entries !! k = None ↔ k ∉ map fst entries).
Proof.
  induction entries as [|[k' v'] entries IH] using rev_ind.
  - split; [by intros v | split; [intros _ H; by apply not_elem_of_nil in H|done]].
  - rewrite newMap_snoc, map_app. simpl.
    destruct (decide (k' = k)) as [->|Hne].
    + rewrite lookup_insert_eq. split.
      * intros v [= <-]. apply elem_of_app. right. apply list_elem_of_here.
      * split; [discriminate|]. intros Hnot. exfalso. apply Hnot.
        apply elem_of_app. right. apply list_elem_of_here.
    + rewrite lookup_insert_ne by done. destruct IH as [IH1 IH2]. split.
      * intros v Hv. apply elem_of_app. left. by apply IH1.
      * rewrite IH2, not_elem_of_app, not_elem_of_cons. split; [|tauto].
        intros H. split; [done|]. split; [congruence|]. apply not_elem_of_nil.
Qed.

(** X13. The index is a view of the model and nothing more.  A name has an
    entry in [typeByName] exactly when some type of the model has that name,
    and the entry is then a type of the model with that name.  The same holds
    for [messageByName] and the messages. *)
Theorem buildIndex_is_view (model : Service) (key : string) :
  (typeByName (buildIndex model) !! key = None ↔ key ∉ map type_name (types model)) ∧
  (∀ t, typeByName (buildIndex model) !! key = Some t →
        t ∈ types model ∧ type_name t = key) ∧
  (messageByName (buildIndex model) !! key = None
     ↔ key ∉ map message_name (messages model)) ∧
  (∀ m, messageByName (buildIndex model) !! key = Some m →
        m ∈ messages model ∧ message_name m = key).
Proof.
  unfold buildIndex; simpl.
  destruct (newMap_lookup (map (λ t, (type_name t, t)) (types model)) key) as [Ht1 Ht2].
  destruct (newMap_lookup (map (λ m, (message_name m, m)) (messages model)) key)
    as [Hm1 Hm2].
  rewrite map_map in Ht2, Hm2. simpl in Ht2, Hm2.
  split; [exact Ht2|]. split; [|split; [exact Hm2|]].
  - intros t Ht. apply Ht1 in Ht. apply list_elem_of_fmap in Ht as (t' & [= -> ->] & Hin).
    done.
  - intros m Hm. apply Hm1 in Hm. apply list_elem_of_fmap in Hm as (m' & [= -> ->] & Hin).
    done.
Qed.

End IndexProofs.

(* ===================================================================== *)
(** ** load.js: more about the merge functions and ensureSchema            *)
(* ===================================================================== *)

Module MergeFacts.
Import Util Load LoadSpec MergeProofs LoadFrame LoadDiamond.

Lemma filter_none {A} (P : A → Prop) `{∀ x, Decision (P x)} (l : list A) :
  (∀ x, x ∈ l → ¬ P x) → filter P l = [].
Proof.
  induction l as [|x l IH]; intros Hnone; [done|].
  rewrite filter_cons_False by (apply Hnone; left).
  apply IH. intros y Hy. apply Hnone. by right.
Qed.

(** After a merge, every name of the source is a name of the destination. *)
Lemma newItems_saturated (destItems srcItems : list node) :
  newItems (destItems ++ newItems destItems srcItems) srcItems = [].
Proof.
  rewrite (newItems_filter (destItems ++ _)). apply filter_none.
  intros n Hn Hfresh. apply Hfresh. rewrite map_app, elem_of_app.
  destruct (decide (attr "name" n ∈ map (attr "name") destItems)) as [Hin|Hnot];
    [by left|right].
  apply list_elem_of_fmap. exists n. split; [done|].
  rewrite newItems_filter. by apply list_elem_of_filter.
Qed.

Lemma set_child_same k v n :
  is_object n = true → child k n = Some v → set_child k v n = Ok n.
Proof.
  destruct n as [s|b s|items props|attrs children]; simpl; try discriminate;
    intros _ H; by rewrite insert_id.
Qed.

(** One key of [mergeWsdlDefs], applied to a node that already holds the
    outcome of that key's merge, returns the node. *)
Lemma mergeWsdlDefsKey_fixed src dest key d1 m :
  is_object dest = true →
  mergeWsdlDefsKey src dest key = Ok d1 →
  is_object m = true →
  child key m = child key d1 →
  mergeWsdlDefsKey src m key = Ok m.
Proof.
  unfold mergeWsdlDefsKey. intros Hobj Hstep Hm Hchild.
  destruct (arr (child key src)) as [|item items] eqn:Hsrc; [done|].
  destruct (set_child_object key
              (Arr (arr (child key dest) ++
                    newItems (arr (child key dest)) (item :: items)) ∅) dest Hobj)
    as (d' & Hd' & _ & Hkey & _ & _).
  rewrite Hd' in Hstep. injection Hstep as <-.
  rewrite Hkey in Hchild. rewrite Hchild. cbn [arr].
  rewrite newItems_saturated, app_nil_r. by apply set_child_same.
Qed.

Lemma mergeWsdlDefs_fold_idempotent src keys :
  NoDup keys →
  ∀ dest merged, is_object dest = true →
    foldl (λ acc key, andThen acc (λ d, mergeWsdlDefsKey src d key)) (Ok dest) keys
      = Ok merged →
    is_object merged = true ∧
    (∀ k, k ∉ keys → child k merged = child k dest) ∧
    foldl (λ acc key, andThen acc (λ d, mergeWsdlDefsKey src d key)) (Ok merged) keys
      = Ok merged.
Proof.
  induction keys as [|key rest IH]; intros Hnodup dest merged Hobj Hfold.
  - simpl in *. by simplify_eq.
  - apply NoDup_cons in Hnodup as [Hfresh Hnodup]. simpl in Hfold.
    destruct (mergeWsdlDefsKey_spec src dest key Hobj)
      as (d1 & Hd1 & Hobj1 & _ & Hframe1 & _).
    rewrite Hd1 in Hfold.
    destruct (IH Hnodup d1 merged Hobj1 Hfold) as (Hobjm & Hframem & Hagain).
    split; [done|]. split.
    + intros k [Hne Hnot]%not_elem_of_cons. by rewrite Hframem, Hframe1.
    + simpl.
      rewrite (mergeWsdlDefsKey_fixed src dest key d1 merged Hobj Hd1 Hobjm
                 (Hframem key Hfresh)).
      exact Hagain.
Qed.

(** X14. Merging the same definitions a second time changes nothing: once
    [mergeWsdlDefs] has merged a source into a destination, every name of
    the source is present, and a further merge of that source returns the
    node as it is. *)
Theorem mergeWsdlDefs_idempotent (dest src merged : node) :
  mergeWsdlDefs dest src = Ok merged →
  mergeWsdlDefs merged src = Ok merged.
Proof.
  intros Hm. destruct (is_object dest) eqn:Hobj.
  - by apply (mergeWsdlDefs_fold_idempotent src WSDL_DEF_KEYS WSDL_DEF_KEYS_NoDup
                dest merged Hobj).
  - assert (merged = dest) as ->; [|done].
    eapply fold_keys_fixed; [|exact Hm].
    intros key d'. unfold mergeWsdlDefsKey.
    destruct (arr (child key src)); [by intros [= ->]|].
    destruct dest; simpl in *; discriminate.
Qed.

(** X15. [mergeSchema] is plain concatenation.  Under each declaration
    key the merged schema holds the destination's items followed by all
    items of the source, whatever their names; so a second merge of the same
    source adds every item of it a second time.  A source that is not an
    object (an empty schema element is parsed as the empty string) adds
    nothing, into any destination, and nothing is thrown. *)
Theorem mergeSchema_concatenates :
  (∀ dest src, is_object dest = true →
     ∃ once twice,
       mergeSchema dest src = Ok once ∧ mergeSchema once src = Ok twice ∧
       ∀ key, key ∈ XSD_TYPE_KEYS →
         arr (child key once) = arr (child key dest) ++ arr (child key src) ∧
         arr (child key twice)
           = arr (child key dest) ++ arr (child key src) ++ arr (child key src)) ∧
  (∀ dest src, is_object src = false → mergeSchema dest src = Ok dest).
Proof.
  split.
  - intros dest src Hobj.
    destruct (mergeSchema_spec dest src Hobj) as (once & H1 & Hobj1 & Harr1 & _).
    destruct (mergeSchema_spec once src Hobj1) as (twice & H2 & _ & Harr2 & _).
    exists once, twice. split; [done|]. split; [done|].
    intros key Hkey. split; [by apply Harr1|].
    by rewrite (Harr2 key Hkey), (Harr1 key Hkey), <- app_assoc.
  - intros dest src Hsrc. unfold mergeSchema, mergeSchemaKey.
    assert (∀ key, arr (child key src) = []) as Hnone
      by (intros key; by destruct src).
    induction XSD_TYPE_KEYS as [|key keys IH]; [done|].
    simpl. by rewrite Hnone.
Qed.

(** X16. [ensureSchema] is idempotent, and what it returns is in the
    tree: when it returns, the schema node is truthy and is the node at
    [types.schema] of the definitions, and a second call on the definitions
    returns the same two nodes without changing anything. *)
Theorem ensureSchema_idempotent (defs defsE schema : node) :
  ensureSchema defs = Ok (defsE, schema) →
  truthy schema = true ∧
  (child "types" defsE ≫= child "schema") = Some schema ∧
  ensureSchema defsE = Ok (defsE, schema).
Proof.
  intros (_ & _ & _ & _ & (typesE & Htypes & HobjT & Hschema) & Heq)%ensureSchema_inv.
  assert (truthy schema = true) as Htruthy.
  { rewrite Heq. destruct (child "types" defs ≫= child "schema") as [sch|]; [|done].
    by destruct (truthy sch) eqn:E. }
  split; [done|]. split; [by rewrite Htypes|].
  by apply (ensureSchema_present defsE typesE schema).
Qed.

(** Destination [A], source [A] and [B]: the merge adds [B]; a second
    merge of the same source returns the same node. *)
Lemma mergeWsdlDefs_idempotent_witness :
  ∃ merged, mergeWsdlDefs Examples.defsDest Examples.defsSrc = Ok merged ∧
            arr (child "message" merged) = [Examples.msgA; Examples.msgB] ∧
            mergeWsdlDefs merged Examples.defsSrc = Ok merged.
Proof.
  destruct (mergeWsdlDefs Examples.defsDest Examples.defsSrc) as [merged|e] eqn:Hm;
    [|vm_compute in Hm; discriminate].
  exists merged. split; [reflexivity|]. split.
  - vm_compute in Hm. injection Hm as <-. vm_compute. reflexivity.
  - exact (mergeWsdlDefs_idempotent Examples.defsDest Examples.defsSrc merged Hm).
Defined.

(** The schema of [b.xsd] merged with that of [c.xsd], twice: [Team] is
    there twice. *)
Lemma mergeSchema_concatenates_witness :
  ∃ once twice,
    mergeSchema Examples.bSchema Examples.cSchema = Ok once ∧
    mergeSchema once Examples.cSchema = Ok twice ∧
    map (attr "name") (arr (child "complexType" twice))
      = [Some "Person"; Some "Team"; Some "Team"].
Proof.
  destruct (proj1 mergeSchema_concatenates Examples.bSchema Examples.cSchema eq_refl)
    as (once & twice & H1 & H2 & Hkeys).
  exists once, twice. split; [exact H1|]. split; [exact H2|].
  destruct (Hkeys "complexType") as [_ Htwice].
  - unfold XSD_TYPE_KEYS. set_solver.
  - rewrite Htwice. vm_compute. reflexivity.
Defined.

(** Definitions without a [types] element. *)
Lemma ensureSchema_idempotent_witness :
  ∃ defsE schema,
    ensureSchema Examples.defsEmpty = Ok (defsE, schema) ∧
    schema = empty_obj ∧
    ensureSchema defsE = Ok (defsE, schema).
Proof.
  destruct (ensureSchema Examples.defsEmpty) as [[defsE schema]|e] eqn:He;
    [|vm_compute in He; discriminate].
  exists defsE, schema. split; [reflexivity|]. split.
  - vm_compute in He. by injection He as <- <-.
  - exact (proj2 (proj2 (ensureSchema_idempotent Examples.defsEmpty defsE schema He))).
Defined.

End MergeFacts.

(* ===================================================================== *)
(** ** load.js: skipping, and what a load adds and merges                *)
(* ===================================================================== *)

Module LoadFacts.
Import Util Model Parse Load LoadSpec LoadRules LoadRuns LoadTermination MergeProofs.
Import LoadFrame LoadDirectives LoadNoImports LoadDiamond TreeSpec ImportGraph.

Lemma wp_any {A} (c : M A) s (Q : result A → state → Prop) :
  (∀ r s', Q r s') → wp false c s Q.
Proof. intros HQ. unfold wp. by destruct (c s) as [[r s']|]. Qed.


Section Facts.
Context (R : Runtime).

Lemma visitWsdl_seen recur absLoc defs s :
  absLoc ∈ visited s → visitWsdl R recur absLoc defs s = Some (Ok defs, s).
Proof.
  intros Hin. unfold visitWsdl, bind, hasVisited. by rewrite bool_decide_true.
Qed.

Lemma resolveWsdlImportsWith_located recur defs baseDir s :
  resolveWsdlImportsWith R recur defs baseDir s
  = forEach (λ acc absLoc, visitWsdl R recur absLoc acc)
            (locatedWsdlImports R defs baseDir) defs s.
Proof.
  unfold resolveWsdlImportsWith.
  apply (loop_located _ (wsdlLocated R baseDir) (visitWsdl R recur)).
  intros acc item. apply wsdlImportStep_located.
Qed.

Lemma loop_all_seen (visit : string → node → M node) (locs : list string) acc s :
  (∀ absLoc, absLoc ∈ locs → visit absLoc acc s = Some (Ok acc, s)) →
  forEach (λ acc absLoc, visit absLoc acc) locs acc s = Some (Ok acc, s).
Proof.
  induction locs as [|absLoc locs IH]; intros Hseen; [done|].
  cbn [forEach]. unfold bind. rewrite Hseen by left.
  apply IH. intros l Hl. apply Hseen. by right.
Qed.

(** X17. A directive whose target is already in the visited set is
    skipped: when every located directive of a schema (or every located
    import of a definitions node) points at a visited location, the loop
    returns the node as it is, fetches nothing and leaves the shared state
    as it was.  This is what ends a cycle. *)
Theorem visited_directives_are_skipped (fuel : nat) (schema defs : node)
    (baseDir : string) (s : state) :
  ((∀ absLoc, absLoc ∈ locatedXsdImports R schema baseDir → absLoc ∈ visited s) →
   resolveXsdImports R (S fuel) schema baseDir s = Some (Ok schema, s)) ∧
  ((∀ absLoc, absLoc ∈ locatedWsdlImports R defs baseDir → absLoc ∈ visited s) →
   resolveWsdlImports R fuel defs baseDir s = Some (Ok defs, s)).
Proof.
  split; intros Hseen.
  - rewrite resolveXsdImports_located. apply loop_all_seen.
    intros absLoc Hin. apply visitXsd_seen. by apply Hseen.
  - unfold resolveWsdlImports. rewrite resolveWsdlImportsWith_located.
    apply loop_all_seen. intros absLoc Hin. apply visitWsdl_seen. by apply Hseen.
Qed.

(** *** A load only appends *)

Lemma appended_refl keys n : appended keys n n.
Proof. split; [done|]. split; [apply keeps_refl|]. by intros key _. Qed.

Lemma appended_trans keys n1 n2 n3 :
  appended keys n1 n2 → appended keys n2 n3 → appended keys n1 n3.
Proof.
  intros (Ht1 & Hk1 & Hp1) (Ht2 & Hk2 & Hp2).
  split; [congruence|]. split; [by eapply keeps_trans|].
  intros key Hkey. etrans; [by apply Hp1 | by apply Hp2].
Qed.

Lemma mergeSchema_appended dest src merged :
  mergeSchema dest src = Ok merged → appended XSD_TYPE_KEYS dest merged.
Proof.
  intros Hm. pose proof (mergeSchema_keeps _ _ _ Hm) as Hkeeps.
  destruct (is_object dest) eqn:Hobj.
  - destruct (mergeSchema_spec dest src Hobj) as (m & Hm' & Hobjm & Harr & _).
    rewrite Hm in Hm'. injection Hm' as <-.
    split; [by rewrite !object_truthy|]. split; [done|].
    intros key Hkey. rewrite (Harr key Hkey). by eexists.
  - assert (merged = dest) as ->; [|apply appended_refl].
    eapply fold_keys_fixed; [|exact Hm].
    intros key d'. unfold mergeSchemaKey.
    destruct (arr (child key src)); [by intros [= ->]|].
    destruct dest; simpl in *; discriminate.
Qed.

Lemma mergeWsdlDefs_appended dest src merged :
  mergeWsdlDefs dest src = Ok merged → appended WSDL_DEF_KEYS dest merged.
Proof.
  intros Hm. pose proof (mergeWsdlDefs_keeps _ _ _ Hm) as Hkeeps.
  destruct (is_object dest) eqn:Hobj.
  - destruct (mergeWsdlDefs_spec dest src Hobj) as (m & Hm' & Hobjm & Harr & _).
    rewrite Hm in Hm'. injection Hm' as <-.
    split; [by rewrite !object_truthy|]. split; [done|].
    intros key Hkey. rewrite (Harr key Hkey). by eexists.
  - assert (merged = dest) as ->; [|apply appended_refl].
    eapply fold_keys_fixed; [|exact Hm].
    intros key d'. unfold mergeWsdlDefsKey.
    destruct (arr (child key src)); [by intros [= ->]|].
    destruct dest; simpl in *; discriminate.
Qed.

Lemma visitXsd_appended recur absLoc schema s :
  wp false (visitXsd R recur absLoc schema) s (okAppended XSD_TYPE_KEYS schema).
Proof.
  unfold visitXsd.
  apply wp_bind, wp_hasVisited. case_bool_decide as Hseen.
  { apply wp_ret, appended_refl. }
  apply wp_bind, wp_addVisited. apply wp_bind, wp_visit_fetch.
  destruct (fetchBody R absLoc) as [xsdXml|e]; [|done].
  apply wp_bind, wp_lift.
  destruct (parseXsd R xsdXml) as [importedSchema|e]; [|done].
  apply wp_bind, wp_any. intros [importedSchema'|e] s2; [|done].
  apply wp_bind, wp_emit. apply wp_lift. simpl.
  destruct (mergeSchema schema importedSchema') as [m|e] eqn:Hm; [|done].
  by eapply mergeSchema_appended.
Qed.

Lemma visitWsdl_appended recur absLoc defs s :
  wp false (visitWsdl R recur absLoc defs) s (okAppended WSDL_DEF_KEYS defs).
Proof.
  unfold visitWsdl.
  apply wp_bind, wp_hasVisited. case_bool_decide as Hseen.
  { apply wp_ret, appended_refl. }
  apply wp_bind, wp_addVisited. apply wp_bind, wp_visit_fetch.
  destruct (fetchBody R absLoc) as [importedXml|e]; [|done].
  apply wp_bind, wp_any. intros [importedRaw|e] s2; [|done].
  apply wp_bind, wp_emit.
  destruct (child "definitions" importedRaw) as [importedDefs|]; [|done].
  apply wp_lift. simpl.
  destruct (mergeWsdlDefs defs importedDefs) as [m|e] eqn:Hm; [|done].
  by eapply mergeWsdlDefs_appended.
Qed.

Lemma loop_appended {A} keys (step : node → A → M node) (items : list A) tree s :
  (∀ acc item s1, wp false (step acc item) s1 (okAppended keys acc)) →
  wp false (forEach step items tree) s (okAppended keys tree).
Proof.
  intros Hstep.
  apply (wp_forEach false step (λ _ acc _, appended keys tree acc)).
  - intros item rest acc s1 Hinv. eapply wp_mono; [|apply Hstep].
    intros [acc'|e] s2 Ha; [by eapply appended_trans | done].
  - done.
  - apply appended_refl.
Qed.

Lemma resolveXsdImports_appended fuel schema baseDir s :
  wp false (resolveXsdImports R fuel schema baseDir) s
     (okAppended XSD_TYPE_KEYS schema).
Proof.
  destruct fuel as [|fuel]; [done|]. simpl.
  apply loop_appended. intros acc item s1. rewrite xsdImportStep_located.
  destruct (xsdLocated R baseDir item) as [absLoc|];
    [apply visitXsd_appended | apply wp_ret, appended_refl].
Qed.

Lemma resolveWsdlImportsWith_appended recur defs baseDir s :
  wp false (resolveWsdlImportsWith R recur defs baseDir) s
     (okAppended WSDL_DEF_KEYS defs).
Proof.
  unfold resolveWsdlImportsWith.
  apply loop_appended. intros acc item s1. rewrite wsdlImportStep_located.
  destruct (wsdlLocated R baseDir item) as [absLoc|];
    [apply visitWsdl_appended | apply wp_ret, appended_refl].
Qed.

(** The steps of a successful [resolveWsdl], with what each appends. *)
Lemma resolveWsdl_appended fuel xml baseDir s :
  wp false (resolveWsdl R fuel xml baseDir) s
     (λ r _, match r with
             | Ok raw' =>
                 ∃ raw defs defsE schema schema' defs',
                   parseWsdl R xml = Ok raw ∧
                   child "definitions" raw = Some defs ∧
                   ensureSchema defs = Ok (defsE, schema) ∧
                   appended XSD_TYPE_KEYS schema schema' ∧
                   appended WSDL_DEF_KEYS (withSchema defsE schema') defs' ∧
                   raw' = put_child "definitions" defs' raw
             | Err _ => True
             end).
Proof.
  destruct fuel as [|fuel]; [done|]. rewrite resolveWsdl_unfold.
  apply wp_bind, wp_lift.
  destruct (parseWsdl R xml) as [raw|e] eqn:Hparse; [|done].
  destruct (child "definitions" raw) as [defs|] eqn:Hdefs; [|done].
  apply wp_bind, wp_lift.
  destruct (ensureSchema defs) as [[defsE schema]|e] eqn:Hensure; [|done].
  apply wp_bind. eapply wp_mono; [|apply resolveXsdImports_appended].
  intros [schema'|e] s1 Ha1; [|done].
  apply wp_bind. eapply wp_mono; [|apply resolveWsdlImportsWith_appended].
  intros [defs'|e] s2 Ha2; [|done].
  apply wp_ret. by exists raw, defs, defsE, schema, schema', defs'.
Qed.

(** *** Every imported schema file is merged *)












End Facts.

Lemma prefix_map {A B} (f : A → B) (l1 l2 : list A) :
  l1 `prefix_of` l2 → map f l1 `prefix_of` map f l2.
Proof. intros [k ->]. exists (map f k). apply map_app. Qed.

Lemma prefix_flat_map {A B} (f : A → list B) (l1 l2 : list A) :
  l1 `prefix_of` l2 → flat_map f l1 `prefix_of` flat_map f l2.
Proof. intros [k ->]. exists (flat_map f k). apply flat_map_app. Qed.

Lemma prefix_omap {A B} (f : A → option B) (l1 l2 : list A) :
  l1 `prefix_of` l2 → omap f l1 `prefix_of` omap f l2.
Proof. intros [k ->]. exists (omap f k). apply omap_app. Qed.

Lemma prefix_sublist {A} (l1 l2 : list A) : l1 `prefix_of` l2 → l1 `sublist_of` l2.
Proof. intros [k ->]. by apply sublist_inserts_r. Qed.

Section Extends.
Context (R : Runtime) (trim : string → string).

Lemma extractTypes_appended schema schema' :
  appended XSD_TYPE_KEYS schema schema' →
  extractTypes trim schema `sublist_of` extractTypes trim schema'.
Proof.
  intros (_ & _ & Hp). unfold extractTypes.
  repeat apply sublist_app; apply prefix_sublist;
    [apply prefix_omap | apply prefix_map | apply prefix_map];
    apply Hp; vm_compute; set_solver.
Qed.

(** What a successful load returns, beside the parse of the root alone. *)
Lemma load_appends_to_root (fuel : nat) (xml baseDir : string)
    (raw' : node) (st : state) :
  loadWsdl R fuel xml baseDir = Some (Ok raw', st) →
  ∃ raw root loaded,
    parseWsdl R xml = Ok raw ∧
    buildModel trim raw = Ok root ∧
    buildModel trim raw' = Ok loaded ∧
    name loaded = name root ∧
    targetNamespace loaded = targetNamespace root ∧
    documentation loaded = documentation root ∧
    messages root `prefix_of` messages loaded ∧
    operations root `prefix_of` operations loaded ∧
    bindings root `prefix_of` bindings loaded ∧
    endpoints root `prefix_of` endpoints loaded ∧
    types root `sublist_of` types loaded.
Proof.
  intros Hload.
  pose proof (resolveWsdl_appended R fuel xml baseDir {| visited := ∅; trace := [] |})
    as Hrun.
  unfold wp in Hrun. unfold loadWsdl in Hload. rewrite Hload in Hrun.
  destruct Hrun as (raw & defs & defsE & schema & schema' & defs' &
                    Hparse & Hdefs & Hensure & Hschema & (Ht & [Hkc Hka] & Hp) & ->).
  destruct (parseWsdl_inv _ _ _ Hparse) as [Hobj _].
  destruct (put_child_object "definitions" defs' raw Hobj) as (_ & Hk & _ & _).
  destruct (withSchema_spec defs defsE schema schema' Hensure)
    as (Hws & Hwf & Hwa & Hwo).
  destruct (ensureSchema_inv _ _ _ Hensure) as (Hod & _ & _ & _ & _ & Heq).
  exists raw. unfold buildModel. rewrite Hk, Hdefs. eexists _, _.
  split; [done|]. split; [reflexivity|]. split; [reflexivity|]. simpl.
  assert (Hitems : ∀ key, key ∈ WSDL_DEF_KEYS →
            arr (child key defs) `prefix_of` arr (child key defs')).
  { intros key Hkey. rewrite <- (Hwf key); [by apply Hp|].
    intros ->. vm_compute in Hkey. set_solver. }
  split; [by rewrite Hka, Hwa|]. split; [by rewrite Hka, Hwa|].
  split.
  { apply (getDoc_ext trim).
    - by rewrite Ht, !object_truthy.
    - rewrite (Hkc "documentation") by (vm_compute; set_solver). by apply Hwf.
    - rewrite (Hkc "annotation") by (vm_compute; set_solver). by apply Hwf. }
  split; [apply prefix_map, Hitems; vm_compute; set_solver|].
  split; [apply prefix_flat_map, Hitems; vm_compute; set_solver|].
  split; [apply prefix_map, Hitems; vm_compute; set_solver|].
  split; [apply prefix_flat_map, Hitems; vm_compute; set_solver|].
  rewrite (Hkc "types") by (vm_compute; set_solver). rewrite Hws. simpl.
  assert (extractTypes trim (default empty_obj (child "types" defs ≫= child "schema"))
          = extractTypes trim schema) as ->.
  { rewrite Heq.
    destruct (child "types" defs ≫= child "schema") as [sch|]; simpl; [|done].
    destruct (truthy sch) eqn:Hts; [done|]. by rewrite (extractTypes_falsy trim sch). }
  by apply extractTypes_appended.
Qed.

(** X19. Imports only add to the model of the root document.  When
    [loadWsdl] returns, the model of the tree it returns has the name, the
    target namespace and the documentation of the model of the root document
    parsed alone; the root's own messages, operations, bindings and
    endpoints come first, in their order, before anything imported; and the
    root's own types are all there, in their order. *)
Theorem load_extends_root_model (fuel : nat) (xml baseDir : string)
    (raw raw' : node) (st : state) (root loaded : Service) :
  loadWsdl R fuel xml baseDir = Some (Ok raw', st) →
  parseWsdl R xml = Ok raw →
  buildModel trim raw = Ok root →
  buildModel trim raw' = Ok loaded →
  name loaded = name root ∧
  targetNamespace loaded = targetNamespace root ∧
  documentation loaded = documentation root ∧
  messages root `prefix_of` messages loaded ∧
  operations root `prefix_of` operations loaded ∧
  bindings root `prefix_of` bindings loaded ∧
  endpoints root `prefix_of` endpoints loaded ∧
  types root `sublist_of` types loaded.
Proof.
  intros Hload Hparse Hroot Hloaded.
  destruct (load_appends_to_root fuel xml baseDir raw' st Hload)
    as (raw0 & root0 & loaded0 & Hparse0 & Hroot0 & Hloaded0 & Hall).
  rewrite Hparse in Hparse0. injection Hparse0 as <-.
  rewrite Hroot in Hroot0. injection Hroot0 as <-.
  rewrite Hloaded in Hloaded0. injection Hloaded0 as <-.
  exact Hall.
Qed.



End Extends.

Ltac run_sample := first [lia | discriminate | vm_compute; reflexivity].

(** [self.wsdl] while its own location is visited: its import is skipped. *)
Lemma visited_directives_are_skipped_witness :
  resolveWsdlImports Examples.demo 0
    (default empty_obj (child "definitions" Examples.selfTree)) "/ws"
    {| visited := {["/ws/self.wsdl"]}; trace := [] |}
  = Some (Ok (default empty_obj (child "definitions" Examples.selfTree)),
          {| visited := {["/ws/self.wsdl"]}; trace := [] |}).
Proof.
  apply (proj2 (visited_directives_are_skipped Examples.demo 0 empty_obj
                  (default empty_obj (child "definitions" Examples.selfTree)) "/ws"
                  {| visited := {["/ws/self.wsdl"]}; trace := [] |})).
  assert (locatedWsdlImports Examples.demo
            (default empty_obj (child "definitions" Examples.selfTree)) "/ws"
          = ["/ws/self.wsdl"]) as -> by (vm_compute; reflexivity).
  intros absLoc ->%list_elem_of_singleton. simpl. set_solver.
Defined.


(** The chain of two documents below [/ws/svc]: the root's message [A]
    comes first, then what the imports add. *)
Lemma load_extends_root_model_witness :
  ∃ raw' st root loaded,
    loadWsdl Samples.site 9 Samples.rootWsdlXml "/ws" = Some (Ok raw', st) ∧
    buildModel id Samples.rootWsdlTree = Ok root ∧
    buildModel id raw' = Ok loaded ∧
    map message_name (messages root) = ["A"] ∧
    map message_name (messages loaded) = ["A"; "B"; "C"] ∧
    messages root `prefix_of` messages loaded.
Proof.
  eexists _, _, _, _.
  split; [vm_compute; reflexivity|]. split; [vm_compute; reflexivity|].
  split; [vm_compute; reflexivity|]. split; [reflexivity|]. split; [reflexivity|].
  refine (proj1 (proj2 (proj2 (proj2
            (load_extends_root_model Samples.site id 9 Samples.rootWsdlXml "/ws"
               Samples.rootWsdlTree _ _ _ _ _ _ _ _))))); run_sample.
Defined.

End LoadFacts.

(* ===================================================================== *)
(** ** load.js: chains, self-imports and a file imported both ways         *)
(* ===================================================================== *)

Module LoadChains.
Import Util Model Parse Load LoadSpec LoadRules LoadRuns LoadTermination MergeProofs.
Import LoadFrame LoadDirectives LoadNoImports LoadDiamond TreeSpec.
Import NormalizerProofs MergeFacts LoadFacts.


Section Chains.
Context (R : Runtime).

Lemma visitWsdl_fresh recur absLoc defs s body rawI defsI s2 merged :
  absLoc ∉ visited s →
  fetchBody R absLoc = Ok body →
  recur body (baseDirOf R absLoc) (opened s WsdlImport absLoc) = Some (Ok rawI, s2) →
  child "definitions" rawI = Some defsI →
  mergeWsdlDefs defs defsI = Ok merged →
  visitWsdl R recur absLoc defs s = Some (Ok merged, closed s2 absLoc).
Proof.
  intros Hfresh Hfetch Hrec Hdefs Hmerge.
  unfold visitWsdl, fetchSource, bind, hasVisited, addVisited, emit.
  rewrite bool_decide_false by done. cbn [visited trace].
  rewrite Hfetch. cbn [lift ret].
  unfold opened in Hrec. rewrite Hrec. cbn [visited trace]. rewrite Hdefs.
  by rewrite Hmerge.
Qed.

(** The steps of [resolveWsdl], put together. *)
Lemma resolveWsdl_steps fuel xml baseDir s raw defs defsE schema schema' s1 defs' s2 :
  parseWsdl R xml = Ok raw →
  child "definitions" raw = Some defs →
  ensureSchema defs = Ok (defsE, schema) →
  resolveXsdImports R (S fuel) schema baseDir s = Some (Ok schema', s1) →
  resolveWsdlImportsWith R (resolveWsdl R fuel) (withSchema defsE schema') baseDir s1
    = Some (Ok defs', s2) →
  resolveWsdl R (S fuel) xml baseDir s
    = Some (Ok (put_child "definitions" defs' raw), s2).
Proof.
  intros Hparse Hdefs Hensure Hx Hw. rewrite resolveWsdl_unfold.
  unfold bind at 1. rewrite Hparse. cbn [lift ret]. rewrite Hdefs.
  unfold bind at 1. rewrite Hensure. cbn [lift ret fst snd].
  unfold bind at 1. rewrite Hx.
  unfold bind at 1. by rewrite Hw.
Qed.



Lemma locatedWsdlImports_ensured defs defsE schema baseDir :
  ensureSchema defs = Ok (defsE, schema) →
  locatedWsdlImports R defsE baseDir = locatedWsdlImports R defs baseDir.
Proof.
  intros (_ & _ & Hframe & _)%ensureSchema_inv.
  unfold locatedWsdlImports. by rewrite Hframe.
Qed.


(** X21. Relative locations are resolved against the importing document's
    own location.  A root whose schema imports [X], where the schema of [X]
    has one located import which, resolved against the directory of [X],
    is [Y]: the loader fetches [X], then [Y] at that location, merges [Y]
    into [X] and then [X] into the root; under every declaration key the
    schema of the result holds the root's items, then those of [X], then
    those of [Y], and the types of its model are those of the three
    schemas. *)
Theorem nested_import_uses_own_location (trim : string → string) (xml baseDir : string)
    (raw defs schemaA : node) (LX LY bodyX bodyY : string)
    (schemaX schemaY : node) (fuel : nat) :
  parseWsdl R xml = Ok raw →
  child "definitions" raw = Some defs →
  (child "types" defs ≫= child "schema") = Some schemaA →
  locatedWsdlImports R defs baseDir = [] →
  locatedXsdImports R schemaA baseDir = [LX] →
  fetchBody R LX = Ok bodyX → parseXsd R bodyX = Ok schemaX →
  locatedXsdImports R schemaX (baseDirOf R LX) = [LY] →
  LY ≠ LX →
  fetchBody R LY = Ok bodyY → parseXsd R bodyY = Ok schemaY →
  locatedXsdImports R schemaY (baseDirOf R LY) = [] →
  3 ≤ fuel →
  ∃ raw' st schema',
    loadWsdl R fuel xml baseDir = Some (Ok raw', st) ∧
    trace st = [Fetched XsdImport LX; Fetched XsdImport LY; Merged LY; Merged LX] ∧
    schemaOf raw' = Some schema' ∧
    (∀ key, key ∈ XSD_TYPE_KEYS →
       arr (child key schema')
       = arr (child key schemaA) ++ arr (child key schemaX) ++ arr (child key schemaY)) ∧
    (∀ model, buildModel trim raw' = Ok model →
       types model ≡ₚ extractTypes trim schemaA ++ extractTypes trim schemaX
                      ++ extractTypes trim schemaY).
Proof.
  intros Hparse Hdefs HschemaA Hw HxA HfX HpX HxX Hne HfY HpY HxY Hfuel.
  destruct fuel as [|[|[|fuel]]]; try lia.
  destruct (child "types" defs) as [typesA|] eqn:Htypes; [|discriminate].
  simpl in HschemaA.
  assert (is_object schemaA = true) as HobjA by by eapply located_object.
  assert (is_object schemaX = true) as HobjX by by eapply located_object.
  pose proof (ensureSchema_present defs typesA schemaA Htypes HschemaA
                (object_truthy _ HobjA)) as Hensure.
  destruct (parseWsdl_inv _ _ _ Hparse) as [Hobj _].
  destruct (mergeSchema_spec schemaX schemaY HobjX) as (mX & HmX & HobjmX & HarrX & _).
  destruct (mergeSchema_spec schemaA mX HobjA) as (mA & HmA & HobjmA & HarrA & _).
  set (s0 := {| visited := ∅; trace := [] |}).
  set (s1 := opened s0 XsdImport LX).
  assert (resolveXsdImports R (S (S fuel)) schemaX (baseDirOf R LX) s1
          = Some (Ok mX, closed (opened s1 XsdImport LY) LY)) as Hinner.
  { rewrite resolveXsdImports_located, HxX. cbn [forEach]. unfold bind.
    by rewrite (visitXsd_fresh R _ LY schemaX s1 bodyY schemaY schemaY
                  (opened s1 XsdImport LY) mX)
      by (done || (simpl; set_solver) || by apply resolveXsdImports_unlocated). }
  assert (resolveXsdImports R (S (S (S fuel))) schemaA baseDir s0
          = Some (Ok mA, closed (closed (opened s1 XsdImport LY) LY) LX)) as Hrun.
  { rewrite resolveXsdImports_located, HxA. cbn [forEach]. unfold bind.
    by rewrite (visitXsd_fresh R _ LX schemaA s0 bodyX schemaX mX
                  (closed (opened s1 XsdImport LY) LY) mA)
      by (done || set_solver). }
  destruct (withSchema_spec defs defs schemaA mA Hensure) as (Hws & Hwf & Hwa & Hwo).
  destruct (put_child_object "definitions" (withSchema defs mA) raw Hobj)
    as (_ & Hk & _ & _).
  assert (Hall : ∀ key, key ∈ XSD_TYPE_KEYS →
            arr (child key mA)
            = arr (child key schemaA) ++ arr (child key schemaX) ++ arr (child key schemaY)).
  { intros key Hkey. by rewrite (HarrA key Hkey), (HarrX key Hkey). }
  exists (put_child "definitions" (withSchema defs mA) raw),
         (closed (closed (opened s1 XsdImport LY) LY) LX), mA.
  split; [|split; [done|split; [|split; [done|]]]].
  - unfold loadWsdl. fold s0.
    eapply resolveWsdl_steps; [done | done | done | exact Hrun |].
    apply resolveWsdlImportsWith_unlocated.
    unfold locatedWsdlImports in *. by rewrite Hwf.
  - unfold schemaOf. rewrite Hk. simpl. exact Hws.
  - intros model Hmodel. unfold buildModel in Hmodel. rewrite Hk in Hmodel.
    injection Hmodel as <-. simpl. rewrite Hws. simpl.
    rewrite (extractTypes_merged trim schemaA mX mA HarrA).
    by rewrite (extractTypes_merged trim schemaX schemaY mX HarrX).
Qed.

(** X22. First seen wins along a chain of document imports.  A root that
    imports the document [X], which imports the document [Y] (located
    against the directory of [X]): [Y] is merged into [X] and then [X] into
    the root, so under each of [message], [portType], [binding] and
    [service] the result holds the root's items, then the items of [X] whose
    name the root does not have, then the items of [Y] whose name neither
    the root nor [X] has. *)
Theorem import_chain_first_seen_wins (xml baseDir : string)
    (raw defs defsE schema : node) (LX LY bodyX bodyY : string)
    (rawX defsX defsXE schemaX rawY defsY defsYE schemaY : node) (fuel : nat) :
  parseWsdl R xml = Ok raw →
  child "definitions" raw = Some defs →
  ensureSchema defs = Ok (defsE, schema) →
  locatedXsdImports R schema baseDir = [] →
  locatedWsdlImports R defs baseDir = [LX] →
  fetchBody R LX = Ok bodyX → parseWsdl R bodyX = Ok rawX →
  child "definitions" rawX = Some defsX →
  ensureSchema defsX = Ok (defsXE, schemaX) →
  locatedXsdImports R schemaX (baseDirOf R LX) = [] →
  locatedWsdlImports R defsX (baseDirOf R LX) = [LY] →
  LY ≠ LX →
  fetchBody R LY = Ok bodyY → parseWsdl R bodyY = Ok rawY →
  child "definitions" rawY = Some defsY →
  ensureSchema defsY = Ok (defsYE, schemaY) →
  locatedXsdImports R schemaY (baseDirOf R LY) = [] →
  locatedWsdlImports R defsY (baseDirOf R LY) = [] →
  3 ≤ fuel →
  ∃ raw' st defs',
    loadWsdl R fuel xml baseDir = Some (Ok raw', st) ∧
    trace st = [Fetched WsdlImport LX; Fetched WsdlImport LY; Merged LY; Merged LX] ∧
    child "definitions" raw' = Some defs' ∧
    ∀ key, key ∈ WSDL_DEF_KEYS →
      arr (child key defs')
      = arr (child key defs)
        ++ newItems (arr (child key defs))
             (arr (child key defsX)
              ++ newItems (arr (child key defsX)) (arr (child key defsY))).
Proof.
  intros Hparse Hdefs Hensure Hx Hw HfX HpX HdX HeX HxX HwX Hne
         HfY HpY HdY HeY HxY HwY Hfuel.
  destruct fuel as [|[|[|fuel]]]; try lia.
  destruct (parseWsdl_inv _ _ _ Hparse) as [Hobj _].
  destruct (parseWsdl_inv _ _ _ HpX) as [HobjX _].
  destruct (parseWsdl_inv _ _ _ HpY) as [HobjY _].
  destruct (ensureSchema_inv _ _ _ Hensure) as (_ & HoE & Hframe & _).
  destruct (ensureSchema_inv _ _ _ HeX) as (_ & HoXE & HframeX & _).
  destruct (ensureSchema_inv _ _ _ HeY) as (_ & HoYE & HframeY & _).
  pose proof (withSchema_same _ _ _ Hensure) as Hsame.
  pose proof (withSchema_same _ _ _ HeX) as HsameX.
  pose proof (withSchema_same _ _ _ HeY) as HsameY.
  destruct (put_child_object "definitions" defsYE rawY HobjY) as (_ & HkY & _ & _).
  destruct (mergeWsdlDefs_spec defsXE defsYE HoXE) as (mX & HmX & HomX & HarrX & _).
  destruct (put_child_object "definitions" mX rawX HobjX) as (_ & HkX & _ & _).
  destruct (mergeWsdlDefs_spec defsE mX HoE) as (mA & HmA & HomA & HarrA & _).
  destruct (put_child_object "definitions" mA raw Hobj) as (_ & Hk & _ & _).
  set (s0 := {| visited := ∅; trace := [] |}).
  set (s1 := opened s0 WsdlImport LX).
  set (s2 := opened s1 WsdlImport LY).
  assert (resolveWsdl R (S fuel) bodyY (baseDirOf R LY) s2
          = Some (Ok (put_child "definitions" defsYE rawY), s2)) as HrunY.
  { eapply resolveWsdl_steps; [done | done | done | |].
    - by apply resolveXsdImports_unlocated.
    - rewrite HsameY. apply resolveWsdlImportsWith_unlocated.
      by rewrite (locatedWsdlImports_ensured defsY defsYE schemaY). }
  assert (resolveWsdl R (S (S fuel)) bodyX (baseDirOf R LX) s1
          = Some (Ok (put_child "definitions" mX rawX), closed s2 LY)) as HrunX.
  { eapply resolveWsdl_steps; [done | done | done | |].
    - by apply resolveXsdImports_unlocated.
    - rewrite HsameX, resolveWsdlImportsWith_located.
      rewrite (locatedWsdlImports_ensured defsX defsXE schemaX) by done. rewrite HwX.
      cbn [forEach]. unfold bind.
      by rewrite (visitWsdl_fresh _ LY defsXE s1 bodyY
                    (put_child "definitions" defsYE rawY) defsYE s2 mX)
        by (done || (simpl; set_solver)). }
  exists (put_child "definitions" mA raw), (closed (closed s2 LY) LX), mA.
  split; [|split; [done|split; [done|]]].
  - unfold loadWsdl. fold s0.
    eapply resolveWsdl_steps; [done | done | done | |].
    + by apply resolveXsdImports_unlocated.
    + rewrite Hsame, resolveWsdlImportsWith_located.
      rewrite (locatedWsdlImports_ensured defs defsE schema) by done. rewrite Hw.
      cbn [forEach]. unfold bind.
      by rewrite (visitWsdl_fresh _ LX defsE s0 bodyX
                    (put_child "definitions" mX rawX) mX (closed s2 LY) mA)
        by (done || set_solver).
  - intros key Hkey.
    assert (key ≠ "types") as Hnt by (intros ->; vm_compute in Hkey; set_solver).
    by rewrite (HarrA key Hkey), (HarrX key Hkey), (Hframe key Hnt),
      (HframeX key Hnt), (HframeY key Hnt).
Qed.

(** X23. One visited set serves both kinds of import.  When the root's
    schema imports a location and the root also imports the same location
    as a document, the file is fetched once, for the schema import, which
    comes first; the document import is then skipped.  The schema of the
    file is merged, and none of its messages, port types, bindings or
    services are: those collections of the result are the root's own. *)
Theorem location_imported_both_ways (xml baseDir : string)
    (raw defs schemaA : node) (location body : string) (schemaL : node) (fuel : nat) :
  parseWsdl R xml = Ok raw →
  child "definitions" raw = Some defs →
  (child "types" defs ≫= child "schema") = Some schemaA →
  locatedXsdImports R schemaA baseDir = [location] →
  locatedWsdlImports R defs baseDir = [location] →
  fetchBody R location = Ok body → parseXsd R body = Ok schemaL →
  locatedXsdImports R schemaL (baseDirOf R location) = [] →
  2 ≤ fuel →
  ∃ raw' st defs' schema',
    loadWsdl R fuel xml baseDir = Some (Ok raw', st) ∧
    trace st = [Fetched XsdImport location; Merged location] ∧
    child "definitions" raw' = Some defs' ∧
    (∀ key, key ∈ WSDL_DEF_KEYS → child key defs' = child key defs) ∧
    schemaOf raw' = Some schema' ∧
    (∀ key, key ∈ XSD_TYPE_KEYS →
       arr (child key schema') = arr (child key schemaA) ++ arr (child key schemaL)).
Proof.
  intros Hparse Hdefs HschemaA HxA Hw Hfetch HpL HxL Hfuel.
  destruct fuel as [|[|fuel]]; try lia.
  destruct (child "types" defs) as [typesA|] eqn:Htypes; [|discriminate].
  simpl in HschemaA.
  assert (is_object schemaA = true) as HobjA by by eapply located_object.
  pose proof (ensureSchema_present defs typesA schemaA Htypes HschemaA
                (object_truthy _ HobjA)) as Hensure.
  destruct (parseWsdl_inv _ _ _ Hparse) as [Hobj _].
  destruct (mergeSchema_spec schemaA schemaL HobjA) as (mA & HmA & HobjmA & HarrA & _).
  set (s0 := {| visited := ∅; trace := [] |}).
  set (s1 := opened s0 XsdImport location).
  assert (resolveXsdImports R (S (S fuel)) schemaA baseDir s0
          = Some (Ok mA, closed s1 location)) as Hrun.
  { rewrite resolveXsdImports_located, HxA. cbn [forEach]. unfold bind.
    by rewrite (visitXsd_fresh R _ location schemaA s0 body schemaL schemaL s1 mA)
      by (done || set_solver || by apply resolveXsdImports_unlocated). }
  destruct (withSchema_spec defs defs schemaA mA Hensure) as (Hws & Hwf & Hwa & Hwo).
  destruct (put_child_object "definitions" (withSchema defs mA) raw Hobj)
    as (_ & Hk & _ & _).
  exists (put_child "definitions" (withSchema defs mA) raw), (closed s1 location),
         (withSchema defs mA), mA.
  split; [|split; [done|split; [done|split; [|split; [|done]]]]].
  - unfold loadWsdl. fold s0.
    eapply resolveWsdl_steps; [done | done | done | exact Hrun |].
    rewrite resolveWsdlImportsWith_located.
    assert (locatedWsdlImports R (withSchema defs mA) baseDir = [location]) as ->.
    { unfold locatedWsdlImports in *. by rewrite Hwf. }
    apply loop_all_seen. intros l [->|Hl]%elem_of_cons.
    + apply visitWsdl_seen. simpl. set_solver.
    + by apply not_elem_of_nil in Hl.
  - intros key Hkey. apply Hwf. intros ->. vm_compute in Hkey. set_solver.
  - unfold schemaOf. rewrite Hk. simpl. exact Hws.
Qed.

End Chains.


(** The root in [/ws] imports [sub/x.xsd], which imports [y.xsd]: the file
    read is [/ws/sub/y.xsd], not [/ws/y.xsd], and the types are [A], [X] and
    [Y]. *)
Lemma nested_import_uses_own_location_witness :
  ∃ raw' st schema',
    loadWsdl Samples.site 6 Samples.chainXml "/ws" = Some (Ok raw', st) ∧
    trace st = [Fetched XsdImport "/ws/sub/x.xsd"; Fetched XsdImport "/ws/sub/y.xsd";
                Merged "/ws/sub/y.xsd"; Merged "/ws/sub/x.xsd"] ∧
    schemaOf raw' = Some schema' ∧
    map (attr "name") (arr (child "complexType" schema'))
      = [Some "A"; Some "X"; Some "Y"].
Proof.
  destruct (nested_import_uses_own_location Samples.site id Samples.chainXml "/ws"
              Samples.chainTree (Samples.defsOf Samples.chainTree)
              Samples.chainSchema "/ws/sub/x.xsd" "/ws/sub/y.xsd"
              Samples.xXsd Samples.yXsd Samples.xSchema Samples.ySchema 6)
    as (raw' & st & schema' & Hload & Htrace & Hschema & Hkeys & _); try run_sample.
  exists raw', st, schema'. split; [exact Hload|]. split; [exact Htrace|].
  split; [exact Hschema|].
  rewrite (Hkeys "complexType") by (unfold XSD_TYPE_KEYS; set_solver).
  vm_compute. reflexivity.
Defined.

(** The root declares message [A]; [x.wsdl] declares [A] and [B]; [y.wsdl]
    declares [B] and [C]: the result has [A] of the root, [B] of [x.wsdl] and
    [C] of [y.wsdl]. *)
Lemma import_chain_first_seen_wins_witness :
  ∃ raw' st defs',
    loadWsdl Samples.site 6 Samples.rootWsdlXml "/ws" = Some (Ok raw', st) ∧
    trace st = [Fetched WsdlImport "/ws/svc/x.wsdl"; Fetched WsdlImport "/ws/svc/y.wsdl";
                Merged "/ws/svc/y.wsdl"; Merged "/ws/svc/x.wsdl"] ∧
    child "definitions" raw' = Some defs' ∧
    arr (child "message" defs')
      = [Samples.msg "A" "root"; Samples.msg "B" "x"; Samples.msg "C" "y"].
Proof.
  destruct (import_chain_first_seen_wins Samples.site Samples.rootWsdlXml "/ws"
              Samples.rootWsdlTree
              (Samples.defsOf Samples.rootWsdlTree)
              (Samples.ensured (Samples.defsOf Samples.rootWsdlTree)).1
              (Samples.ensured (Samples.defsOf Samples.rootWsdlTree)).2
              "/ws/svc/x.wsdl" "/ws/svc/y.wsdl" Samples.xWsdlXml Samples.yWsdlXml
              Samples.xWsdlTree
              (Samples.defsOf Samples.xWsdlTree)
              (Samples.ensured (Samples.defsOf Samples.xWsdlTree)).1
              (Samples.ensured (Samples.defsOf Samples.xWsdlTree)).2
              Samples.yWsdlTree
              (Samples.defsOf Samples.yWsdlTree)
              (Samples.ensured (Samples.defsOf Samples.yWsdlTree)).1
              (Samples.ensured (Samples.defsOf Samples.yWsdlTree)).2 6)
    as (raw' & st & defs' & Hload & Htrace & Hdefs & Hkeys); try run_sample.
  exists raw', st, defs'. split; [exact Hload|]. split; [exact Htrace|].
  split; [exact Hdefs|].
  rewrite (Hkeys "message") by (unfold WSDL_DEF_KEYS; set_solver).
  vm_compute. reflexivity.
Defined.

(** [both.wsdl] is imported by the schema and as a document: fetched once,
    its type [T] is merged, and its message [Theirs] is not. *)
Lemma location_imported_both_ways_witness :
  ∃ raw' st defs' schema',
    loadWsdl Samples.site 6 Samples.twiceXml "/ws" = Some (Ok raw', st) ∧
    trace st = [Fetched XsdImport "/ws/both.wsdl"; Merged "/ws/both.wsdl"] ∧
    child "definitions" raw' = Some defs' ∧
    map (attr "name") (arr (child "message" defs')) = [Some "Own"] ∧
    schemaOf raw' = Some schema' ∧
    map (attr "name") (arr (child "complexType" schema')) = [Some "T"].
Proof.
  destruct (location_imported_both_ways Samples.site Samples.twiceXml "/ws"
              Samples.twiceTree (Samples.defsOf Samples.twiceTree)
              (default empty_obj (schemaOf Samples.twiceTree))
              "/ws/both.wsdl" Samples.bothXml
              (default empty_obj (schemaOf Samples.bothXsdTree)) 6)
    as (raw' & st & defs' & schema' & Hload & Htrace & Hdefs & Hown & Hschema & Hkeys);
    try run_sample.
  exists raw', st, defs', schema'. split; [exact Hload|]. split; [exact Htrace|].
  split; [exact Hdefs|]. split.
  { rewrite (Hown "message") by (unfold WSDL_DEF_KEYS; set_solver).
    vm_compute. reflexivity. }
  split; [exact Hschema|].
  rewrite (Hkeys "complexType") by (unfold XSD_TYPE_KEYS; set_solver).
  vm_compute. reflexivity.
Defined.

End LoadChains.

(* ===================================================================== *)
(** ** load.js: a failure anywhere in the import graph is fatal            *)
(* ===================================================================== *)

Module LoadFailures.
Import Util Model Parse Load LoadSpec LoadRules LoadRuns LoadTermination MergeProofs.
Import LoadProofs LoadFrame LoadDirectives LoadNoImports LoadDiamond LoadFacts.
Import ImportGraph.

Section Covered.
Context (R : Runtime) (xml baseDir : string).















End Covered.




End LoadFailures.
